(** * claudebox: sandbox launcher for a coding assistant

    A shallow embedding of the two copies of [claudebox.js] found in the
    repository:

    - [src/src/claudebox.js] (module [Claudebox]): three capability flags,
      [--dry-run], sanitised ssh_config, SSH agent socket rebound to a fixed
      in-sandbox path;
    - [src/unnamed/part_001] (module [Part001]): five capability flags
      (git config and IDE integration added), IDE auth-token relay, no
      dry run.

    Strings are [string] (sequences of code units below 256), JavaScript
    [undefined] is [None], objects used as maps are association lists in
    enumeration order, and everything outside the program (environment,
    file-system probes, child processes) is a [Host] record of oracles.
    Effectful code runs in a small monad with a trace of events, a session
    directory as state, exceptions and [process.exit]. *)

From Stdlib Require Import String Ascii List Bool ZArith Lia Arith.
From Stdlib Require Import Permutation Sorted DecimalString.
From Ceres Require CeresS CeresParser.
Import ListNotations.
Local Open Scope list_scope.
Local Open Scope string_scope.

Set Implicit Arguments.

(* ===================================================================== *)
(** * JavaScript strings and objects *)
(* ===================================================================== *)

Module Js.

(** [s.startsWith(p)] *)
Fixpoint startsWith (s p : string) {struct p} : bool :=
  match p with
  | EmptyString => true
  | String c p' =>
      match s with
      | EmptyString => false
      | String d s' => Ascii.eqb c d && startsWith s' p'
      end
  end.

(** [s.slice(n)] for [0 <= n] *)
Fixpoint slice (n : nat) (s : string) : string :=
  match n, s with
  | O, _ => s
  | S n', String _ s' => slice n' s'
  | S _, EmptyString => EmptyString
  end.

(** [s.split(sep)] for a one-character separator; never empty. *)
Fixpoint split (sep : ascii) (s : string) : list string :=
  match s with
  | EmptyString => [EmptyString]
  | String c s' =>
      if Ascii.eqb c sep then EmptyString :: split sep s'
      else match split sep s' with
           | w :: ws => String c w :: ws
           | [] => [String c EmptyString]
           end
  end.

(** [a[0]] of a non-empty array of strings *)
Definition first (l : list string) : string :=
  match l with w :: _ => w | [] => EmptyString end.

(** last code unit of a string *)
Fixpoint last_char (s : string) : option ascii :=
  match s with
  | EmptyString => None
  | String c EmptyString => Some c
  | String _ s' => last_char s'
  end.

(** [s.endsWith(String c "")] *)
Definition endsWithChar (s : string) (c : ascii) : bool :=
  match last_char s with Some d => Ascii.eqb d c | None => false end.

(** [s.endsWith(p)] *)
Definition endsWith (s p : string) : bool :=
  (String.length p <=? String.length s)%nat
  && String.eqb (slice (String.length s - String.length p) s) p.

(** [s.includes(String c "")] *)
Fixpoint has_char (c : ascii) (s : string) : bool :=
  match s with
  | EmptyString => false
  | String d s' => Ascii.eqb d c || has_char c s'
  end.

(** [s.includes(p)] *)
Fixpoint includes (s p : string) : bool :=
  startsWith s p
  || match s with
     | EmptyString => false
     | String _ s' => includes s' p
     end.

(** Every code unit satisfies [f]. *)
Fixpoint all_chars (f : ascii -> bool) (s : string) : bool :=
  match s with
  | EmptyString => true
  | String c s' => f c && all_chars f s'
  end.

(** Some code unit satisfies [f]. *)
Fixpoint any_char (f : ascii -> bool) (s : string) : bool :=
  match s with
  | EmptyString => false
  | String c s' => f c || any_char f s'
  end.

(** [\d] *)
Definition is_digit (c : ascii) : bool :=
  let n := nat_of_ascii c in (48 <=? n)%nat && (n <=? 57)%nat.

(** [\s], restricted to code units below 256: TAB, LF, VT, FF, CR, SPACE and
    NBSP. *)
Definition is_space (c : ascii) : bool :=
  let n := nat_of_ascii c in
  ((9 <=? n)%nat && (n <=? 13)%nat) || (n =? 32)%nat || (n =? 160)%nat.

(** [/^\d+$/.test(s)] *)
Definition all_digits (s : string) : bool :=
  negb (String.eqb s "") && all_chars is_digit s.

(** [s.trim()] *)
Fixpoint trimStart (s : string) : string :=
  match s with
  | EmptyString => EmptyString
  | String c s' => if is_space c then trimStart s' else s
  end.

Fixpoint trimEnd (s : string) : string :=
  match s with
  | EmptyString => EmptyString
  | String c s' =>
      match trimEnd s' with
      | EmptyString => if is_space c then EmptyString else String c EmptyString
      | t => String c t
      end
  end.

Definition trim (s : string) : string := trimEnd (trimStart s).

(** Truthiness of a string that may be [undefined]: [undefined] and the
    empty string are falsy. *)
Definition truthy_str (v : option string) : bool :=
  match v with
  | Some s => negb (String.eqb s "")
  | None => false
  end.

(** [a || b] on strings that may be [undefined] *)
Definition or_opt (a b : option string) : option string :=
  if truthy_str a then a else b.

(** [a || d] with a string literal [d] that is not empty *)
Definition or_else (v : option string) (d : string) : string :=
  match v with
  | Some s => if String.eqb s "" then d else s
  | None => d
  end.

(** Template-literal rendering of a non-negative integer. *)
Definition string_of_nat (n : nat) : string :=
  NilEmpty.string_of_uint (Nat.to_uint n).

(** ** Objects used as maps

    An object is the list of its own enumerable properties in enumeration
    order.  (Keys that look like array indices are not reordered.) *)

Definition obj (V : Type) : Type := list (string * V).

Section Obj.
Variable V : Type.

(** [o[k]] *)
Fixpoint obj_get (k : string) (o : obj V) : option V :=
  match o with
  | [] => None
  | (k', v) :: o' => if String.eqb k' k then Some v else obj_get k o'
  end.

(** [k in o] *)
Definition obj_has (k : string) (o : obj V) : bool :=
  match obj_get k o with Some _ => true | None => false end.

(** [delete o[k]] *)
Definition obj_delete (k : string) (o : obj V) : obj V :=
  filter (fun kv => negb (String.eqb (fst kv) k)) o.

(** [o[k] = v]: update in place, or append a new property. *)
Fixpoint obj_set (k : string) (v : V) (o : obj V) : obj V :=
  match o with
  | [] => [(k, v)]
  | (k', v') :: o' =>
      if String.eqb k' k then (k', v) :: o' else (k', v') :: obj_set k v o'
  end.

(** [Object.keys(o)] *)
Definition obj_keys (o : obj V) : list string := map fst o.

End Obj.

(** ** JSON values, as produced by [JSON.parse]

    Numbers are abstracted to integers: the program only ever tests them
    for truthiness. *)
#[warning="-register-all"]
Inductive json : Type :=
| JNull
| JBool (b : bool)
| JNum (z : Z)
| JStr (s : string)
| JArr (l : list json)
| JObj (props : list (string * json)).

(** [if (v)] *)
Definition truthy (v : json) : bool :=
  match v with
  | JNull => false
  | JBool b => b
  | JNum z => negb (Z.eqb z 0)
  | JStr s => negb (String.eqb s "")
  | JArr _ => true
  | JObj _ => true
  end.

(** Own property [k] of a parsed value once it has been spread into an
    object literal, for [k] that is not an array index: only objects
    contribute such properties. *)
Definition own_prop (k : string) (v : json) : option json :=
  match v with
  | JObj props => obj_get k props
  | _ => None
  end.

(** No key occurs twice. *)
Fixpoint distinct (keys : list string) : bool :=
  match keys with
  | [] => true
  | k :: r => negb (existsb (String.eqb k) r) && distinct r
  end.

(** A parsed object has distinct keys ([JSON.parse] keeps the last of
    duplicated ones). *)
Definition well_formed (v : json) : bool :=
  match v with
  | JObj props => distinct (obj_keys props)
  | _ => true
  end.

End Js.

(* ===================================================================== *)
(** * [path.join] (POSIX) *)
(* ===================================================================== *)

Module Path.

Definition slash : ascii := "/"%char.

(** One step of Node's [normalizeString]: the accumulator holds the
    segments kept so far, last one first. *)
Definition norm_step (allowAboveRoot : bool) (acc : list string) (seg : string)
  : list string :=
  if String.eqb seg "" || String.eqb seg "." then acc
  else if String.eqb seg ".." then
    match acc with
    | top :: acc' =>
        if String.eqb top ".." then
          (if allowAboveRoot then seg :: acc else acc)
        else acc'
    | [] => if allowAboveRoot then [seg] else []
    end
  else seg :: acc.

Definition normalizeString (allowAboveRoot : bool) (segs : list string)
  : list string :=
  rev (fold_left (norm_step allowAboveRoot) segs []).

(** [path.normalize(p)] *)
Definition normalize (p : string) : string :=
  if String.eqb p "" then "." else
  let isAbsolute := Js.startsWith p "/" in
  let trailingSeparator := Js.endsWithChar p slash in
  let body :=
    String.concat "/" (normalizeString (negb isAbsolute) (Js.split slash p)) in
  if String.eqb body "" then
    (if isAbsolute then "/" else if trailingSeparator then "./" else ".")
  else
    let body := if trailingSeparator then body ++ "/" else body in
    if isAbsolute then "/" ++ body else body.

(** [path.join(...parts)] on strings *)
Definition join (parts : list string) : string :=
  match filter (fun s => negb (String.eqb s "")) parts with
  | [] => "."
  | nonempty => normalize (String.concat "/" nonempty)
  end.

(** ** Canonical absolute paths

    What [fs.realpathSync] returns: ["/"], or ["/s1/s2/.../sn"] where no
    segment is empty, ["."] or [".."], and no segment contains a slash. *)
Definition valid_segment (s : string) : bool :=
  negb (String.eqb s "") && negb (String.eqb s ".")
  && negb (String.eqb s "..") && negb (Js.has_char slash s).

Fixpoint render_segs (segs : list string) : string :=
  match segs with
  | [] => ""
  | s :: r => "/" ++ s ++ render_segs r
  end.

Definition render (segs : list string) : string :=
  match segs with
  | [] => "/"
  | _ => render_segs segs
  end.

Definition no_slash (s : string) : bool := negb (Js.has_char slash s).

Definition canonical (segs : list string) : bool := forallb valid_segment segs.

(** What follows a segment in a rendered path: nothing, or a slash. *)
Definition boundary (x : string) : Prop :=
  x = "" \/ exists x', x = String slash x'.

End Path.

(* ===================================================================== *)
(** * The host: everything outside the program *)
(* ===================================================================== *)

(** A thrown [Error]: its [code] (when it is a system error) and its
    [message]. *)
Record error : Type := mkError { err_code : option string; err_message : string }.

(** Result of a call that may throw. *)
Inductive res (A : Type) : Type :=
| Ok (a : A)
| Err (e : error).
Arguments Ok {A} a.
Arguments Err {A} e.

(** Sequencing of calls that may throw. *)
Notation "'let?' x ':=' e 'in' k" :=
  (match e with Ok x => k | Err err => Err err end)
  (at level 10, x name, e at level 100, k at level 200, only parsing).

(** What the program reads from an [fs.Stats]. *)
Record stats : Type := mkStats { st_isDirectory : bool; st_mtimeMs : Z }.

(** The process environment, the file system as probed by the program
    (outside the session directory, which is modelled as state below), the
    external commands, and the runtime functions that are not modelled. *)
Record Host : Type := mkHost {
  process_env : Js.obj string;
  process_platform : string;
  process_cwd : string;
  process_getuid : nat;
  fs_accessSync : string -> option error;
  fs_statSync : string -> res stats;
  fs_realpathSync : string -> res string;
  fs_readFileSync : string -> res string;
  fs_readdirSync : string -> res (list string);
  fs_mkdirSync : string -> option error;
  exec_git_toplevel : string -> res string;
  spawn_sync : string -> list (option string) -> Js.obj string -> option error;
  Math_random16 : nat -> nat;
  JSON_parse : string -> res Js.json;
  replace_nix_includes : string -> string;
  replace_identity_agent : string -> string -> string
}.

(** [process.env.NAME] *)
Definition getenv (h : Host) (name : string) : option string :=
  Js.obj_get name (process_env h).

(** The host [h] with another process environment. *)
Definition with_env (h : Host) (penv : Js.obj string) : Host :=
  mkHost penv (process_platform h) (process_cwd h) (process_getuid h)
    (fs_accessSync h) (fs_statSync h) (fs_realpathSync h) (fs_readFileSync h)
    (fs_readdirSync h) (fs_mkdirSync h) (exec_git_toplevel h) (spawn_sync h)
    (Math_random16 h) (JSON_parse h) (replace_nix_includes h)
    (replace_identity_agent h).

(* ===================================================================== *)
(** * The session directory *)
(* ===================================================================== *)

Module SessFs.

(** A file, or a directory with its entries in [readdir] order.  A
    directory that is not [writable] refuses to have entries added or
    removed. *)
#[warning="-register-all"]
Inductive node : Type :=
| File (content : string)
| Dir (writable : bool) (entries : list (string * node)).

(** The session directory (absent, or a tree) and whether its parent, the
    temp root, lets entries be created and removed. *)
Record t : Type := mk { tmp_writable : bool; session : option node }.

(** Recursive removal of one node whose parent is writable or not: [None]
    when the node is gone, [Some residual] when the removal threw and left
    [residual] behind.  Entries are removed in order, up to the first one
    that cannot be; the runtime may give up earlier and leave more of a tree
    that cannot be removed than [residual] shows. *)
Fixpoint rm_node (parent_writable : bool) (n : node) : option node :=
  match n with
  | File c => if parent_writable then None else Some (File c)
  | Dir w es =>
      let fix rm_entries (es : list (string * node)) : list (string * node) :=
        match es with
        | [] => []
        | (k, c) :: es' =>
            match rm_node w c with
            | None => rm_entries es'
            | Some c' => (k, c') :: es'
            end
        end in
      match rm_entries es with
      | [] => if parent_writable then None else Some (Dir w [])
      | remaining => Some (Dir w remaining)
      end
  end.

Definition rm_entries (w : bool) : list (string * node) -> list (string * node) :=
  fix rm_entries (es : list (string * node)) : list (string * node) :=
    match es with
    | [] => []
    | (k, c) :: es' =>
        match rm_node w c with
        | None => rm_entries es'
        | Some c' => (k, c') :: es'
        end
    end.

Definition EACCES : error :=
  mkError (Some "EACCES") "EACCES: permission denied".
Definition EEXIST : error :=
  mkError (Some "EEXIST") "EEXIST: file already exists".
Definition ENOENT : error :=
  mkError (Some "ENOENT") "ENOENT: no such file or directory".
Definition ENOTDIR : error :=
  mkError (Some "ENOTDIR") "ENOTDIR: not a directory".
Definition EISDIR : error :=
  mkError (Some "EISDIR") "EISDIR: illegal operation on a directory".

(** [fs.rmSync(dir, { recursive: true, force: true })] on the session
    directory: a missing directory is not an error. *)
Definition rmSync (s : t) : t * option error :=
  match session s with
  | None => (s, None)
  | Some n =>
      match rm_node (tmp_writable s) n with
      | None => (mk (tmp_writable s) None, None)
      | Some r => (mk (tmp_writable s) (Some r), Some EACCES)
      end
  end.

(** [fs.mkdirSync(dir, { recursive: true })] on the session directory. *)
Definition mkdirSync_root (s : t) : t * option error :=
  match session s with
  | Some (Dir _ _) => (s, None)
  | Some (File _) => (s, Some EEXIST)
  | None =>
      if tmp_writable s then (mk true (Some (Dir true [])), None)
      else (s, Some EACCES)
  end.

(** Put [new] at the relative path [rel] below [n].  [exclusive] is
    [mkdirSync] without [recursive] (an existing entry is an error),
    otherwise [writeFileSync] and [copyFileSync] (an existing file is
    replaced, an existing directory is an error). *)
Fixpoint put (exclusive : bool) (rel : list string) (new : node) (n : node)
  : res node :=
  match rel, n with
  | [], _ => Err EEXIST
  | _, File _ => Err ENOTDIR
  | [name], Dir w es =>
      match Js.obj_get name es with
      | Some (Dir _ _) => Err (if exclusive then EEXIST else EISDIR)
      | Some (File _) =>
          if exclusive then Err EEXIST
          else Ok (Dir w (Js.obj_set name new es))
      | None =>
          if w then Ok (Dir w (Js.obj_set name new es)) else Err EACCES
      end
  | name :: rel', Dir w es =>
      match Js.obj_get name es with
      | Some child =>
          match put exclusive rel' new child with
          | Ok child' => Ok (Dir w (Js.obj_set name child' es))
          | Err e => Err e
          end
      | None => Err ENOENT
      end
  end.

Definition put_session (exclusive : bool) (rel : list string) (new : node)
  (s : t) : t * option error :=
  match session s with
  | None => (s, Some ENOENT)
  | Some n =>
      match put exclusive rel new n with
      | Ok n' => (mk (tmp_writable s) (Some n'), None)
      | Err e => (s, Some e)
      end
  end.

(** [fs.mkdirSync(p, { recursive: true })] one level below the session
    directory: an existing directory is accepted. *)
Definition mkdirSync_p (name : string) (s : t) : t * option error :=
  match session s with
  | Some (Dir _ es) =>
      match Js.obj_get name es with
      | Some (Dir _ _) => (s, None)
      | _ => put_session true [name] (Dir true []) s
      end
  | _ => put_session true [name] (Dir true []) s
  end.

(** Every directory of the tree is writable. *)
Fixpoint all_writable (n : node) : bool :=
  match n with
  | File _ => true
  | Dir w es =>
      w && (fix go (es : list (string * node)) : bool :=
              match es with
              | [] => true
              | (_, c) :: es' => all_writable c && go es'
              end) es
  end.

Definition entries_writable : list (string * node) -> bool :=
  fix go (es : list (string * node)) : bool :=
    match es with
    | [] => true
    | (_, c) :: es' => all_writable c && go es'
    end.

(** Nothing stands in the way of removing the session directory. *)
Definition removable (s : t) : bool :=
  match session s with
  | None => true
  | Some n => tmp_writable s && all_writable n
  end.

End SessFs.

Section NodeInduction.
Variable P : SessFs.node -> Prop.
Hypothesis P_File : forall content, P (SessFs.File content).
Hypothesis P_Dir :
  forall writable entries,
    Forall (fun kn => P (snd kn)) entries -> P (SessFs.Dir writable entries).

(** Induction on a tree, with the hypothesis for every entry. *)
Fixpoint node_induction (n : SessFs.node) : P n :=
  match n with
  | SessFs.File content => P_File content
  | SessFs.Dir writable entries =>
      @P_Dir writable entries
        ((fix all (es : list (string * SessFs.node))
            : Forall (fun kn => P (snd kn)) es :=
            match es with
            | [] => Forall_nil _
            | kn :: es' => Forall_cons kn (node_induction (snd kn)) (all es')
            end) entries)
  end.

End NodeInduction.

(* ===================================================================== *)
(** * Effects: trace, session state, exceptions and [process.exit] *)
(* ===================================================================== *)

(** The listeners the program registers, defunctionalised. *)
Inductive handler : Type :=
| HCleanup (claudeHome : string)
    (** [cleanup] *)
| HCleanupExit (claudeHome : string) (code : Z)
    (** [() => { cleanup(); process.exit(code); }] *)
| HExitChildCode.
    (** [(code) => process.exit(code || 0)] *)

Inductive event : Type :=
| EvLog (line : string)                  (** [console.log] *)
| EvError (line : string)                (** [console.error] *)
| EvOn (name : string) (l : handler)     (** [process.on], [child.on] *)
| EvMkdir (path : string)                (** [fs.mkdirSync] outside the session *)
| EvRm (path : string)                   (** [fs.rmSync] of the session directory *)
| EvExec (command : string)              (** [execSync] *)
| EvSpawn (cmd : string) (args : list (option string)) (env : Js.obj string).
                                         (** [child_process.spawn] *)

Record state : Type := mkState { fs : SessFs.t; trace : list event }.

Inductive outcome (A : Type) : Type :=
| Val (a : A)            (** normal completion *)
| Throw (e : error)      (** an exception propagates *)
| Exit (code : Z).       (** [process.exit(code)] was called *)
Arguments Val {A} a.
Arguments Throw {A} e.
Arguments Exit {A} code.

Definition M (A : Type) : Type := state -> state * outcome A.

Definition ret {A : Type} (a : A) : M A := fun st => (st, Val a).

Definition bind {A B : Type} (m : M A) (k : A -> M B) : M B :=
  fun st =>
    match m st with
    | (st', Val a) => k a st'
    | (st', Throw e) => (st', Throw e)
    | (st', Exit c) => (st', Exit c)
    end.

Notation "x <- m ;; k" := (bind m (fun x => k))
  (at level 61, m at next level, right associativity).
Notation "m ;;; k" := (bind m (fun _ => k))
  (at level 61, right associativity).

Definition throw {A : Type} (e : error) : M A := fun st => (st, Throw e).

(** [process.exit(code)]; the ['exit'] listeners are run by [finish]. *)
Definition process_exit {A : Type} (code : Z) : M A := fun st => (st, Exit code).

(** [try { m } catch (e) { k e }] *)
Definition try_catch {A : Type} (m : M A) (k : error -> M A) : M A :=
  fun st =>
    match m st with
    | (st', Throw e) => k e st'
    | r => r
    end.

Definition emit (e : event) : M unit :=
  fun st => (mkState (fs st) (trace st ++ [e])%list, Val tt).

Definition lift {A : Type} (r : res A) : M A :=
  match r with
  | Ok a => ret a
  | Err e => throw e
  end.

Definition check (r : option error) : M unit :=
  match r with
  | None => ret tt
  | Some e => throw e
  end.

(** An operation on the session directory. *)
Definition on_session (op : SessFs.t -> SessFs.t * option error) : M unit :=
  fun st =>
    let (s', r) := op (fs st) in
    match r with
    | None => (mkState s' (trace st), Val tt)
    | Some e => (mkState s' (trace st), Throw e)
    end.

Fixpoint for_each {A : Type} (l : list A) (body : A -> M unit) : M unit :=
  match l with
  | [] => ret tt
  | x :: l' => body x ;;; for_each l' body
  end.

Definition console_log (s : string) : M unit := emit (EvLog s).
Definition console_error (s : string) : M unit := emit (EvError s).
Definition process_on (name : string) (l : handler) : M unit := emit (EvOn name l).

(* ===================================================================== *)
(** * Code shared by both copies *)
(* ===================================================================== *)

Definition nl : string := String (ascii_of_nat 10) EmptyString.
Definition dq : string := String (ascii_of_nat 34) EmptyString.

(** The [TypeError] of [path.join] on a non-string. *)
Definition ERR_INVALID_ARG_TYPE : error :=
  mkError (Some "ERR_INVALID_ARG_TYPE")
    ("The " ++ dq ++ "path" ++ dq ++ " argument must be of type string. Received undefined").

Fixpoint all_defined (l : list (option string)) : option (list string) :=
  match l with
  | [] => Some []
  | Some s :: l' =>
      match all_defined l' with
      | Some r => Some (s :: r)
      | None => None
      end
  | None :: _ => None
  end.

(** [path.join(...parts)] where a part may be [undefined]. *)
Definition path_join (parts : list (option string)) : res string :=
  match all_defined parts with
  | Some l => Ok (Path.join l)
  | None => Err ERR_INVALID_ARG_TYPE
  end.

Section Utility.
Variable h : Host.

(** [getRepoRoot(projectDir)] *)
Definition getRepoRoot (projectDir : string) : M string :=
  emit (EvExec "git rev-parse --show-toplevel 2>/dev/null") ;;;
  match exec_git_toplevel h projectDir with
  | Ok out => ret (Js.trim out)
  | Err _ => ret projectDir
  end.

(** [randomHex(length)]: [draw] counts the calls to [Math.random] so far. *)
Fixpoint randomHex_from (draw : nat) (length : nat) : string :=
  match length with
  | O => ""
  | S n =>
      match String.get (Math_random16 h draw mod 16) "0123456789abcdef" with
      | Some c => String c (randomHex_from (S draw) n)
      | None => randomHex_from (S draw) n
      end
  end.

Definition randomHex (length : nat) : string := randomHex_from 0 length.

(** [realpath(p)] *)
Definition realpath (p : string) : M string := lift (fs_realpathSync h p).

(** [pathExists(p)] *)
Definition pathExists (p : string) : bool :=
  match fs_accessSync h p with
  | None => true
  | Some _ => false
  end.

(** [isDirectory(p)] *)
Definition isDirectory (p : string) : bool :=
  match fs_statSync h p with
  | Ok s => st_isDirectory s
  | Err _ => false
  end.

(** [getTmpDir()] *)
Definition getTmpDir : string :=
  Js.or_else
    (Js.or_opt (Js.or_opt (getenv h "TMPDIR") (getenv h "TEMP")) (getenv h "TMP"))
    "/tmp".

(** [getConfigPath()] *)
Definition getConfigPath : res string :=
  let xdgConfig :=
    match getenv h "XDG_CONFIG_HOME" with
    | Some x =>
        if String.eqb x "" then path_join [getenv h "HOME"; Some ".config"]
        else Ok x
    | None => path_join [getenv h "HOME"; Some ".config"]
    end in
  match xdgConfig with
  | Ok x => path_join [Some x; Some "claudebox"; Some "config.json"]
  | Err e => Err e
  end.

(** The own enumerable properties that [{ ...v }] copies. *)
Fixpoint index_props_from {A : Type} (i : nat) (l : list A) : list (string * A) :=
  match l with
  | [] => []
  | x :: l' => (Js.string_of_nat i, x) :: index_props_from (S i) l'
  end.

Fixpoint chars_of (s : string) : list Js.json :=
  match s with
  | EmptyString => []
  | String c s' => Js.JStr (String c EmptyString) :: chars_of s'
  end.

Definition spread_props (v : Js.json) : Js.obj Js.json :=
  match v with
  | Js.JObj props => props
  | Js.JArr l => index_props_from 0 l
  | Js.JStr s => index_props_from 0 (chars_of s)
  | _ => []
  end.

(** [{ ...base, ...more }]; the properties are kept in insertion order
    (JavaScript enumerates integer-like keys first: nothing below reads the
    order, every lookup is by key). *)
Definition spread (base more : Js.obj Js.json) : Js.obj Js.json :=
  fold_left (fun acc kv => Js.obj_set (fst kv) (snd kv) acc) more base.

(** [loadConfig()], for the [CONFIG_DEFAULTS] of either copy *)
Definition loadConfig (CONFIG_DEFAULTS : Js.obj Js.json) : M (Js.obj Js.json) :=
  configPath <- lift getConfigPath ;;
  try_catch
    (content <- lift (fs_readFileSync h configPath) ;;
     userConfig <- lift (JSON_parse h content) ;;
     ret (spread (spread [] CONFIG_DEFAULTS) (spread_props userConfig)))
    (fun err =>
       (if match err_code err with
           | Some c => negb (String.eqb c "ENOENT")
           | None => true
           end
        then console_error
               ("Warning: Failed to load config from " ++ configPath ++ ": "
                ++ err_message err)
        else ret tt) ;;;
       ret (spread [] CONFIG_DEFAULTS)).

(** [cleanup], the closure of [main] over [claudeHome]: the removal of the
    session directory with its errors swallowed. *)
Definition cleanup (claudeHome : string) : M unit :=
  try_catch
    (emit (EvRm claudeHome) ;;; on_session SessFs.rmSync)
    (fun _ => ret tt).

(** What the configuration file holds, when it can be read and parsed. *)
Definition config_file : option Js.json :=
  match getConfigPath with
  | Ok configPath =>
      match fs_readFileSync h configPath with
      | Ok content =>
          match JSON_parse h content with
          | Ok userConfig => Some userConfig
          | Err _ => None
          end
      | Err _ => None
      end
  | Err _ => None
  end.

(** The value the configuration file provides for [key], if any. *)
Definition file_value (key : string) : option Js.json :=
  match config_file with
  | Some userConfig => Js.own_prop key userConfig
  | None => None
  end.

(** [JSON.parse] returns objects whose keys are distinct. *)
Definition config_file_well_formed : bool :=
  match config_file with
  | Some userConfig => Js.well_formed userConfig
  | None => true
  end.

(** [cleanup] called [n] times in a row. *)
Fixpoint cleanups (claudeHome : string) (n : nat) (st : state) : state :=
  match n with
  | O => st
  | S n' => cleanups claudeHome n' (fst (cleanup claudeHome st))
  end.

End Utility.

(** The result of [wrap]. *)
Record WrapResult : Type := mkWrap {
  cmd : string;
  args : list (option string);
  env : Js.obj string
}.

(** String literals pushed onto an argument array. *)
Definition strs (l : list string) : list (option string) := map Some l.

(* ===================================================================== *)
(** * The Node process around [main] *)
(* ===================================================================== *)

Inductive signal : Type := SIGINT | SIGTERM.

Definition signal_name (s : signal) : string :=
  match s with SIGINT => "SIGINT" | SIGTERM => "SIGTERM" end.

Definition signal_number (s : signal) : Z :=
  match s with SIGINT => 2 | SIGTERM => 15 end.

(** How the process stands once the synchronous code has run. *)
Inductive status : Type :=
| Exited (code : Z)       (** the process is gone, with this exit status *)
| Waiting                 (** the event loop waits for the child or a signal *)
| Killed (s : signal).    (** default disposition of an unhandled signal *)

(** What the event loop can deliver while the process waits. *)
Inductive loop_event : Type :=
| Signal (s : signal)
| ChildClose (code : option Z)   (** ['close'], [null] code when signalled *)
| ChildError (e : error).        (** ['error'], e.g. the command is missing *)

(** The events kept by a test, in order. *)
Definition kept (keep : event -> bool) (tr : list event) : list event :=
  filter keep tr.

Definition is_on (e : event) : bool :=
  match e with EvOn _ _ => true | _ => false end.

Definition is_spawn (e : event) : bool :=
  match e with EvSpawn _ _ _ => true | _ => false end.

(** A computation that records no event kept by [keep], however it ends,
    and that calls [process.exit] with codes in [codes] only. *)
Definition respects {A : Type} (keep : event -> bool) (codes : Z -> Prop)
  (m : M A) : Prop :=
  forall st st' o,
    m st = (st', o) ->
    kept keep (trace st') = kept keep (trace st)
    /\ match o with
       | Exit c => codes c
       | _ => True
       end.

(** A computation that, when it completes normally, has recorded the
    events [new] among those kept by [keep]. *)
Definition adds {A : Type} (keep : event -> bool) (new : list event)
  (m : M A) : Prop :=
  forall st st' a,
    m st = (st', Val a) ->
    kept keep (trace st') = (kept keep (trace st) ++ new)%list.

(** A computation whose result, when it completes normally, satisfies
    [P]. *)
Definition returns {A : Type} (P : A -> Prop) (m : M A) : Prop :=
  forall st st' a, m st = (st', Val a) -> P a.

(** Any exit code will do. *)
Definition any_code (c : Z) : Prop := True.

(** The exit codes of a setup that ends early: 0 (help) or 1 (error). *)
Definition zero_or_one (c : Z) : Prop := c = 0%Z \/ c = 1%Z.

(** Listeners registered for [name], in registration order. *)
Fixpoint listeners (name : string) (tr : list event) : list handler :=
  match tr with
  | [] => []
  | EvOn n l :: tr' =>
      if String.eqb n name then l :: listeners name tr' else listeners name tr'
  | _ :: tr' => listeners name tr'
  end.

(** One listener called with the child's exit code (ignored by the
    listeners that take no argument). *)
Definition run_handler (l : handler) (code : option Z) : M unit :=
  match l with
  | HCleanup claudeHome => cleanup claudeHome
  | HCleanupExit claudeHome c => cleanup claudeHome ;;; process_exit c
  | HExitChildCode =>
      process_exit (match code with
                    | Some c => if Z.eqb c 0 then 0%Z else c
                    | None => 0%Z
                    end)
  end.

(** The ['exit'] listeners run, then the process is gone.  (They only
    clean up: what they return or throw no longer matters.) *)
Definition finish (code : Z) (st : state) : state * status :=
  let st' :=
    fold_left (fun s l => fst (run_handler l None s))
              (listeners "exit" (trace st)) st in
  (st', Exited code).

(** Synchronous code [m] runs to completion: [process.exit] and uncaught
    exceptions (exit status 1) end the process, otherwise the event loop
    takes over. *)
Definition run (m : M unit) (st : state) : state * status :=
  match m st with
  | (st', Val _) => (st', Waiting)
  | (st', Exit c) => finish c st'
  | (st', Throw e) =>
      finish 1 (mkState (fs st') (trace st' ++ [EvError (err_message e)])%list)
  end.

(** The event loop delivers [ev] to a waiting process. *)
Definition deliver (ev : loop_event) (st : state) : state * status :=
  match ev with
  | Signal s =>
      match listeners (signal_name s) (trace st) with
      | [] => (st, Killed s)
      | ls => run (for_each ls (fun l => run_handler l None)) st
      end
  | ChildClose code =>
      run (for_each (listeners "close" (trace st))
                    (fun l => run_handler l code)) st
  | ChildError e =>
      match listeners "error" (trace st) with
      | [] => run (throw e) st
      | ls => run (for_each ls (fun l => run_handler l None)) st
      end
  end.

(** [{ cmd, args, env }] handed to [child_process.spawn]; a synchronous
    throw creates no child. *)
Definition spawn_child (h : Host) (r : WrapResult) : M unit :=
  check (spawn_sync h (cmd r) (args r) (env r)) ;;;
  emit (EvSpawn (cmd r) (args r) (env r)).

(* ===================================================================== *)
(** * Smart filesystem sharing ([main], both copies) *)
(* ===================================================================== *)

Module Sharing.

(** The [shareTree] that [main] computes from [realpath(repoRoot)] and
    [realpath(home)]. *)
Definition shareTree (realRepoRoot realHome : string) : string :=
  if Js.startsWith realRepoRoot (realHome ++ "/") then
    let relPath := Js.slice (String.length realHome + 1) realRepoRoot in
    let topDir := Js.first (Js.split Path.slash relPath) in
    Path.join [realHome; topDir]
  else realRepoRoot.

End Sharing.

(* ===================================================================== *)
(** * macOS: [SeatbeltSandbox.wrap] (both copies) *)
(* ===================================================================== *)

Module Seatbelt.

Definition PROJECT_DIR_clause : string :=
  "(subpath (param " ++ dq ++ "PROJECT_DIR" ++ dq ++ "))".
Definition TMPDIR_clause : string :=
  "(subpath (param " ++ dq ++ "TMPDIR" ++ dq ++ "))".
Definition SLASH_TMP_clause : string :=
  "(subpath (param " ++ dq ++ "SLASH_TMP" ++ dq ++ "))".

(** [writablePaths] *)
Definition writablePaths (canonicalTmpdir canonicalSlashTmp : string)
  : list string :=
  ([PROJECT_DIR_clause; TMPDIR_clause]
   ++ (if negb (String.eqb canonicalTmpdir canonicalSlashTmp)
       then [SLASH_TMP_clause] else []))%list.

(** [dynamicPolicy] *)
Definition dynamicPolicy (writable : list string) : string :=
  nl ++ "; Allow read-only file operations" ++ nl
  ++ "(allow file-read*)" ++ nl
  ++ nl
  ++ "; Allow writes to project and temp directories" ++ nl
  ++ "(allow file-write*" ++ nl
  ++ "  " ++ String.concat (nl ++ "  ") writable ++ ")" ++ nl
  ++ nl
  ++ "; Network access for Claude API" ++ nl
  ++ "(allow network-outbound)" ++ nl
  ++ "(allow network-inbound)" ++ nl
  ++ "(allow system-socket)" ++ nl.

Definition profile_not_found : error :=
  mkError None
    "Seatbelt profile not found. Set CLAUDEBOX_SEATBELT_PROFILE environment variable.".

(** [SeatbeltSandbox.wrap(script)]; only [repoRoot] is read from the
    configuration, and nothing is written: the result is a value or a
    thrown error.  ([realpath] is [fs.realpathSync].) *)
Definition wrap (h : Host) (repoRoot : string) (script : string)
  : res WrapResult :=
  let seatbeltProfile := getenv h "CLAUDEBOX_SEATBELT_PROFILE" in
  match seatbeltProfile with
  | None => Err profile_not_found
  | Some profile =>
      if String.eqb profile "" || negb (pathExists h profile)
      then Err profile_not_found
      else
        let? basePolicy := fs_readFileSync h profile in
        let? canonicalRepoRoot := fs_realpathSync h repoRoot in
        let tmpdir := getTmpDir h in
        let? canonicalTmpdir := fs_realpathSync h tmpdir in
        let? canonicalSlashTmp := fs_realpathSync h "/tmp" in
        let writable := writablePaths canonicalTmpdir canonicalSlashTmp in
        let fullPolicy := basePolicy ++ nl ++ dynamicPolicy writable in
        let args :=
          strs ["-p"; fullPolicy;
                "-DPROJECT_DIR=" ++ canonicalRepoRoot;
                "-DTMPDIR=" ++ canonicalTmpdir] in
        let args :=
          if negb (String.eqb canonicalTmpdir canonicalSlashTmp)
          then (args ++ strs [("-DSLASH_TMP=" ++ canonicalSlashTmp)%string])%list
          else args in
        let args := (args ++ strs ["--"; "bash"; "-c"; script])%list in
        Ok (mkWrap "/usr/bin/sandbox-exec" args (process_env h))
  end.

(** ** How [sandbox-exec] reads its arguments

    [sandbox-exec [-p profile-string] [-D key=value ...] command ...]: the
    parameter definitions are the [-D] options before the command. *)
Fixpoint split_at_eq (s : string) : option (string * string) :=
  match s with
  | EmptyString => None
  | String c s' =>
      if Ascii.eqb c "="%char then Some (EmptyString, s')
      else match split_at_eq s' with
           | Some (k, v) => Some (String c k, v)
           | None => None
           end
  end.

Fixpoint params (args : list (option string)) : Js.obj string :=
  match args with
  | Some "-p" :: _ :: rest => params rest
  | Some a :: rest =>
      if Js.startsWith a "-D" then
        match split_at_eq (Js.slice 2 a) with
        | Some kv => kv :: params rest
        | None => params rest
        end
      else []
  | _ => []
  end.

(** The profile string given with [-p]. *)
Definition profile_string (args : list (option string)) : option string :=
  match args with
  | Some "-p" :: Some p :: _ => Some p
  | _ => None
  end.

End Seatbelt.

(** ** How [sandbox-exec] reads a profile

    A profile is a sequence of S-expressions with [;] comments; a rule
    [(allow file-write* filter ...)] makes the paths of its filters
    writable. *)
Module Sbpl.

Definition sexp : Type := CeresS.sexp_ CeresS.atom.

(** The rules of a profile text, [None] when it does not parse. *)
Definition rules (policy : string) : option (list sexp) :=
  match CeresParser.parse_sexps policy with
  | inr l => Some l
  | inl _ => None
  end.

Definition is_word (w : string) (e : sexp) : bool :=
  match e with
  | CeresS.Atom_ (CeresS.Raw a) => String.eqb a w
  | _ => false
  end.

(** The filters of the [(allow file-write* ...)] rules: the writable
    clauses of the profile. *)
Definition writable_clauses (l : list sexp) : list sexp :=
  flat_map
    (fun rule =>
       match rule with
       | CeresS.List (a :: op :: filters) =>
           if is_word "allow" a && is_word "file-write*" op
           then filters else []
       | _ => []
       end)
    l.

(** The filter [(subpath (param "NAME"))]. *)
Definition subpath_param (name : string) : sexp :=
  CeresS.List
    [CeresS.Atom_ (CeresS.Raw "subpath");
     CeresS.List [CeresS.Atom_ (CeresS.Raw "param");
                  CeresS.Atom_ (CeresS.Str name)]].

End Sbpl.

(* ===================================================================== *)
(** * How [bwrap] reads its arguments *)
(* ===================================================================== *)

Module Bwrap.

(** The options the program emits, with their operands; an operand may be
    [undefined] when the program pushed an unset environment variable. *)
Inductive entry : Type :=
| Dev (dest : option string)
| Proc (dest : option string)
| RoBindTry (src dest : option string)
| RoBind (src dest : option string)
| Bind (src dest : option string)
| Tmpfs (dest : option string)
| UnshareAll
| ShareNet
| Setenv (var value : option string).

(** Options are read left to right, each taking its operands, up to the
    first word that is not an option: the command. *)
Fixpoint entries (args : list (option string)) : list entry :=
  match args with
  | Some "--dev" :: d :: rest => Dev d :: entries rest
  | Some "--proc" :: d :: rest => Proc d :: entries rest
  | Some "--ro-bind-try" :: s :: d :: rest => RoBindTry s d :: entries rest
  | Some "--ro-bind" :: s :: d :: rest => RoBind s d :: entries rest
  | Some "--bind" :: s :: d :: rest => Bind s d :: entries rest
  | Some "--tmpfs" :: d :: rest => Tmpfs d :: entries rest
  | Some "--unshare-all" :: rest => UnshareAll :: entries rest
  | Some "--share-net" :: rest => ShareNet :: entries rest
  | Some "--setenv" :: k :: v :: rest => Setenv k v :: entries rest
  | _ => []
  end.

(** The variable of a [--setenv] entry. *)
Definition setenv_var (e : entry) : option string :=
  match e with
  | Setenv k _ => k
  | _ => None
  end.

(** Variables set by [--setenv] entries. *)
Definition setenv_vars (args : list (option string)) : list (option string) :=
  map setenv_var (filter (fun e => match e with Setenv _ _ => true | _ => false end)
                         (entries args)).

End Bwrap.

(** JavaScript values held by option fields: [undefined] or a JSON value. *)
Definition value : Type := option Js.json.

Definition truthy_value (v : value) : bool :=
  match v with
  | Some j => Js.truthy j
  | None => false
  end.

(** The [TypeError] of [f(undefined)] where a string is required. *)
Definition not_a_string : error :=
  mkError (Some "ERR_INVALID_ARG_TYPE") "argument must be of type string".

(** The argument prefix common to both copies of
    [BubblewrapSandbox.wrap]: basic filesystem, selective [/run] mounts, Nix
    store and daemon socket. *)
Definition bwrap_base_args : list (option string) :=
  strs [
    "--dev"; "/dev";
    "--proc"; "/proc";
    "--ro-bind-try"; "/usr"; "/usr";
    "--ro-bind-try"; "/bin"; "/bin";
    "--ro-bind-try"; "/lib"; "/lib";
    "--ro-bind-try"; "/lib64"; "/lib64";
    "--ro-bind"; "/etc"; "/etc";
    "--ro-bind-try"; "/run/systemd/resolve"; "/run/systemd/resolve";
    "--ro-bind-try"; "/run/current-system"; "/run/current-system";
    "--ro-bind-try"; "/run/booted-system"; "/run/booted-system";
    "--ro-bind-try"; "/run/opengl-driver"; "/run/opengl-driver";
    "--ro-bind-try"; "/run/opengl-driver-32"; "/run/opengl-driver-32";
    "--ro-bind-try"; "/run/nixos"; "/run/nixos";
    "--ro-bind-try"; "/run/wrappers"; "/run/wrappers";
    "--ro-bind"; "/nix"; "/nix";
    "--bind"; "/nix/var/nix/daemon-socket"; "/nix/var/nix/daemon-socket"
  ].

(** The ["--setenv"] block common to both copies. *)
Definition bwrap_setenv_args (home user pathEnv : option string)
  : list (option string) :=
  (strs ["--unshare-all"; "--share-net"; "--setenv"; "HOME"]
   ++ [home]
   ++ strs ["--setenv"; "USER"]
   ++ [user]
   ++ strs ["--setenv"; "PATH"]
   ++ [pathEnv]
   ++ strs ["--setenv"; "TMPDIR"; "/tmp";
            "--setenv"; "TEMPDIR"; "/tmp";
            "--setenv"; "TEMP"; "/tmp";
            "--setenv"; "TMP"; "/tmp"])%list.

(** [process.env.XDG_RUNTIME_DIR || `/run/user/${process.getuid()}`] *)
Definition xdgRuntimeDir_of (h : Host) : string :=
  Js.or_else (getenv h "XDG_RUNTIME_DIR")
             ("/run/user/" ++ Js.string_of_nat (process_getuid h)).

(* ===================================================================== *)
(** * [src/src/claudebox.js] *)
(* ===================================================================== *)

Module Claudebox.

(** The capability fields of this copy. *)
Inductive field : Type := AllowSshAgent | AllowGpgAgent | AllowXdgRuntime.

Definition field_eqb (f g : field) : bool :=
  match f, g with
  | AllowSshAgent, AllowSshAgent => true
  | AllowGpgAgent, AllowGpgAgent => true
  | AllowXdgRuntime, AllowXdgRuntime => true
  | _, _ => false
  end.

(** Property name of a field. *)
Definition field_key (f : field) : string :=
  match f with
  | AllowSshAgent => "allowSshAgent"
  | AllowGpgAgent => "allowGpgAgent"
  | AllowXdgRuntime => "allowXdgRuntime"
  end.

(** Command-line option of a field. *)
Definition field_flag (f : field) : string :=
  match f with
  | AllowSshAgent => "--allow-ssh-agent"
  | AllowGpgAgent => "--allow-gpg-agent"
  | AllowXdgRuntime => "--allow-xdg-runtime"
  end.

Definition CONFIG_DEFAULTS : Js.obj Js.json :=
  [("allowSshAgent", Js.JBool false);
   ("allowGpgAgent", Js.JBool false);
   ("allowXdgRuntime", Js.JBool false)].

Definition SANDBOX_SSH_SOCK : string := "/tmp/ssh-agent.sock".

Definition loadConfig (h : Host) : M (Js.obj Js.json) :=
  loadConfig h CONFIG_DEFAULTS.

(** The configuration object given to [Sandbox.create]. *)
Record SandboxConfig : Type := mkConfig {
  claudeHome : string;
  claudeConfig : string;
  claudeJson : string;
  shareTree : string;
  repoRoot : string;
  allow : field -> value
}.

(** ** Linux: [BubblewrapSandbox.wrap] *)

(** The block that sanitises the system ssh_config: the sanitised copy is
    written into the session directory, and the arguments of the bind that
    puts it over the original are returned; any error leaves the arguments
    as they were. *)
Definition sanitize_ssh_config (h : Host) (config : SandboxConfig)
  : M (list (option string)) :=
  let sshConfigPath := "/etc/ssh/ssh_config" in
  if pathExists h sshConfigPath then
    try_catch
      (realSshConfig <- lift (fs_realpathSync h sshConfigPath) ;;
       content <- lift (fs_readFileSync h realSshConfig) ;;
       let sanitized := replace_nix_includes h content in
       let sanitizedPath := Path.join [claudeHome config; "ssh_config"] in
       on_session
         (SessFs.put_session false ["ssh_config"] (SessFs.File sanitized)) ;;;
       ret (strs ["--ro-bind"; sanitizedPath; realSshConfig]))
      (fun _ => ret [])
  else ret [].

(** The rest of [wrap], which only reads: [sshConfigArgs] is what the
    block above pushed. *)
Definition wrap_result (h : Host) (config : SandboxConfig) (script : string)
  (sshConfigArgs : list (option string)) : res WrapResult :=
  let allowSshAgent := allow config AllowSshAgent in
  let allowGpgAgent := allow config AllowGpgAgent in
  let allowXdgRuntime := allow config AllowXdgRuntime in
  let home := getenv h "HOME" in
  let user := getenv h "USER" in
  let pathEnv := getenv h "PATH" in
  let args := (bwrap_base_args ++ sshConfigArgs)%list in
  let? dotClaude := path_join [home; Some ".claude"] in
  let? dotClaudeJson := path_join [home; Some ".claude.json"] in
  let args :=
    (args
     ++ strs ["--tmpfs"; "/tmp"; "--bind"; claudeHome config] ++ [home]
     ++ strs ["--bind"; claudeConfig config; dotClaude;
              "--bind"; claudeJson config; dotClaudeJson]
     ++ bwrap_setenv_args home user pathEnv)%list in
  let args :=
    if negb (String.eqb (shareTree config) (repoRoot config))
    then (args ++ strs ["--ro-bind"; shareTree config; shareTree config])%list
    else args in
  let args := (args ++ strs ["--bind"; repoRoot config; repoRoot config])%list in
  let xdgRuntimeDir := xdgRuntimeDir_of h in
  let args :=
    if truthy_value allowXdgRuntime then
      if isDirectory h xdgRuntimeDir then
        (args ++ strs ["--ro-bind"; xdgRuntimeDir; xdgRuntimeDir]
              ++ strs ["--setenv"; "XDG_RUNTIME_DIR"; xdgRuntimeDir])%list
      else args
    else if truthy_value allowGpgAgent then
      let gpgDir := Path.join [xdgRuntimeDir; "gnupg"] in
      if isDirectory h gpgDir
      then (args ++ strs ["--ro-bind"; gpgDir; gpgDir])%list
      else args
    else args in
  let args :=
    if truthy_value allowSshAgent && Js.truthy_str (getenv h "SSH_AUTH_SOCK") then
      let sock := Js.or_else (getenv h "SSH_AUTH_SOCK") "" in
      if pathExists h sock then
        (args ++ strs ["--bind"; sock; SANDBOX_SSH_SOCK]
              ++ strs ["--setenv"; "SSH_AUTH_SOCK"; SANDBOX_SSH_SOCK])%list
      else args
    else args in
  let env := Js.obj_delete "SSH_AUTH_SOCK" (process_env h) in
  let args := (args ++ strs ["bash"; "-c"; script])%list in
  Ok (mkWrap "bwrap" args env).

(** [BubblewrapSandbox.wrap(script)] *)
Definition BubblewrapSandbox_wrap (h : Host) (config : SandboxConfig)
  (script : string) : M WrapResult :=
  sshConfigArgs <- sanitize_ssh_config h config ;;
  lift (wrap_result h config script sshConfigArgs).

(** ** The [Sandbox] class and its two subclasses *)
Inductive Sandbox : Type :=
| BubblewrapSandbox (config : SandboxConfig)
| SeatbeltSandbox (config : SandboxConfig).

(** [sandbox.wrap(script)] *)
Definition wrap (h : Host) (sandbox : Sandbox) (script : string) : M WrapResult :=
  match sandbox with
  | BubblewrapSandbox config => BubblewrapSandbox_wrap h config script
  | SeatbeltSandbox config => lift (Seatbelt.wrap h (repoRoot config) script)
  end.

(** [Sandbox.create(config)] *)
Definition Sandbox_create (h : Host) (config : SandboxConfig) : M Sandbox :=
  let platform := process_platform h in
  if String.eqb platform "linux" then ret (BubblewrapSandbox config)
  else if String.eqb platform "darwin" then ret (SeatbeltSandbox config)
  else throw (mkError None
                ("Unsupported platform: " ++ platform
                 ++ ". Supported: linux, darwin (macOS)")).

(** [sandbox.spawn(script)] *)
Definition spawn (h : Host) (sandbox : Sandbox) (script : string) : M unit :=
  r <- wrap h sandbox script ;;
  spawn_child h r.

(** The test of [dryRun]'s regular expression on [a]: some code unit is
    white space, a single quote or a double quote. *)
Definition needs_quoting (a : string) : bool :=
  Js.any_char (fun c => Js.is_space c || Ascii.eqb c "'"%char
                        || Ascii.eqb c (ascii_of_nat 34)) a.

(** The [replace] of [dryRun]: every single quote becomes quote,
    backslash, quote, quote. *)
Fixpoint escape_quotes (a : string) : string :=
  match a with
  | EmptyString => EmptyString
  | String c a' =>
      if Ascii.eqb c "'"%char then "'\''" ++ escape_quotes a'
      else String c (escape_quotes a')
  end.

(** The function mapped over [[cmd, ...args]] by [dryRun]; [undefined]
    matches nothing and stays [undefined]. *)
Definition shell_quote (a : option string) : option string :=
  match a with
  | Some s =>
      if needs_quoting s then Some ("'" ++ escape_quotes s ++ "'") else Some s
  | None => None
  end.

(** [Array.prototype.join] renders [undefined] as the empty string. *)
Definition join_words (sep : string) (l : list (option string)) : string :=
  String.concat sep (map (fun a => match a with Some s => s | None => "" end) l).

Definition opt_string_eqb (a b : option string) : bool :=
  match a, b with
  | Some x, Some y => String.eqb x y
  | None, None => true
  | _, _ => false
  end.

(** [diffEnv] as [dryRun] builds it from the sandbox environment [env] and
    [process.env]. *)
Definition diffEnv (penv env : Js.obj string) : Js.obj string :=
  let diff :=
    fold_left
      (fun d kv =>
         if negb (opt_string_eqb (Js.obj_get (fst kv) penv) (Some (snd kv)))
         then Js.obj_set (fst kv) (snd kv) d else d)
      env [] in
  fold_left
    (fun d k => if negb (Js.obj_has k env) then Js.obj_set k "(deleted)" d else d)
    (Js.obj_keys penv) diff.

(** The command line printed by [dryRun]. *)
Definition command_line (r : WrapResult) : string :=
  join_words (" \" ++ nl ++ "  ") (map shell_quote (Some (cmd r) :: args r)).

(** [sandbox.dryRun(script)] *)
Definition dryRun (h : Host) (sandbox : Sandbox) (script : string) : M unit :=
  r <- wrap h sandbox script ;;
  let diff := diffEnv (process_env h) (env r) in
  (if (0 <? List.length diff)%nat then
     console_log "# Environment changes:" ;;;
     for_each diff (fun kv => console_log ("#   " ++ fst kv ++ "=" ++ snd kv))
   else ret tt) ;;;
  console_log (command_line r).

(** ** CLI argument parsing *)

(** [cliOverrides]: [None] is [undefined], "not specified". *)
Record cliOverrides : Type := mkOverrides {
  override : field -> option bool;
  override_dryRun : bool
}.

Definition set_override (f : field) (o : cliOverrides) : cliOverrides :=
  mkOverrides (fun g => if field_eqb g f then Some true else override o g)
              (override_dryRun o).

Definition set_dryRun (o : cliOverrides) : cliOverrides :=
  mkOverrides (override o) true.

(** [showHelp()] *)
Definition showHelp (h : Host) : M unit :=
  configPath <- lift (getConfigPath h) ;;
  console_log
    (String.concat nl [
      "Usage: claudebox [OPTIONS]";
      "";
      "Options:";
      "  --allow-ssh-agent                       Allow access to SSH agent socket";
      "  --allow-gpg-agent                       Allow access to GPG agent socket";
      "  --allow-xdg-runtime                     Allow full XDG runtime directory access";
      "  --dry-run                               Print sandbox command without executing";
      "  -h, --help                              Show this help message";
      "";
      "Configuration:";
      "  Settings can be configured in " ++ configPath;
      "  CLI arguments override config file settings.";
      "";
      "  Example config:";
      "    {";
      "      " ++ dq ++ "allowSshAgent" ++ dq ++ ": false,";
      "      " ++ dq ++ "allowGpgAgent" ++ dq ++ ": false,";
      "      " ++ dq ++ "allowXdgRuntime" ++ dq ++ ": false";
      "    }";
      "";
      "Security:";
      "  By default, claudebox blocks access to /run/user/$UID (XDG runtime directory)";
      "  which contains DBus, audio, display, and other sensitive sockets.";
      "  Use --allow-* flags to selectively enable access to specific services.";
      "";
      "Examples:";
      "  claudebox                               # Run with default settings";
      "  claudebox --allow-ssh-agent             # Allow SSH agent for git operations";
      "  claudebox --allow-xdg-runtime           # Allow full XDG runtime access"
    ]).

(** The [while] loop of [parseArgs] over the remaining arguments. *)
Fixpoint parse_loop (h : Host) (args : list string) (o : cliOverrides)
  : M cliOverrides :=
  match args with
  | [] => ret o
  | arg :: rest =>
      if String.eqb arg "--allow-ssh-agent" then
        parse_loop h rest (set_override AllowSshAgent o)
      else if String.eqb arg "--allow-gpg-agent" then
        parse_loop h rest (set_override AllowGpgAgent o)
      else if String.eqb arg "--allow-xdg-runtime" then
        parse_loop h rest (set_override AllowXdgRuntime o)
      else if String.eqb arg "--dry-run" then
        parse_loop h rest (set_dryRun o)
      else if String.eqb arg "-h" || String.eqb arg "--help" then
        showHelp h ;;; process_exit 0
      else
        console_error ("Unknown option: " ++ arg) ;;;
        console_error "Use --help for usage information" ;;;
        process_exit 1
  end.

(** [options], the result of [parseArgs]. *)
Record Options : Type := mkOptions {
  option_of : field -> value;
  dryRun_option : bool
}.

(** [parseArgs(args)] *)
Definition parseArgs (h : Host) (args : list string) : M Options :=
  config <- loadConfig h ;;
  let cliOverrides0 := mkOverrides (fun _ => None) false in
  o <- parse_loop h args cliOverrides0 ;;
  ret (mkOptions
         (fun f =>
            match override o f with
            | Some b => Some (Js.JBool b)
            | None => Js.obj_get (field_key f) config
            end)
         (override_dryRun o)).

(** ** Main *)

(** What [main] has established when it reaches the launch. *)
Record Session : Type := mkSession {
  session_options : Options;
  session_claudeHome : string;
  session_sandbox : Sandbox;
  session_script : string
}.

(** [fs.copyFileSync(src, dest)] into the session directory, at [rel]. *)
Definition copy_into_session (h : Host) (src : string) (rel : list string)
  : M unit :=
  content <- lift (fs_readFileSync h src) ;;
  on_session (SessFs.put_session false rel (SessFs.File content)).

(** Copy SSH public keys and [known_hosts] into the sandbox home. *)
Definition stage_ssh (h : Host) (home : option string) : M unit :=
  sshDir <- lift (path_join [home; Some ".ssh"]) ;;
  if isDirectory h sshDir then
    on_session (SessFs.put_session true [".ssh"] (SessFs.Dir true [])) ;;;
    on_session
      (SessFs.put_session true [".ssh"; "controlmaster"] (SessFs.Dir true [])) ;;;
    let knownHosts := Path.join [sshDir; "known_hosts"] in
    (if pathExists h knownHosts
     then copy_into_session h knownHosts [".ssh"; "known_hosts"]
     else ret tt) ;;;
    let configSrc := Path.join [sshDir; "config"] in
    (if pathExists h configSrc then
       configContent <- lift (fs_readFileSync h configSrc) ;;
       let configContent :=
         replace_identity_agent h SANDBOX_SSH_SOCK configContent in
       on_session
         (SessFs.put_session false [".ssh"; "config"] (SessFs.File configContent))
     else ret tt) ;;;
    try_catch
      (files <- lift (fs_readdirSync h sshDir) ;;
       for_each files
         (fun file =>
            if Js.endsWith file ".pub"
            then copy_into_session h (Path.join [sshDir; file]) [".ssh"; file]
            else ret tt))
      (fun _ => ret tt)
  else ret tt.

(** [main] from its first line up to the launch script. *)
Definition main_setup (h : Host) (argv : list string) : M Session :=
  let args := skipn 2 argv in
  options <- parseArgs h args ;;
  let projectDir := process_cwd h in
  repoRoot <- getRepoRoot h projectDir ;;
  let sessionId := randomHex h 8 in
  let home := getenv h "HOME" in
  let claudeHome := Path.join [getTmpDir h; "claudebox-" ++ sessionId] in
  process_on "exit" (HCleanup claudeHome) ;;;
  process_on "SIGINT" (HCleanupExit claudeHome 130) ;;;
  process_on "SIGTERM" (HCleanupExit claudeHome 143) ;;;
  on_session SessFs.mkdirSync_root ;;;
  (if truthy_value (option_of options AllowSshAgent)
   then stage_ssh h home else ret tt) ;;;
  claudeConfig <- lift (path_join [home; Some ".claude"]) ;;
  check (fs_mkdirSync h claudeConfig) ;;;
  emit (EvMkdir claudeConfig) ;;;
  claudeJson <- lift (path_join [home; Some ".claude.json"]) ;;
  (if negb (pathExists h claudeJson) then
     console_log "Initializing Claude configuration..." ;;;
     emit (EvExec "claude --help")
   else ret tt) ;;;
  realRepoRoot <- realpath h repoRoot ;;
  realHome <- match home with
              | Some hm => realpath h hm
              | None => throw not_a_string
              end ;;
  let shareTree := Sharing.shareTree realRepoRoot realHome in
  sandbox <-
    try_catch
      (Sandbox_create h
         (mkConfig claudeHome claudeConfig claudeJson shareTree repoRoot
                   (option_of options)))
      (fun err =>
         console_error ("Error: " ++ err_message err) ;;;
         process_exit 1) ;;
  let script :=
    nl ++ "cd '" ++ projectDir ++ "'" ++ nl
    ++ "exec claude --dangerously-skip-permissions" ++ nl in
  ret (mkSession options claudeHome sandbox script).

(** [main] from the dry-run test on. *)
Definition main_launch (h : Host) (s : Session) : M unit :=
  if dryRun_option (session_options s) then
    dryRun h (session_sandbox s) (session_script s) ;;;
    cleanup (session_claudeHome s) ;;;
    process_exit 0
  else
    spawn h (session_sandbox s) (session_script s) ;;;
    process_on "close" HExitChildCode.

(** [main()] *)
Definition main (h : Host) (argv : list string) : M unit :=
  s <- main_setup h argv ;;
  main_launch h s.

End Claudebox.

(* ===================================================================== *)
(** * [src/unnamed/part_001] *)
(* ===================================================================== *)

Module Part001.

(** The capability fields of this copy. *)
Inductive field : Type :=
| AllowSshAgent | AllowGpgAgent | AllowGitConfig | AllowXdgRuntime | AllowIde.

Definition field_eqb (f g : field) : bool :=
  match f, g with
  | AllowSshAgent, AllowSshAgent => true
  | AllowGpgAgent, AllowGpgAgent => true
  | AllowGitConfig, AllowGitConfig => true
  | AllowXdgRuntime, AllowXdgRuntime => true
  | AllowIde, AllowIde => true
  | _, _ => false
  end.

Definition field_key (f : field) : string :=
  match f with
  | AllowSshAgent => "allowSshAgent"
  | AllowGpgAgent => "allowGpgAgent"
  | AllowGitConfig => "allowGitConfig"
  | AllowXdgRuntime => "allowXdgRuntime"
  | AllowIde => "allowIde"
  end.

Definition field_flag (f : field) : string :=
  match f with
  | AllowSshAgent => "--allow-ssh-agent"
  | AllowGpgAgent => "--allow-gpg-agent"
  | AllowGitConfig => "--allow-git-config"
  | AllowXdgRuntime => "--allow-xdg-runtime"
  | AllowIde => "--allow-ide"
  end.

(** ** [readIdeAuthToken]

    The function only reads, so it is a value or a thrown error. *)

(** [/^\d+(\.lock)?$/.test(f)]: [seen] tells that a digit has been read. *)
Fixpoint lock_name_from (seen : bool) (f : string) : bool :=
  match f with
  | EmptyString => seen
  | String c f' =>
      if Js.is_digit c then lock_name_from true f'
      else seen && String.eqb f ".lock"
  end.

Definition is_lock_name (f : string) : bool := lock_name_from false f.

(** [JSON.parse(fs.readFileSync(file, "utf8")).authToken] *)
Definition read_authToken (h : Host) (file : string) : res value :=
  match fs_readFileSync h file with
  | Err e => Err e
  | Ok text =>
      match JSON_parse h text with
      | Err e => Err e
      | Ok Js.JNull =>
          Err (mkError None "Cannot read properties of null (reading 'authToken')")
      | Ok (Js.JObj props) => Ok (Js.obj_get "authToken" props)
      | Ok _ => Ok None
      end
  end.

(** The body of both loops: the token of [file] when the file parses and
    holds a truthy one; errors are ignored. *)
Definition token_of (h : Host) (file : string) : option Js.json :=
  match read_authToken h file with
  | Ok (Some tok) => if Js.truthy tok then Some tok else None
  | _ => None
  end.

(** The body of the first loop: the file must exist as well. *)
Definition hinted_token_of (h : Host) (lockFile : string) : option Js.json :=
  if pathExists h lockFile then token_of h lockFile else None.

(** The loop over [`${ssePort}.lock`] and [ssePort]. *)
Fixpoint scan_hinted (h : Host) (ideDir : string) (names : list string)
  : option Js.json :=
  match names with
  | [] => None
  | name :: rest =>
      let lockFile := Path.join [ideDir; name] in
      match hinted_token_of h lockFile with
      | Some tok => Some tok
      | None => scan_hinted h ideDir rest
      end
  end.

(** [{ name, mtime }] *)
Record lock : Type := mkLock { name : string; mtime : Z }.

(** [path.join(ideDir, f)] *)
Definition lock_path (ideDir f : string) : string := Path.join [ideDir; f].

(** [a] stands before [b] when sorted newest first. *)
Definition newer_or_same (a b : lock) : Prop := (mtime b <= mtime a)%Z.

(** The [map] over the filtered names: one [statSync] throws, all is lost. *)
Fixpoint stat_all (h : Host) (ideDir : string) (names : list string)
  : res (list lock) :=
  match names with
  | [] => Ok []
  | f :: rest =>
      match fs_statSync h (Path.join [ideDir; f]) with
      | Err e => Err e
      | Ok st =>
          match stat_all h ideDir rest with
          | Err e => Err e
          | Ok l => Ok (mkLock f (st_mtimeMs st) :: l)
          end
      end
  end.

(** [files.sort((a, b) => b.mtime - a.mtime)]: newest first, and stable, as
    [Array.prototype.sort] is. *)
Fixpoint insert_newest_first (x : lock) (l : list lock) : list lock :=
  match l with
  | [] => [x]
  | y :: l' =>
      if (mtime x <? mtime y)%Z then y :: insert_newest_first x l'
      else x :: l
  end.

Definition sort_newest_first (l : list lock) : list lock :=
  fold_right insert_newest_first [] l.

(** The loop over the sorted files. *)
Fixpoint scan_sorted (h : Host) (ideDir : string) (files : list lock)
  : option Js.json :=
  match files with
  | [] => None
  | f :: rest =>
      match token_of h (Path.join [ideDir; name f]) with
      | Some tok => Some tok
      | None => scan_sorted h ideDir rest
      end
  end.

(** The fallback over every lock file of the directory. *)
Definition scan_directory (h : Host) (ideDir : string) : option Js.json :=
  match fs_readdirSync h ideDir with
  | Err _ => None
  | Ok names =>
      match stat_all h ideDir (filter is_lock_name names) with
      | Err _ => None
      | Ok files => scan_sorted h ideDir (sort_newest_first files)
      end
  end.

(** [readIdeAuthToken()]: [Ok None] is [null]. *)
Definition readIdeAuthToken (h : Host) : res (option Js.json) :=
  match getenv h "HOME" with
  | None => Err ERR_INVALID_ARG_TYPE
  | Some home =>
      let ideDir := Path.join [home; ".claude"; "ide"] in
      if negb (isDirectory h ideDir) then Ok None
      else
        let ssePort := getenv h "CLAUDE_CODE_SSE_PORT" in
        let hinted :=
          match ssePort with
          | Some port =>
              if negb (String.eqb port "") && Js.all_digits port
              then scan_hinted h ideDir [port ++ ".lock"; port]
              else None
          | None => None
          end in
        match hinted with
        | Some tok => Ok (Some tok)
        | None => Ok (scan_directory h ideDir)
        end
  end.

(** ** Configuration *)

Definition CONFIG_DEFAULTS : Js.obj Js.json :=
  [("allowSshAgent", Js.JBool false);
   ("allowGpgAgent", Js.JBool false);
   ("allowGitConfig", Js.JBool false);
   ("allowXdgRuntime", Js.JBool false);
   ("allowIde", Js.JBool false)].

Definition loadConfig (h : Host) : M (Js.obj Js.json) :=
  loadConfig h CONFIG_DEFAULTS.

Record SandboxConfig : Type := mkConfig {
  claudeHome : string;
  claudeConfig : string;
  claudeJson : string;
  shareTree : string;
  repoRoot : string;
  allow : field -> value
}.

(** ** Linux: [BubblewrapSandbox.wrap]

    This copy of [wrap] only reads: its result is a value or a thrown
    error. *)
Definition BubblewrapSandbox_wrap (h : Host) (config : SandboxConfig)
  (script : string) : res WrapResult :=
  let allowSshAgent := allow config AllowSshAgent in
  let allowGpgAgent := allow config AllowGpgAgent in
  let allowGitConfig := allow config AllowGitConfig in
  let allowXdgRuntime := allow config AllowXdgRuntime in
  let allowIde := allow config AllowIde in
  let home := getenv h "HOME" in
  let user := getenv h "USER" in
  let pathEnv := getenv h "PATH" in
  let? dotClaude := path_join [home; Some ".claude"] in
  let? dotClaudeJson := path_join [home; Some ".claude.json"] in
  let? gitArgs :=
    (if truthy_value allowGitConfig then
       let? gitconfig := path_join [home; Some ".gitconfig"] in
       let? configGit := path_join [home; Some ".config"; Some "git"] in
       Ok ((if pathExists h gitconfig
            then strs ["--ro-bind"; gitconfig; gitconfig] else [])
           ++ (if isDirectory h configGit
               then strs ["--ro-bind"; configGit; configGit] else []))%list
     else Ok []) in
  let args :=
    (bwrap_base_args
     ++ strs ["--tmpfs"; "/tmp"; "--bind"; claudeHome config] ++ [home]
     ++ strs ["--bind"; claudeConfig config; dotClaude;
              "--bind"; claudeJson config; dotClaudeJson]
     ++ gitArgs
     ++ bwrap_setenv_args home user pathEnv)%list in
  let args :=
    if negb (String.eqb (shareTree config) (repoRoot config))
    then (args ++ strs ["--ro-bind"; shareTree config; shareTree config])%list
    else args in
  let args := (args ++ strs ["--bind"; repoRoot config; repoRoot config])%list in
  let xdgRuntimeDir := xdgRuntimeDir_of h in
  let args :=
    if truthy_value allowXdgRuntime then
      if isDirectory h xdgRuntimeDir then
        (args ++ strs ["--ro-bind"; xdgRuntimeDir; xdgRuntimeDir]
              ++ strs ["--setenv"; "XDG_RUNTIME_DIR"; xdgRuntimeDir])%list
      else args
    else
      let args :=
        if truthy_value allowSshAgent
           && Js.truthy_str (getenv h "SSH_AUTH_SOCK") then
          let sock := Js.or_else (getenv h "SSH_AUTH_SOCK") "" in
          if pathExists h sock then
            (args ++ strs ["--ro-bind"; sock; sock]
                  ++ strs ["--setenv"; "SSH_AUTH_SOCK"; sock])%list
          else args
        else args in
      if truthy_value allowGpgAgent then
        let gpgDir := Path.join [xdgRuntimeDir; "gnupg"] in
        if isDirectory h gpgDir
        then (args ++ strs ["--ro-bind"; gpgDir; gpgDir])%list
        else args
      else args in
  let? args :=
    (if truthy_value allowIde then
       let? ideDir := path_join [home; Some ".claude"; Some "ide"] in
       if isDirectory h ideDir
       then Ok (args ++ strs ["--ro-bind"; ideDir; ideDir])%list
       else Ok args
     else Ok args) in
  let args := (args ++ strs ["bash"; "-c"; script])%list in
  Ok (mkWrap "bwrap" args (process_env h)).

(** ** The [Sandbox] class and its two subclasses *)
Inductive Sandbox : Type :=
| BubblewrapSandbox (config : SandboxConfig)
| SeatbeltSandbox (config : SandboxConfig).

Definition wrap (h : Host) (sandbox : Sandbox) (script : string) : M WrapResult :=
  match sandbox with
  | BubblewrapSandbox config => lift (BubblewrapSandbox_wrap h config script)
  | SeatbeltSandbox config => lift (Seatbelt.wrap h (repoRoot config) script)
  end.

Definition Sandbox_create (h : Host) (config : SandboxConfig) : M Sandbox :=
  let platform := process_platform h in
  if String.eqb platform "linux" then ret (BubblewrapSandbox config)
  else if String.eqb platform "darwin" then ret (SeatbeltSandbox config)
  else throw (mkError None
                ("Unsupported platform: " ++ platform
                 ++ ". Supported: linux, darwin (macOS)")).

Definition spawn (h : Host) (sandbox : Sandbox) (script : string) : M unit :=
  r <- wrap h sandbox script ;;
  spawn_child h r.

(** ** CLI argument parsing *)

(** [cliOverrides]: [None] is [undefined], "not specified". *)
Definition cliOverrides : Type := field -> option bool.

Definition set_override (f : field) (o : cliOverrides) : cliOverrides :=
  fun g => if field_eqb g f then Some true else o g.

Definition showHelp (h : Host) : M unit :=
  configPath <- lift (getConfigPath h) ;;
  console_log
    (String.concat nl [
      "Usage: claudebox [OPTIONS]";
      "";
      "Options:";
      "  --allow-ssh-agent                       Allow access to SSH agent socket";
      "  --allow-gpg-agent                       Allow access to GPG agent socket";
      "  --allow-git-config                      Allow access to user git configuration (read-only)";
      "  --allow-xdg-runtime                     Allow full XDG runtime directory access";
      "  --allow-ide                             Allow IDE integration (auth token passthrough)";
      "  -h, --help                              Show this help message";
      "";
      "Configuration:";
      "  Settings can be configured in " ++ configPath;
      "  CLI arguments override config file settings.";
      "";
      "  Example config:";
      "    {";
      "      " ++ dq ++ "allowSshAgent" ++ dq ++ ": false,";
      "      " ++ dq ++ "allowGpgAgent" ++ dq ++ ": false,";
      "      " ++ dq ++ "allowGitConfig" ++ dq ++ ": false,";
      "      " ++ dq ++ "allowXdgRuntime" ++ dq ++ ": false,";
      "      " ++ dq ++ "allowIde" ++ dq ++ ": false";
      "    }";
      "";
      "Security:";
      "  By default, claudebox blocks access to /run/user/$UID (XDG runtime directory)";
      "  which contains DBus, audio, display, and other sensitive sockets.";
      "  Use --allow-* flags to selectively enable access to specific services.";
      "";
      "Examples:";
      "  claudebox                               # Run with default settings";
      "  claudebox --allow-ssh-agent             # Allow SSH agent for git operations";
      "  claudebox --allow-git-config            # Allow user git config for commits";
      "  claudebox --allow-xdg-runtime           # Allow full XDG runtime access";
      "  claudebox --allow-ide                  # Allow IDE extension integration"
    ]).

(** The [while] loop of [parseArgs] over the remaining arguments. *)
Fixpoint parse_loop (h : Host) (args : list string) (o : cliOverrides)
  : M cliOverrides :=
  match args with
  | [] => ret o
  | arg :: rest =>
      if String.eqb arg "--allow-ssh-agent" then
        parse_loop h rest (set_override AllowSshAgent o)
      else if String.eqb arg "--allow-gpg-agent" then
        parse_loop h rest (set_override AllowGpgAgent o)
      else if String.eqb arg "--allow-git-config" then
        parse_loop h rest (set_override AllowGitConfig o)
      else if String.eqb arg "--allow-xdg-runtime" then
        parse_loop h rest (set_override AllowXdgRuntime o)
      else if String.eqb arg "--allow-ide" then
        parse_loop h rest (set_override AllowIde o)
      else if String.eqb arg "-h" || String.eqb arg "--help" then
        showHelp h ;;; process_exit 0
      else
        console_error ("Unknown option: " ++ arg) ;;;
        console_error "Use --help for usage information" ;;;
        process_exit 1
  end.

(** [options], the result of [parseArgs]. *)
Definition Options : Type := field -> value.

(** [parseArgs(args)] *)
Definition parseArgs (h : Host) (args : list string) : M Options :=
  config <- loadConfig h ;;
  let cliOverrides0 : cliOverrides := fun _ => None in
  o <- parse_loop h args cliOverrides0 ;;
  ret (fun f =>
         match o f with
         | Some b => Some (Js.JBool b)
         | None => Js.obj_get (field_key f) config
         end).

(** ** Main *)

Definition no_token_warning : string :=
  "claudebox: --allow-ide specified but no IDE auth token found in ~/.claude/ide/".

(** The IDE auth token passthrough of [main]: the token staged in the
    session directory, or the warning. *)
Definition stage_ide_token (h : Host) (options : Options) : M (option Js.json) :=
  if truthy_value (options AllowIde) then
    ideAuthToken <- lift (readIdeAuthToken h) ;;
    match ideAuthToken with
    | Some tok =>
        match tok with
        | Js.JStr text =>
            on_session
              (SessFs.put_session false [".ide-auth-token"] (SessFs.File text))
        | _ => throw not_a_string
        end ;;;
        ret (Some tok)
    | None =>
        console_error no_token_warning ;;;
        ret None
    end
  else ret None.

(** The launch script, with or without the token hand-over. *)
Definition launch_script (home projectDir : string) (ideAuthToken : option Js.json)
  : string :=
  match ideAuthToken with
  | Some _ =>
      nl ++ "exec 3< '" ++ home ++ "/.ide-auth-token'" ++ nl
      ++ "rm -f '" ++ home ++ "/.ide-auth-token'" ++ nl
      ++ "export CLAUDE_CODE_WEBSOCKET_AUTH_FILE_DESCRIPTOR=3" ++ nl
      ++ "cd '" ++ projectDir ++ "'" ++ nl
      ++ "exec claude --dangerously-skip-permissions" ++ nl
  | None =>
      nl ++ "cd '" ++ projectDir ++ "'" ++ nl
      ++ "exec claude --dangerously-skip-permissions" ++ nl
  end.

(** [main()] *)
Definition main (h : Host) (argv : list string) : M unit :=
  let args := skipn 2 argv in
  options <- parseArgs h args ;;
  let projectDir := process_cwd h in
  repoRoot <- getRepoRoot h projectDir ;;
  let sessionId := randomHex h 8 in
  let home := getenv h "HOME" in
  let claudeHome := Path.join [getTmpDir h; "claudebox-" ++ sessionId] in
  process_on "exit" (HCleanup claudeHome) ;;;
  process_on "SIGINT" (HCleanupExit claudeHome 130) ;;;
  process_on "SIGTERM" (HCleanupExit claudeHome 143) ;;;
  on_session SessFs.mkdirSync_root ;;;
  (if truthy_value (options AllowGitConfig) then
     configGit <- lift (path_join [home; Some ".config"; Some "git"]) ;;
     if isDirectory h configGit
     then on_session (SessFs.mkdirSync_p ".config")
     else ret tt
   else ret tt) ;;;
  claudeConfig <- lift (path_join [home; Some ".claude"]) ;;
  check (fs_mkdirSync h claudeConfig) ;;;
  emit (EvMkdir claudeConfig) ;;;
  claudeJson <- lift (path_join [home; Some ".claude.json"]) ;;
  (if negb (pathExists h claudeJson) then
     console_log "Initializing Claude configuration..." ;;;
     emit (EvExec "claude --help")
   else ret tt) ;;;
  realRepoRoot <- realpath h repoRoot ;;
  realHome <- match home with
              | Some hm => realpath h hm
              | None => throw not_a_string
              end ;;
  let shareTree := Sharing.shareTree realRepoRoot realHome in
  sandbox <-
    try_catch
      (Sandbox_create h
         (mkConfig claudeHome claudeConfig claudeJson shareTree repoRoot options))
      (fun err =>
         console_error ("Error: " ++ err_message err) ;;;
         process_exit 1) ;;
  ideAuthToken <- stage_ide_token h options ;;
  let script := launch_script (Js.or_else home "") projectDir ideAuthToken in
  spawn h sandbox script ;;;
  process_on "close" HExitChildCode.

End Part001.

(* ===================================================================== *)
(** * The session of a run, as the properties below speak of it *)
(* ===================================================================== *)

(** The session directory of a run on host [h]: [claudeHome] in [main]. *)
Definition claudeHome_of (h : Host) : string :=
  Path.join [getTmpDir h; "claudebox-" ++ randomHex h 8].

(** The listeners [main] registers before it creates anything. *)
Definition session_listeners (h : Host) : list event :=
  [EvOn "exit" (HCleanup (claudeHome_of h));
   EvOn "SIGINT" (HCleanupExit (claudeHome_of h) 130);
   EvOn "SIGTERM" (HCleanupExit (claudeHome_of h) 143)].

(** The environment delta of a dry run, key by key: a value that is new
    or changed, or the mark of a key that is gone. *)
Definition delta_entry (penv env : Js.obj string) (k : string) : option string :=
  match Js.obj_get k env with
  | Some v =>
      if Claudebox.opt_string_eqb (Js.obj_get k penv) (Some v) then None
      else Some v
  | None => if Js.obj_has k penv then Some "(deleted)" else None
  end.

(** The lines a dry run prints for the result [r] of [wrap]. *)
Definition dry_run_lines (penv : Js.obj string) (r : WrapResult) : list string :=
  let diff := Claudebox.diffEnv penv (env r) in
  let header :=
    if (0 <? List.length diff)%nat
    then "# Environment changes:"
         :: map (fun kv => "#   " ++ fst kv ++ "=" ++ snd kv) diff
    else [] in
  (header ++ [Claudebox.command_line r])%list.

(* ===================================================================== *)
(** * Runtime-socket exposure, as the properties below speak of it *)
(* ===================================================================== *)

Module Exposure.

(** The broad bind: the whole XDG runtime directory, read-only, and its
    environment variable. *)
Definition broad_bind (h : Host) : list (option string) :=
  let xdgRuntimeDir := xdgRuntimeDir_of h in
  if isDirectory h xdgRuntimeDir then
    strs ["--ro-bind"; xdgRuntimeDir; xdgRuntimeDir;
          "--setenv"; "XDG_RUNTIME_DIR"; xdgRuntimeDir]
  else [].

(** The narrow SSH-agent bind of [src/src/claudebox.js]: the host socket
    rebound to the fixed in-sandbox path. *)
Definition rebound_ssh_bind (h : Host) (allowSshAgent : value)
  : list (option string) :=
  match getenv h "SSH_AUTH_SOCK" with
  | Some sock =>
      if truthy_value allowSshAgent && negb (String.eqb sock "")
         && pathExists h sock
      then strs ["--bind"; sock; Claudebox.SANDBOX_SSH_SOCK;
                 "--setenv"; "SSH_AUTH_SOCK"; Claudebox.SANDBOX_SSH_SOCK]
      else []
  | None => []
  end.

(** A configuration with the three runtime-socket flags switched off. *)
Definition claudebox_runtime_off (config : Claudebox.SandboxConfig)
  : Claudebox.SandboxConfig :=
  Claudebox.mkConfig
    (Claudebox.claudeHome config) (Claudebox.claudeConfig config)
    (Claudebox.claudeJson config) (Claudebox.shareTree config)
    (Claudebox.repoRoot config)
    (fun _ => Some (Js.JBool false)).

Definition part001_runtime_off (config : Part001.SandboxConfig)
  : Part001.SandboxConfig :=
  Part001.mkConfig
    (Part001.claudeHome config) (Part001.claudeConfig config)
    (Part001.claudeJson config) (Part001.shareTree config)
    (Part001.repoRoot config)
    (fun f =>
       match f with
       | Part001.AllowSshAgent | Part001.AllowGpgAgent
       | Part001.AllowXdgRuntime => Some (Js.JBool false)
       | _ => Part001.allow config f
       end).

End Exposure.

(* ===================================================================== *)
(** * Concrete hosts, for the examples *)
(* ===================================================================== *)

Module Example.

Definition SyntaxError : error := mkError None "Unexpected token in JSON".

(** A host given by its platform, its environment, its directories, its
    readable files, their modification times, the directory listings, what
    [JSON.parse] makes of the texts involved, and whether [spawn] throws.
    [links] gives the [realpath] of the paths that are not canonical. *)
Definition make_host (platform : string) (penv : Js.obj string)
  (dirs : list string) (files : Js.obj string) (mtimes : Js.obj Z)
  (listing : Js.obj (list string)) (parses : Js.obj Js.json)
  (links : Js.obj string) (spawn_error : option error) : Host :=
  let exists_ (p : string) : bool :=
    existsb (String.eqb p) dirs || Js.obj_has p files in
  mkHost penv platform "/home/u/work/repo" 1000
    (fun p => if exists_ p then None else Some SessFs.ENOENT)
    (fun p =>
       if exists_ p then
         Ok (mkStats (existsb (String.eqb p) dirs)
                     (match Js.obj_get p mtimes with Some t => t | None => 0%Z end))
       else Err SessFs.ENOENT)
    (fun p =>
       match Js.obj_get p links with
       | Some target => Ok target
       | None => Ok p
       end)
    (fun p =>
       match Js.obj_get p files with
       | Some text => Ok text
       | None => Err SessFs.ENOENT
       end)
    (fun p =>
       match Js.obj_get p listing with
       | Some names => Ok names
       | None => Err SessFs.ENOENT
       end)
    (fun _ => None)
    (fun _ => Ok ("/home/u/work/repo" ++ nl))
    (fun _ _ _ => spawn_error)
    (fun i => i)
    (fun text =>
       match Js.obj_get text parses with
       | Some v => Ok v
       | None => Err SyntaxError
       end)
    (fun text => text)
    (fun _ text => text).

Definition penv : Js.obj string :=
  [("HOME", "/home/u"); ("USER", "u"); ("PATH", "/usr/bin:/bin");
   ("SSH_AUTH_SOCK", "/run/user/1000/keyring/ssh");
   ("XDG_RUNTIME_DIR", "/run/user/1000")].

Definition config_path : string := "/home/u/.config/claudebox/config.json".

(** A Linux host with an SSH agent socket, an XDG runtime directory and a
    configuration file that enables the GPG agent and disables the rest. *)
Definition linux : Host :=
  make_host "linux" penv
    ["/home/u"; "/home/u/work/repo"; "/run/user/1000"; "/run/user/1000/gnupg"]
    [("/run/user/1000/keyring/ssh", ""); (config_path, "<config>")]
    [] []
    [("<config>",
      Js.JObj [("allowSshAgent", Js.JBool false);
               ("allowGpgAgent", Js.JBool true)])]
    [] None.

(** The same machine reporting a platform without a backend. *)
Definition freebsd : Host :=
  make_host "freebsd" penv
    ["/home/u"; "/home/u/work/repo"; "/run/user/1000"]
    [] [] [] [] [] None.

(** The same machine, where [bwrap] cannot be spawned. *)
Definition linux_no_bwrap : Host :=
  make_host "linux" penv
    ["/home/u"; "/home/u/work/repo"; "/run/user/1000"]
    [] [] [] [] []
    (Some (mkError (Some "ENOENT") "spawn bwrap ENOENT")).

Definition profile_path : string := "/nix/store/claudebox/seatbelt.sbpl".

(** A macOS host whose temp directory is a per-user one: [/var] and [/tmp]
    are links into [/private]. *)
Definition darwin : Host :=
  make_host "darwin"
    [("HOME", "/Users/u"); ("USER", "u"); ("PATH", "/usr/bin:/bin");
     ("TMPDIR", "/var/folders/zz/T/");
     ("CLAUDEBOX_SEATBELT_PROFILE", profile_path)]
    ["/Users/u"; "/Users/u/work/repo"; "/tmp"; "/var/folders/zz/T/"]
    [(profile_path, "(version 1)")]
    [] [] []
    [("/var/folders/zz/T/", "/private/var/folders/zz/T"); ("/tmp", "/private/tmp")]
    None.

(** The same host with [TMPDIR] unset: the temp directory is [/tmp]. *)
Definition darwin_tmp : Host :=
  make_host "darwin"
    [("HOME", "/Users/u"); ("USER", "u"); ("PATH", "/usr/bin:/bin");
     ("CLAUDEBOX_SEATBELT_PROFILE", profile_path)]
    ["/Users/u"; "/Users/u/work/repo"; "/tmp"]
    [(profile_path, "(version 1)")]
    [] [] []
    [("/tmp", "/private/tmp")]
    None.

Definition ide_dir : string := "/home/u/.claude/ide".

(** A Linux host with three IDE lock files, the newest of which is
    [41002.lock], and no port hint. *)
Definition linux_ide : Host :=
  make_host "linux" penv
    ["/home/u"; "/home/u/work/repo"; ide_dir]
    [("/home/u/.claude/ide/41001.lock", "<lock 1>");
     ("/home/u/.claude/ide/41002.lock", "<lock 2>");
     ("/home/u/.claude/ide/41003.lock", "<lock 3>")]
    [("/home/u/.claude/ide/41001.lock", 1000%Z);
     ("/home/u/.claude/ide/41002.lock", 3000%Z);
     ("/home/u/.claude/ide/41003.lock", 2000%Z)]
    [(ide_dir, ["41001.lock"; "41002.lock"; "41003.lock"; "notes.txt"])]
    [("<lock 1>", Js.JObj [("pid", Js.JNum 11); ("authToken", Js.JStr "token-1")]);
     ("<lock 2>", Js.JObj [("pid", Js.JNum 12); ("authToken", Js.JStr "token-2")]);
     ("<lock 3>", Js.JObj [("pid", Js.JNum 13); ("authToken", Js.JStr "token-3")])]
    [] None.

(** The same directory, with one more entry that cannot be stat'ed: a
    dangling symbolic link named like a lock file. *)
Definition linux_ide_dangling : Host :=
  make_host "linux" penv
    ["/home/u"; "/home/u/work/repo"; ide_dir]
    [("/home/u/.claude/ide/41001.lock", "<lock 1>");
     ("/home/u/.claude/ide/41002.lock", "<lock 2>");
     ("/home/u/.claude/ide/41003.lock", "<lock 3>")]
    [("/home/u/.claude/ide/41001.lock", 1000%Z);
     ("/home/u/.claude/ide/41002.lock", 3000%Z);
     ("/home/u/.claude/ide/41003.lock", 2000%Z)]
    [(ide_dir, ["41001.lock"; "41002.lock"; "41003.lock"; "40000.lock"])]
    [("<lock 1>", Js.JObj [("pid", Js.JNum 11); ("authToken", Js.JStr "token-1")]);
     ("<lock 2>", Js.JObj [("pid", Js.JNum 12); ("authToken", Js.JStr "token-2")]);
     ("<lock 3>", Js.JObj [("pid", Js.JNum 13); ("authToken", Js.JStr "token-3")])]
    [] None.

(** The first host again, with a port hint for the oldest lock file. *)
Definition linux_ide_hinted : Host :=
  with_env linux_ide (("CLAUDE_CODE_SSE_PORT", "41001") :: penv).

(** The configurations [main] would build on these hosts, for given
    flags. *)
Definition claudebox_config (allow : Claudebox.field -> value)
  : Claudebox.SandboxConfig :=
  Claudebox.mkConfig "/tmp/claudebox-01234567" "/home/u/.claude"
    "/home/u/.claude.json" "/home/u/work" "/home/u/work/repo" allow.

Definition part001_config (allow : Part001.field -> value)
  : Part001.SandboxConfig :=
  Part001.mkConfig "/tmp/claudebox-01234567" "/home/u/.claude"
    "/home/u/.claude.json" "/home/u/work" "/home/u/work/repo" allow.

(** Nothing recorded yet, no session directory, a writable temp root. *)
Definition fresh : state := mkState (SessFs.mk true None) [].

(** [process.argv] of a dry run and of the same run without the flag. *)
Definition dry_run_argv : list string := ["node"; "claudebox"; "--dry-run"].

Definition real_run_argv : list string := ["node"; "claudebox"].

End Example.

(* ===================================================================== *)
(** * Further notions, as the properties below speak of them *)
(* ===================================================================== *)

(** What [bwrap] runs: the words left once the options of [Bwrap.entries]
    have been read. *)
Fixpoint bwrap_command (args : list (option string)) : list (option string) :=
  match args with
  | Some "--dev" :: d :: rest => bwrap_command rest
  | Some "--proc" :: d :: rest => bwrap_command rest
  | Some "--ro-bind-try" :: s :: d :: rest => bwrap_command rest
  | Some "--ro-bind" :: s :: d :: rest => bwrap_command rest
  | Some "--bind" :: s :: d :: rest => bwrap_command rest
  | Some "--tmpfs" :: d :: rest => bwrap_command rest
  | Some "--unshare-all" :: rest => bwrap_command rest
  | Some "--share-net" :: rest => bwrap_command rest
  | Some "--setenv" :: k :: v :: rest => bwrap_command rest
  | _ => args
  end.

(** The mounts through which the sandboxed process can write to the host:
    the [--bind] entries. *)
Definition writable_binds (args : list (option string)) : list Bwrap.entry :=
  filter (fun e => match e with Bwrap.Bind _ _ => true | _ => false end)
         (Bwrap.entries args).

(** A run of options with all their operands: what follows is read as if
    it stood alone. *)
Definition complete (a : list (option string)) : Prop :=
  forall rest,
    Bwrap.entries (a ++ rest) = (Bwrap.entries a ++ Bwrap.entries rest)%list
    /\ bwrap_command (a ++ rest) = bwrap_command rest.

(** How a POSIX shell reads a word made of single-quoted stretches and
    backslash-escaped characters: between single quotes every character
    stands for itself up to the closing quote; outside, a backslash makes
    the next character stand for itself.  [None] when a quote is left open
    or the word holds anything else unquoted. *)
Fixpoint sh_unquote (quoted : bool) (s : string) : option string :=
  match s with
  | EmptyString => if quoted then None else Some EmptyString
  | String c s' =>
      if quoted then
        if Ascii.eqb c "'"%char then sh_unquote false s'
        else option_map (String c) (sh_unquote true s')
      else if Ascii.eqb c "'"%char then sh_unquote true s'
      else if Ascii.eqb c "\"%char then
        match s' with
        | String d s'' => option_map (String d) (sh_unquote false s'')
        | EmptyString => None
        end
      else None
  end.

(** The lines of the environment delta, as a dry run prints them: nothing
    for an empty delta, otherwise a header and one line per entry. *)
Definition delta_lines (delta : Js.obj string) : list string :=
  match delta with
  | [] => []
  | _ :: _ =>
      "# Environment changes:"
      :: map (fun kv => "#   " ++ fst kv ++ "=" ++ snd kv) delta
  end.

(** An argument that holds white space, a single quote or a double
    quote. *)
Definition has_blank_or_quote (s : string) : Prop :=
  exists c,
    Js.has_char c s = true
    /\ (Js.is_space c = true \/ c = "'"%char \/ c = ascii_of_nat 34).

(** The word [w] stands for the argument [a] on a shell-quoted command
    line: an argument with white space or a quote is wrapped in single
    quotes, and the shell reads the word back as the argument; any other
    argument is printed as it is ([undefined] as nothing). *)
Definition printed_word (a : option string) (w : string) : Prop :=
  match a with
  | None => w = ""
  | Some s =>
      (has_blank_or_quote s
       /\ (exists body, w = "'" ++ body ++ "'")
       /\ sh_unquote false w = Some s)
      \/ (~ has_blank_or_quote s /\ w = s)
  end.

(** A computation that, however it ends, leaves the session directory in a
    state that satisfies [I] when it found it in one. *)
Definition preserves {A : Type} (I : SessFs.t -> Prop) (m : M A) : Prop :=
  forall st st' o, m st = (st', o) -> I (fs st) -> I (fs st').

(** The listeners of the ['exit'] event. *)
Definition is_exit_listener (e : event) : bool :=
  match e with
  | EvOn name _ => String.eqb name "exit"
  | _ => false
  end.

(** Nothing stands in the way of removing the session directory. *)
Definition removable_fs (s : SessFs.t) : Prop := SessFs.removable s = true.

(** A computation that, however it ends, has either left the session
    directory alone and registered no ['exit'] listener, or registered
    [cleanup] for directory [d] as the one new ['exit'] listener. *)
Definition registers_cleanup {A : Type} (d : string) (m : M A) : Prop :=
  forall st st' o,
    m st = (st', o) ->
    (fs st' = fs st
     /\ kept is_exit_listener (trace st') = kept is_exit_listener (trace st))
    \/ kept is_exit_listener (trace st')
       = (kept is_exit_listener (trace st) ++ [EvOn "exit" (HCleanup d)])%list.

(** A computation that, when it completes normally, has started exactly
    one child: [bwrap] on Linux and [sandbox-exec] on macOS, running
    [bash -c script]. *)
Definition launches (h : Host) (m : M unit) : Prop :=
  forall st st',
    m st = (st', Val tt) ->
    exists r script,
      kept is_spawn (trace st')
      = (kept is_spawn (trace st) ++ [EvSpawn (cmd r) (args r) (env r)])%list
      /\ spawn_sync h (cmd r) (args r) (env r) = None
      /\ ((process_platform h = "linux" /\ cmd r = "bwrap"
           /\ bwrap_command (args r) = strs ["bash"; "-c"; script])
          \/ (process_platform h = "darwin"
              /\ cmd r = "/usr/bin/sandbox-exec"
              /\ exists pre,
                   args r = (pre ++ strs ["--"; "bash"; "-c"; script])%list)).

(** What [main] of [src/src/claudebox.js] may put into the [.ssh] directory
    of the sandbox home, from the host directory [sshDir]: the empty
    [controlmaster] directory, a copy of [known_hosts], the rewritten
    [config], and copies of the files whose name ends in [.pub]. *)
Definition staged_ssh_entry (h : Host) (sshDir name : string)
  (n : SessFs.node) : Prop :=
  (name = "controlmaster" /\ n = SessFs.Dir true [])
  \/ (name = "known_hosts"
      /\ exists content,
           fs_readFileSync h (Path.join [sshDir; "known_hosts"]) = Ok content
           /\ n = SessFs.File content)
  \/ (name = "config"
      /\ exists content,
           fs_readFileSync h (Path.join [sshDir; "config"]) = Ok content
           /\ n = SessFs.File
                    (replace_identity_agent h Claudebox.SANDBOX_SSH_SOCK content))
  \/ (Js.endsWith name ".pub" = true
      /\ exists content,
           fs_readFileSync h (Path.join [sshDir; name]) = Ok content
           /\ n = SessFs.File content).

(** Every entry of every [.ssh] directory of the session directory is a
    staged one. *)
Definition ssh_staged (h : Host) (sshDir : string) (s : SessFs.t) : Prop :=
  forall w es sw ssh name n,
    SessFs.session s = Some (SessFs.Dir w es) ->
    In (".ssh", SessFs.Dir sw ssh) es ->
    In (name, n) ssh ->
    staged_ssh_entry h sshDir name n.

(** The first example host with an [~/.ssh] directory that holds a key
    pair and [known_hosts]. *)
Definition linux_with_keys : Host :=
  Example.make_host "linux" Example.penv
    ["/home/u"; "/home/u/work/repo"; "/home/u/.ssh"]
    [("/run/user/1000/keyring/ssh", "");
     ("/home/u/.ssh/id_ed25519", "<private key>");
     ("/home/u/.ssh/id_ed25519.pub", "<public key>");
     ("/home/u/.ssh/known_hosts", "<known hosts>")]
    []
    [("/home/u/.ssh", ["id_ed25519"; "id_ed25519.pub"; "known_hosts"])]
    [] [] None.

(** A configuration of [src/unnamed/part_001] with the IDE flag switched
    off and everything else as it is. *)
Definition part001_ide_off (config : Part001.SandboxConfig)
  : Part001.SandboxConfig :=
  Part001.mkConfig
    (Part001.claudeHome config) (Part001.claudeConfig config)
    (Part001.claudeJson config) (Part001.shareTree config)
    (Part001.repoRoot config)
    (fun f =>
       match f with
       | Part001.AllowIde => Some (Js.JBool false)
       | _ => Part001.allow config f
       end).

(** The commands run through [execSync]. *)
Definition is_exec (e : event) : bool :=
  match e with EvExec _ => true | _ => false end.

(** What a run executes through [execSync] before it launches the sandbox:
    [git rev-parse], and [claude --help] when [claudeJson] does not exist
    yet. *)
Definition setup_commands (h : Host) (claudeJson : string) : list event :=
  EvExec "git rev-parse --show-toplevel 2>/dev/null"
  :: (if pathExists h claudeJson then [] else [EvExec "claude --help"]).

(* ===================================================================== *)
(** * Properties *)
(* ===================================================================== *)

Unset Implicit Arguments.

Section StringFacts.

Lemma app_assoc_s (a b c : string) : (a ++ b) ++ c = a ++ (b ++ c).
Proof. induction a as [|x a IH]; simpl; [reflexivity | now rewrite IH]. Qed.

Lemma app_nil_r_s (a : string) : a ++ "" = a.
Proof. induction a as [|x a IH]; simpl; [reflexivity | now rewrite IH]. Qed.

Lemma length_app_s (a b : string) :
  String.length (a ++ b) = String.length a + String.length b.
Proof. induction a as [|x a IH]; simpl; [reflexivity | now rewrite IH]. Qed.

Lemma startsWith_app (p s : string) : Js.startsWith (p ++ s) p = true.
Proof.
  induction p as [|c p IH]; simpl; [reflexivity|].
  now rewrite Ascii.eqb_refl, IH.
Qed.

Lemma slice_app (p s : string) : Js.slice (String.length p) (p ++ s) = s.
Proof. induction p as [|c p IH]; simpl; [now destruct s | exact IH]. Qed.

Lemma startsWith_inv (s p : string) :
  Js.startsWith s p = true -> exists r, s = p ++ r.
Proof.
  revert s; induction p as [|c p IH]; intros s H; simpl in *.
  - now exists s.
  - destruct s as [|d s]; [discriminate|].
    apply andb_true_iff in H as [Hc Hp].
    apply Ascii.eqb_eq in Hc; subst d.
    destruct (IH _ Hp) as [r ->]. now exists r.
Qed.

End StringFacts.

Section Canonical.

Lemma valid_no_slash s : Path.valid_segment s = true -> Path.no_slash s = true.
Proof.
  unfold Path.valid_segment, Path.no_slash. intros H.
  now apply andb_true_iff in H as [_ H].
Qed.

Lemma split_nonempty c s : Js.split c s <> [].
Proof.
  destruct s as [|d s]; simpl; [discriminate|].
  destruct (Ascii.eqb d c); [discriminate|].
  destruct (Js.split c s); discriminate.
Qed.

(** A piece without a slash is glued to the first piece of what follows. *)
Lemma split_app_no_slash (s x : string) :
  Path.no_slash s = true ->
  Js.split Path.slash (s ++ x)
  = (s ++ Js.first (Js.split Path.slash x)) :: tl (Js.split Path.slash x).
Proof.
  induction s as [|c s IH]; intros Hs.
  - simpl. destruct (Js.split Path.slash x) eqn:E; [|reflexivity].
    now apply split_nonempty in E.
  - unfold Path.no_slash in Hs; simpl in Hs.
    apply negb_true_iff, orb_false_iff in Hs as [Hc Hs].
    simpl. rewrite Hc, IH; [reflexivity|].
    unfold Path.no_slash. now rewrite Hs.
Qed.

Lemma split_render_segs (r : list string) :
  forallb Path.no_slash r = true ->
  Js.split Path.slash (Path.render_segs r) = "" :: r.
Proof.
  induction r as [|s r IH]; intros Hr; [reflexivity|].
  simpl in Hr. apply andb_true_iff in Hr as [Hs Hr].
  cbn [Path.render_segs]. change ("/" ++ s ++ Path.render_segs r)
    with (String Path.slash (s ++ Path.render_segs r)).
  cbn [Js.split]. rewrite Ascii.eqb_refl.
  rewrite split_app_no_slash by assumption.
  rewrite (IH Hr). simpl. now rewrite app_nil_r_s.
Qed.

Lemma render_segs_app (a b : list string) :
  Path.render_segs (a ++ b) = Path.render_segs a ++ Path.render_segs b.
Proof.
  induction a as [|s a IH]; simpl; [reflexivity|].
  now rewrite IH, app_assoc_s.
Qed.

End Canonical.

Section Normalize.

Lemma canonical_no_slash segs : Path.canonical segs = true -> forallb Path.no_slash segs = true.
Proof.
  induction segs as [|s r IH]; simpl; [reflexivity|].
  intros H. apply andb_true_iff in H as [Hs Hr].
  now rewrite (valid_no_slash _ Hs), (IH Hr).
Qed.

Lemma canonical_app a b : Path.canonical (a ++ b) = Path.canonical a && Path.canonical b.
Proof. apply forallb_app. Qed.

Lemma norm_step_valid b acc s :
  Path.valid_segment s = true -> Path.norm_step b acc s = s :: acc.
Proof.
  unfold Path.valid_segment, Path.norm_step. intros H.
  repeat (apply andb_true_iff in H as [H ?]).
  apply negb_true_iff in H.
  repeat match goal with Hx : negb _ = true |- _ => apply negb_true_iff in Hx end.
  now rewrite H, H2, H1.
Qed.

Lemma fold_norm_valid b segs acc :
  Path.canonical segs = true ->
  fold_left (Path.norm_step b) segs acc = (rev segs ++ acc)%list.
Proof.
  revert acc; induction segs as [|s r IH]; intros acc H; simpl; [reflexivity|].
  simpl in H. apply andb_true_iff in H as [Hs Hr].
  rewrite (norm_step_valid _ _ _ Hs), (IH _ Hr).
  now rewrite <- List.app_assoc.
Qed.

Lemma normalizeString_canonical b segs :
  Path.canonical segs = true -> Path.normalizeString b ("" :: segs) = segs.
Proof.
  intros H. unfold Path.normalizeString. simpl.
  rewrite (fold_norm_valid _ _ _ H), List.app_nil_r. apply rev_involutive.
Qed.

Lemma concat_render_segs s r :
  "/" ++ String.concat "/" (s :: r) = Path.render_segs (s :: r).
Proof.
  revert s; induction r as [|s' r IH]; intros s.
  - simpl. now rewrite app_nil_r_s.
  - change (String.concat "/" (s :: s' :: r))
      with (s ++ "/" ++ String.concat "/" (s' :: r)).
    rewrite IH. reflexivity.
Qed.

Lemma last_char_app a b : b <> "" -> Js.last_char (a ++ b) = Js.last_char b.
Proof.
  intros Hb. induction a as [|c a IH]; [reflexivity|].
  simpl. destruct (a ++ b) eqn:E; [|exact IH].
  destruct a; simpl in E; [contradiction | discriminate].
Qed.

Lemma last_char_has c s : Js.last_char s = Some c -> Js.has_char c s = true.
Proof.
  induction s as [|d s IH]; simpl; [discriminate|].
  destruct s as [|e s].
  - intros [= ->]. now rewrite Ascii.eqb_refl.
  - intros H. rewrite (IH H). apply orb_true_r.
Qed.

Lemma render_segs_nonempty s r : Path.render_segs (s :: r) <> "".
Proof. discriminate. Qed.

Lemma render_segs_no_trailing_slash s r :
  Path.canonical (s :: r) = true ->
  Js.endsWithChar (Path.render_segs (s :: r)) Path.slash = false.
Proof.
  revert s; induction r as [|s' r IH]; intros s H.
  - simpl in H. rewrite andb_true_r in H.
    assert (Hs : s <> "").
    { intros ->. discriminate. }
    unfold Js.endsWithChar. cbn [Path.render_segs]. rewrite app_nil_r_s.
    rewrite (last_char_app "/" s Hs).
    destruct (Js.last_char s) as [c|] eqn:E; [|reflexivity].
    apply last_char_has in E.
    destruct (Ascii.eqb_spec c Path.slash) as [->|]; [|reflexivity].
    apply valid_no_slash in H. unfold Path.no_slash in H. now rewrite E in H.
  - change (Path.canonical (s :: s' :: r)) with (Path.valid_segment s && Path.canonical (s' :: r)) in H.
    apply andb_true_iff in H as [_ H].
    unfold Js.endsWithChar in *. cbn [Path.render_segs].
    change ("/" ++ s ++ "/" ++ s' ++ Path.render_segs r)
      with ("/" ++ s ++ Path.render_segs (s' :: r)).
    rewrite <- app_assoc_s.
    rewrite last_char_app by apply render_segs_nonempty.
    now apply IH.
Qed.

Lemma valid_segment_nonempty s : Path.valid_segment s = true -> s <> "".
Proof. intros H ->. discriminate. Qed.

Lemma normalize_render_segs s r :
  Path.canonical (s :: r) = true ->
  Path.normalize (Path.render_segs (s :: r)) = Path.render_segs (s :: r).
Proof.
  intros H. unfold Path.normalize.
  rewrite (render_segs_no_trailing_slash _ _ H).
  rewrite split_render_segs by now apply canonical_no_slash.
  cbn [Path.render_segs]. simpl (String.eqb _ ""). simpl (Js.startsWith _ "/").
  cbv iota. simpl negb.
  rewrite (normalizeString_canonical _ _ H).
  assert (Hne : String.concat "/" (s :: r) <> "").
  { simpl in H. apply andb_true_iff in H as [Hs _].
    apply valid_segment_nonempty in Hs.
    destruct r; simpl; [assumption|]. destruct s; [contradiction | discriminate]. }
  apply String.eqb_neq in Hne. rewrite Hne.
  apply concat_render_segs.
Qed.

Lemma join_canonical hs t :
  hs <> [] -> Path.canonical hs = true -> Path.valid_segment t = true ->
  Path.join [Path.render hs; t] = Path.render (hs ++ [t]).
Proof.
  intros Hne Hhs Ht. destruct hs as [|s r]; [contradiction|].
  unfold Path.join, Path.render. cbn [filter].
  assert (E1 : (Path.render_segs (s :: r) =? "") = false) by reflexivity.
  rewrite E1.
  pose proof (valid_segment_nonempty _ Ht) as Ht'.
  apply String.eqb_neq in Ht'. rewrite Ht'. cbn [negb].
  change (String.concat "/" [Path.render_segs (s :: r); t])
    with (Path.render_segs (s :: r) ++ "/" ++ t).
  assert (E2 : Path.render_segs (s :: r) ++ "/" ++ t
               = Path.render_segs ((s :: r) ++ [t])).
  { rewrite render_segs_app. simpl. now rewrite !app_nil_r_s. }
  rewrite E2. destruct ((s :: r) ++ [t])%list as [|s0 r0] eqn:E; [discriminate|].
  apply normalize_render_segs. rewrite <- E, canonical_app, Hhs. simpl.
  now rewrite Ht.
Qed.

End Normalize.

Section SharedTree.

Lemma boundary_render_segs r : Path.boundary (Path.render_segs r).
Proof. destruct r; [now left | right; eexists; reflexivity]. Qed.

Lemma no_slash_cons c s :
  Path.no_slash (String c s) = true -> Ascii.eqb c Path.slash = false /\ Path.no_slash s = true.
Proof.
  unfold Path.no_slash; simpl. intros H.
  apply negb_true_iff, orb_false_iff in H as [Hc Hs]. now rewrite Hs.
Qed.

(** Two segments followed by boundaries: a prefix test that succeeds past
    the end of the first segment forces the segments to be equal. *)
Lemma segment_align (h p x' y : string) :
  Path.no_slash h = true -> Path.no_slash p = true -> Path.boundary y ->
  Js.startsWith (p ++ y) (h ++ String Path.slash x') = true ->
  h = p /\ Js.startsWith y (String Path.slash x') = true.
Proof.
  revert p; induction h as [|c h IH]; intros p Hh Hp Hy H.
  - destruct p as [|d p]; [now split|].
    apply no_slash_cons in Hp as [Hd _].
    cbn [Js.startsWith String.append] in H.
    apply andb_true_iff in H as [H _].
    rewrite Ascii.eqb_sym in H. congruence.
  - apply no_slash_cons in Hh as [Hc Hh].
    destruct p as [|d p].
    + cbn [Js.startsWith String.append] in H.
      destruct Hy as [-> | [y' ->]]; [discriminate|].
      apply andb_true_iff in H as [H _]. congruence.
    + apply no_slash_cons in Hp as [_ Hp].
      cbn [Js.startsWith String.append] in H.
      apply andb_true_iff in H as [Hcd H].
      apply Ascii.eqb_eq in Hcd; subst d.
      destruct (IH p Hh Hp Hy H) as [-> H']. now split.
Qed.

Lemma render_segs_slash hs :
  exists x', Path.render_segs hs ++ "/" = String Path.slash x'.
Proof. destruct hs; simpl; eexists; reflexivity. Qed.

Lemma prefix_align (hs ps : list string) :
  forallb Path.no_slash hs = true -> forallb Path.no_slash ps = true ->
  Js.startsWith (Path.render_segs ps) (Path.render_segs hs ++ "/") = true ->
  exists t rest, ps = (hs ++ t :: rest)%list.
Proof.
  revert ps; induction hs as [|h hs IH]; intros ps Hhs Hps H.
  - destruct ps as [|t rest]; [discriminate|]. now exists t, rest.
  - simpl in Hhs. apply andb_true_iff in Hhs as [Hh Hhs].
    destruct ps as [|p ps]; [discriminate|].
    simpl in Hps. apply andb_true_iff in Hps as [Hp Hps].
    cbn [Path.render_segs] in H.
    change (("/" ++ h ++ Path.render_segs hs) ++ "/")
      with (String Path.slash ((h ++ Path.render_segs hs) ++ "/")) in H.
    change ("/" ++ p ++ Path.render_segs ps)
      with (String Path.slash (p ++ Path.render_segs ps)) in H.
    cbn [Js.startsWith] in H. rewrite Ascii.eqb_refl in H. cbn [andb] in H.
    rewrite app_assoc_s in H.
    destruct (render_segs_slash hs) as [x' Ex]. rewrite Ex in H.
    destruct (segment_align _ _ _ _ Hh Hp (boundary_render_segs ps) H) as [-> H'].
    rewrite <- Ex in H'.
    destruct (IH ps Hhs Hps H') as (t & rest & ->).
    now exists t, rest.
Qed.

Lemma render_segs_length_pos s r : 0 < String.length (Path.render_segs (s :: r)).
Proof. simpl. lia. Qed.

Lemma render_nonroot hs : hs <> [] -> Path.render hs = Path.render_segs hs.
Proof. now destruct hs. Qed.

(** The branch taken by [shareTree] on Path.canonical paths. *)
Lemma shareTree_inside (hs : list string) (t : string) (rest : list string) :
  hs <> [] -> Path.canonical (hs ++ t :: rest) = true ->
  Sharing.shareTree (Path.render (hs ++ t :: rest)) (Path.render hs)
  = Path.join [Path.render hs; t].
Proof.
  intros Hne Hc. unfold Sharing.shareTree.
  rewrite (render_nonroot hs Hne).
  rewrite render_nonroot by now destruct hs.
  rewrite render_segs_app.
  change (Path.render_segs (t :: rest)) with ("/" ++ t ++ Path.render_segs rest).
  rewrite <- (app_assoc_s (Path.render_segs hs) "/").
  rewrite startsWith_app.
  replace (String.length (Path.render_segs hs) + 1)
    with (String.length (Path.render_segs hs ++ "/"))
    by (rewrite length_app_s; reflexivity).
  rewrite slice_app.
  rewrite canonical_app in Hc. apply andb_true_iff in Hc as [_ Hc].
  simpl in Hc. apply andb_true_iff in Hc as [Ht Hrest].
  rewrite split_app_no_slash by now apply valid_no_slash.
  rewrite split_render_segs by now apply canonical_no_slash.
  simpl Js.first. now rewrite app_nil_r_s.
Qed.

Lemma shareTree_outside (hs ps : list string) :
  Path.canonical hs = true -> Path.canonical ps = true ->
  (forall t rest, ps <> (hs ++ t :: rest)%list) ->
  Sharing.shareTree (Path.render ps) (Path.render hs) = Path.render ps.
Proof.
  intros Hhs Hps Hno. unfold Sharing.shareTree.
  destruct (Js.startsWith (Path.render ps) (Path.render hs ++ "/")) eqn:E;
    [exfalso | reflexivity].
  destruct hs as [|h hs].
  - destruct ps as [|p ps]; [discriminate|].
    now apply (Hno p ps).
  - destruct ps as [|p ps].
    + simpl in E. destruct h; simpl in E; discriminate.
    + apply prefix_align in E; try now apply canonical_no_slash.
      destruct E as (t & rest & E). now apply (Hno t rest).
Qed.

Lemma render_segs_inj_length (a b : list string) :
  Path.render_segs (a ++ b) = Path.render_segs a -> b = [].
Proof.
  intros H. rewrite render_segs_app in H.
  apply (f_equal String.length) in H. rewrite length_app_s in H.
  destruct b as [|s r]; [reflexivity|].
  pose proof (render_segs_length_pos s r). lia.
Qed.

End SharedTree.

(** When the home directory is the file-system root, the prefix test of
    [shareTree] looks for two slashes and fails: no narrowing happens. *)
Lemma shareTree_home_root (ps : list string) :
  Path.canonical ps = true ->
  Sharing.shareTree (Path.render ps) (Path.render []) = Path.render ps.
Proof.
  intros Hps. unfold Sharing.shareTree.
  destruct ps as [|p ps]; [reflexivity|].
  simpl in Hps. apply andb_true_iff in Hps as [Hp _].
  pose proof (valid_segment_nonempty _ Hp) as Hne.
  apply valid_no_slash in Hp.
  destruct p as [|c p]; [contradiction|].
  apply no_slash_cons in Hp as [Hc _].
  cbn [Path.render Path.render_segs String.append Js.startsWith].
  rewrite Ascii.eqb_refl.
  replace (Ascii.eqb "/" c) with false
    by (symmetry; rewrite Ascii.eqb_sym; exact Hc).
  reflexivity.
Qed.

(** C2 (as amended).  For canonical paths, with a home directory other
    than the root: when the project root is a strict descendant of home,
    the shared tree is home joined with the first segment of the project
    path relative to home; it is never the home directory, and it is the
    project root itself exactly when the project root is a direct child of
    home.  When the project root is not a strict descendant of home, the
    shared tree is the project root. *)
Theorem shareTree_rule (hs ps : list string) :
  Path.canonical hs = true -> Path.canonical ps = true ->
  (forall t rest, hs <> [] -> ps = (hs ++ t :: rest)%list ->
     Sharing.shareTree (Path.render ps) (Path.render hs)
       = Path.join [Path.render hs; t]
     /\ Sharing.shareTree (Path.render ps) (Path.render hs)
       = Path.render (hs ++ [t])
     /\ Sharing.shareTree (Path.render ps) (Path.render hs) <> Path.render hs
     /\ (Sharing.shareTree (Path.render ps) (Path.render hs) = Path.render ps
         <-> rest = []))
  /\ ((forall t rest, ps <> (hs ++ t :: rest)%list) ->
      Sharing.shareTree (Path.render ps) (Path.render hs) = Path.render ps).
Proof.
  intros Hhs Hps. split.
  - intros t rest Hne ->.
    pose proof Hps as Hc.
    rewrite canonical_app in Hc. apply andb_true_iff in Hc as [_ Hc].
    simpl in Hc. apply andb_true_iff in Hc as [Ht _].
    rewrite (shareTree_inside hs t rest Hne Hps).
    rewrite (join_canonical hs t Hne Hhs Ht).
    repeat split.
    + rewrite !render_nonroot by (try assumption; now destruct hs).
      intros E. apply render_segs_inj_length in E. discriminate.
    + rewrite !render_nonroot by now destruct hs.
      intros E.
      change (hs ++ t :: rest)%list with (hs ++ [t] ++ rest)%list in E.
      rewrite List.app_assoc in E. symmetry in E.
      now apply render_segs_inj_length in E.
    + now intros ->.
  - now apply shareTree_outside.
Qed.

(** The rule at the spec's first example. *)
Lemma shareTree_rule_witness :
  Sharing.shareTree "/home/u/work/repo" "/home/u" = "/home/u/work".
Proof.
  destruct (shareTree_rule ["home"; "u"] ["home"; "u"; "work"; "repo"]
              eq_refl eq_refl) as [H _].
  destruct (H "work" ["repo"] ltac:(discriminate) eq_refl) as (_ & H2 & _).
  exact H2.
Defined.

(** C2 as stated fails: a project that is a direct child of home is a
    strict descendant of home, and its shared tree is the full project
    path. *)
Lemma shareTree_direct_child_is_project :
  Path.canonical ["home"; "u"] = true
  /\ Path.canonical ["home"; "u"; "repo"] = true
  /\ ["home"; "u"; "repo"] = (["home"; "u"] ++ "repo" :: [])%list
  /\ Path.render ["home"; "u"] = "/home/u"
  /\ Path.render ["home"; "u"; "repo"] = "/home/u/repo"
  /\ Sharing.shareTree "/home/u/repo" "/home/u" = "/home/u/repo".
Proof. repeat split. Qed.

Example shareTree_under_home :
  Sharing.shareTree "/home/u/work/repo" "/home/u" = "/home/u/work".
Proof. reflexivity. Qed.

Example shareTree_outside_home :
  Sharing.shareTree "/srv/repo" "/home/u" = "/srv/repo".
Proof. reflexivity. Qed.

Example shareTree_root_home :
  Sharing.shareTree "/srv/repo" "/" = "/srv/repo".
Proof. reflexivity. Qed.

(* --------------------------------------------------------------------- *)
(** ** Objects *)

Section ObjFacts.
Context {V : Type}.

Lemma obj_get_set (k k' : string) (v : V) (o : Js.obj V) :
  Js.obj_get k (Js.obj_set k' v o)
  = if String.eqb k' k then Some v else Js.obj_get k o.
Proof.
  induction o as [|[k0 v0] o IH]; simpl.
  - reflexivity.
  - destruct (String.eqb_spec k0 k') as [->|Hne]; simpl.
    + now destruct (String.eqb k' k).
    + rewrite IH. destruct (String.eqb_spec k' k) as [->|]; [|reflexivity].
      apply String.eqb_neq in Hne. now rewrite Hne.
Qed.

Lemma obj_get_not_key (k : string) (o : Js.obj V) :
  existsb (String.eqb k) (Js.obj_keys o) = false -> Js.obj_get k o = None.
Proof.
  induction o as [|[k0 v0] o IH]; simpl; [reflexivity|].
  intros H. apply orb_false_iff in H as [Hk Ho].
  rewrite String.eqb_sym, Hk. now apply IH.
Qed.

Lemma obj_get_delete (k k' : string) (o : Js.obj V) :
  Js.obj_get k (Js.obj_delete k' o)
  = if String.eqb k' k then None else Js.obj_get k o.
Proof.
  induction o as [|[k0 v0] o IH]; simpl.
  - now destruct (String.eqb k' k).
  - destruct (String.eqb_spec k0 k') as [->|Hne]; simpl.
    + rewrite IH. destruct (String.eqb k' k); reflexivity.
    + rewrite IH. destruct (String.eqb_spec k' k) as [->|]; [|reflexivity].
      apply String.eqb_neq in Hne. now rewrite Hne.
Qed.

End ObjFacts.

(** [{ ...base, ...more }] reads [more] first, then [base]. *)
Lemma spread_get (k : string) (more base : Js.obj Js.json) :
  Js.distinct (Js.obj_keys more) = true ->
  Js.obj_get k (spread base more)
  = match Js.obj_get k more with
    | Some v => Some v
    | None => Js.obj_get k base
    end.
Proof.
  unfold spread. revert base.
  induction more as [|[k1 v1] more IH]; intros base Hd; simpl; [reflexivity|].
  simpl in Hd. apply andb_true_iff in Hd as [Hk Hd].
  apply negb_true_iff in Hk.
  rewrite (IH _ Hd), obj_get_set.
  destruct (String.eqb_spec k1 k) as [->|]; [|reflexivity].
  now rewrite (obj_get_not_key _ _ Hk).
Qed.

(** Keys of spread arrays and strings are decimal numerals. *)
Lemma string_of_uint_digits (u : Decimal.uint) :
  Js.all_chars Js.is_digit (DecimalString.NilEmpty.string_of_uint u) = true.
Proof. induction u; simpl; auto. Qed.

Lemma index_props_keys {A : Type} (k : string) (l : list A) (i : nat) :
  Js.all_chars Js.is_digit k = false ->
  existsb (String.eqb k) (Js.obj_keys (index_props_from i l)) = false.
Proof.
  intros Hk. revert i; induction l as [|x l IH]; intros i; simpl; [reflexivity|].
  rewrite IH, orb_false_r.
  destruct (String.eqb_spec k (Js.string_of_nat i)) as [E|]; [|reflexivity].
  unfold Js.string_of_nat in E. rewrite E, string_of_uint_digits in Hk.
  discriminate.
Qed.

Lemma spread_get_other (k : string) (more base : Js.obj Js.json) :
  existsb (String.eqb k) (Js.obj_keys more) = false ->
  Js.obj_get k (spread base more) = Js.obj_get k base.
Proof.
  unfold spread. revert base.
  induction more as [|[k1 v1] more IH]; intros base Hk; simpl; [reflexivity|].
  simpl in Hk. apply orb_false_iff in Hk as [Hk1 Hk].
  rewrite (IH _ Hk), obj_get_set. now rewrite String.eqb_sym, Hk1.
Qed.

(** Reading a key that is not a numeral from [{ ...base, ...u }]: the own
    property of [u] when it has one, the property of [base] otherwise. *)
Lemma spread_props_get (k : string) (u : Js.json) (base : Js.obj Js.json) :
  Js.all_chars Js.is_digit k = false ->
  Js.well_formed u = true ->
  Js.obj_get k (spread base (spread_props u))
  = match Js.own_prop k u with
    | Some v => Some v
    | None => Js.obj_get k base
    end.
Proof.
  intros Hk Hwf. destruct u; cbn [spread_props Js.own_prop];
    try reflexivity.
  - apply spread_get_other. now apply index_props_keys.
  - apply spread_get_other. now apply index_props_keys.
  - now apply spread_get.
Qed.

(* --------------------------------------------------------------------- *)
(** ** Configuration merge *)

Ltac unfold_M :=
  repeat unfold bind, ret, lift, check, throw, process_exit, try_catch, emit,
    console_log, console_error, process_on in *.

(** What [loadConfig] returns for a key that is not a numeral. *)
Lemma loadConfig_get (h : Host) (defaults : Js.obj Js.json) (st st' : state)
  (config : Js.obj Js.json) (k : string) :
  loadConfig h defaults st = (st', Val config) ->
  config_file_well_formed h = true ->
  Js.all_chars Js.is_digit k = false ->
  Js.obj_get k config
  = match file_value h k with
    | Some v => Some v
    | None => Js.obj_get k (spread [] defaults)
    end.
Proof.
  unfold loadConfig, file_value, config_file_well_formed, config_file.
  unfold_M.
  destruct (getConfigPath h) as [configPath|e]; cbn; [|discriminate].
  destruct (fs_readFileSync h configPath) as [content|e]; cbn.
  - destruct (JSON_parse h content) as [u|e]; cbn.
    + intros [= <- <-] Hwf Hk. now apply spread_props_get.
    + destruct (match err_code e with Some c => negb (c =? "ENOENT") | None => true end);
        cbn; now intros [= <- <-].
  - destruct (match err_code e with Some c => negb (c =? "ENOENT") | None => true end);
      cbn; now intros [= <- <-].
Qed.

(* --------------------------------------------------------------------- *)
(** ** [parseArgs] of [src/src/claudebox.js] *)

Lemma existsb_eqb_In (k : string) (l : list string) :
  existsb (String.eqb k) l = true <-> In k l.
Proof.
  rewrite existsb_exists. split.
  - intros (x & Hx & E). apply String.eqb_eq in E. now subst.
  - intros H. exists k. split; [assumption | apply String.eqb_refl].
Qed.

Lemma existsb_eqb_not_In (k : string) (l : list string) :
  existsb (String.eqb k) l = false <-> ~ In k l.
Proof.
  rewrite <- existsb_eqb_In. now destruct (existsb (String.eqb k) l).
Qed.

(** Comparison of two string literals, evaluated. *)
Ltac eval_eqb :=
  repeat match goal with
  | |- context [String.eqb ?a ?b] =>
      let v := eval vm_compute in (String.eqb a b) in
      match v with
      | true => change (String.eqb a b) with true
      | false => change (String.eqb a b) with false
      end
  end.

Module ClaudeboxArgs.
Import Claudebox.

(** The loop leaves the state alone, and a field is overridden exactly
    when its option occurs. *)
Lemma parse_loop_claudebox (h : Host) (args : list string) :
  forall (o o' : cliOverrides) (st st' : state),
  parse_loop h args o st = (st', Val o') ->
  st' = st
  /\ (forall f, override o' f
              = if existsb (String.eqb (field_flag f)) args then Some true
                else override o f)
  /\ override_dryRun o'
     = (existsb (String.eqb "--dry-run") args || override_dryRun o).
Proof.
  induction args as [|arg rest IH]; intros o o' st st' H.
  - injection H as <- <-. now repeat split.
  - cbn [parse_loop] in H.
    repeat match type of H with
    | (if String.eqb arg ?s then _ else _) _ = _ =>
        destruct (String.eqb_spec arg s) as [->|?]
    end.
    + apply IH in H as (-> & Ho & Hd). repeat split.
      * intros f. rewrite Ho.
        destruct f; cbn [existsb field_flag]; eval_eqb;
          cbn [orb set_override override field_eqb];
          now repeat match goal with
              | |- context [if ?b then _ else _] => destruct b
              end.
      * rewrite Hd. cbn [existsb]. now eval_eqb.
    + apply IH in H as (-> & Ho & Hd). repeat split.
      * intros f. rewrite Ho.
        destruct f; cbn [existsb field_flag]; eval_eqb;
          cbn [orb set_override override field_eqb];
          now repeat match goal with
              | |- context [if ?b then _ else _] => destruct b
              end.
      * rewrite Hd. cbn [existsb]. now eval_eqb.
    + apply IH in H as (-> & Ho & Hd). repeat split.
      * intros f. rewrite Ho.
        destruct f; cbn [existsb field_flag]; eval_eqb;
          cbn [orb set_override override field_eqb];
          now repeat match goal with
              | |- context [if ?b then _ else _] => destruct b
              end.
      * rewrite Hd. cbn [existsb]. now eval_eqb.
    + apply IH in H as (-> & Ho & Hd). repeat split.
      * intros f. rewrite Ho.
        destruct f; cbn [existsb field_flag]; eval_eqb;
          cbn [orb set_override override field_eqb];
          now repeat match goal with
              | |- context [if ?b then _ else _] => destruct b
              end.
      * rewrite Hd. cbn [existsb]. eval_eqb. cbn. now rewrite orb_true_r.
    + exfalso. revert H. unfold showHelp. unfold_M.
      destruct (String.eqb arg "-h" || String.eqb arg "--help").
      * destruct (getConfigPath h); discriminate.
      * discriminate.
Qed.

(** The options [parseArgs] returns, field by field. *)
Lemma parseArgs_claudebox (h : Host) (args : list string) (st st' : state)
  (options : Options) :
  config_file_well_formed h = true ->
  parseArgs h args st = (st', Val options) ->
  (forall f,
     option_of options f
     = if existsb (String.eqb (field_flag f)) args then Some (Js.JBool true)
       else Some (match file_value h (field_key f) with
                  | Some v => v
                  | None => Js.JBool false
                  end))
  /\ dryRun_option options = existsb (String.eqb "--dry-run") args.
Proof.
  intros Hwf. unfold parseArgs, bind, ret.
  destruct (loadConfig h st) as [st1 [config|e|c]] eqn:Econfig; try discriminate.
  destruct (parse_loop h args _ st1) as [st2 [o|e|c]] eqn:Eloop; try discriminate.
  intros [= <- <-]. cbn [option_of dryRun_option].
  apply parse_loop_claudebox in Eloop as (_ & Ho & Hd). split.
  - intros f. rewrite Ho. cbn [override].
    destruct (existsb (String.eqb (field_flag f)) args); [reflexivity|].
    unfold loadConfig in Econfig.
    rewrite (loadConfig_get h _ st st1 config (field_key f) Econfig Hwf)
      by now destruct f.
    destruct (file_value h (field_key f)); [reflexivity|].
    now destruct f.
  - rewrite Hd. cbn. apply orb_false_r.
Qed.

End ClaudeboxArgs.

(* --------------------------------------------------------------------- *)
(** ** [parseArgs] of [src/unnamed/part_001] *)

Module Part001Args.
Import Part001.

Lemma parse_loop_part001 (h : Host) (args : list string) :
  forall (o o' : cliOverrides) (st st' : state),
  parse_loop h args o st = (st', Val o') ->
  st' = st
  /\ (forall f, o' f
              = if existsb (String.eqb (field_flag f)) args then Some true
                else o f).
Proof.
  induction args as [|arg rest IH]; intros o o' st st' H.
  - injection H as <- <-. now split.
  - cbn [parse_loop] in H.
    repeat match type of H with
    | (if String.eqb arg ?s then _ else _) _ = _ =>
        destruct (String.eqb_spec arg s) as [->|?]
    end.
    1-5: apply IH in H as (-> & Ho); split; [reflexivity|];
      intros f; rewrite Ho;
      destruct f; cbn [existsb field_flag]; eval_eqb;
      cbn [orb set_override field_eqb];
      now repeat match goal with
          | |- context [if ?b then _ else _] => destruct b
          end.
    exfalso. revert H. unfold showHelp. unfold_M.
    destruct (String.eqb arg "-h" || String.eqb arg "--help").
    + destruct (getConfigPath h); discriminate.
    + discriminate.
Qed.

(** The options [parseArgs] returns, field by field. *)
Lemma parseArgs_part001 (h : Host) (args : list string) (st st' : state)
  (options : Options) :
  config_file_well_formed h = true ->
  parseArgs h args st = (st', Val options) ->
  forall f,
    options f
    = if existsb (String.eqb (field_flag f)) args then Some (Js.JBool true)
      else Some (match file_value h (field_key f) with
                 | Some v => v
                 | None => Js.JBool false
                 end).
Proof.
  intros Hwf. unfold parseArgs, bind, ret.
  destruct (loadConfig h st) as [st1 [config|e|c]] eqn:Econfig; try discriminate.
  destruct (parse_loop h args _ st1) as [st2 [o|e|c]] eqn:Eloop; try discriminate.
  intros [= <- <-].
  apply parse_loop_part001 in Eloop as (_ & Ho).
  intros f. rewrite Ho.
  destruct (existsb (String.eqb (field_flag f)) args); [reflexivity|].
  unfold loadConfig in Econfig.
  rewrite (loadConfig_get h _ st st1 config (field_key f) Econfig Hwf)
    by now destruct f.
  destruct (file_value h (field_key f)); [reflexivity|].
  now destruct f.
Qed.

End Part001Args.

(** C3.  In both copies, for every capability field: when its option
    occurs on the command line the resolved option is [true], whatever the
    configuration file says; when it does not, the resolved option is the
    value the file provides for the field, and the default [false] when the
    file provides none.  Each field is resolved from its own option and its
    own file value only. *)
Theorem parseArgs_precedence :
  (forall (h : Host) (args : list string) (st st' : state)
          (options : Claudebox.Options),
     config_file_well_formed h = true ->
     Claudebox.parseArgs h args st = (st', Val options) ->
     forall f : Claudebox.field,
       (In (Claudebox.field_flag f) args ->
        Claudebox.option_of options f = Some (Js.JBool true))
       /\ (~ In (Claudebox.field_flag f) args ->
           Claudebox.option_of options f
           = Some (match file_value h (Claudebox.field_key f) with
                   | Some v => v
                   | None => Js.JBool false
                   end)))
  /\ (forall (h : Host) (args : list string) (st st' : state)
             (options : Part001.Options),
        config_file_well_formed h = true ->
        Part001.parseArgs h args st = (st', Val options) ->
        forall f : Part001.field,
          (In (Part001.field_flag f) args ->
           options f = Some (Js.JBool true))
          /\ (~ In (Part001.field_flag f) args ->
              options f
              = Some (match file_value h (Part001.field_key f) with
                      | Some v => v
                      | None => Js.JBool false
                      end))).
Proof.
  split; intros h args st st' options Hwf H f.
  - destruct (ClaudeboxArgs.parseArgs_claudebox h args st st' options Hwf H) as [Ho _].
    rewrite Ho. split; intros Hin.
    + apply existsb_eqb_In in Hin. now rewrite Hin.
    + apply existsb_eqb_not_In in Hin. now rewrite Hin.
  - rewrite (Part001Args.parseArgs_part001 h args st st' options Hwf H).
    split; intros Hin.
    + apply existsb_eqb_In in Hin. now rewrite Hin.
    + apply existsb_eqb_not_In in Hin. now rewrite Hin.
Qed.

(** On the example host, whose file says [allowSshAgent: false] and
    [allowGpgAgent: true], the command line [--allow-ssh-agent] resolves
    the SSH agent to [true], the GPG agent to the file's [true] and the
    remaining fields to the default. *)
Lemma parseArgs_precedence_witness :
  exists st' options,
    Part001.parseArgs Example.linux ["--allow-ssh-agent"] Example.fresh
    = (st', Val options)
    /\ options Part001.AllowSshAgent = Some (Js.JBool true)
    /\ options Part001.AllowGpgAgent = Some (Js.JBool true)
    /\ options Part001.AllowIde = Some (Js.JBool false).
Proof.
  destruct (Part001.parseArgs Example.linux ["--allow-ssh-agent"] Example.fresh)
    as [st' [options|e|c]] eqn:E;
    [| vm_compute in E; discriminate | vm_compute in E; discriminate].
  exists st', options. split; [reflexivity|].
  pose proof (proj2 parseArgs_precedence Example.linux ["--allow-ssh-agent"]
                Example.fresh st' options eq_refl E) as H.
  repeat split.
  - apply (H Part001.AllowSshAgent). now left.
  - rewrite (proj2 (H Part001.AllowGpgAgent)); [reflexivity|].
    intros [D|[]]; discriminate.
  - rewrite (proj2 (H Part001.AllowIde)); [reflexivity|].
    intros [D|[]]; discriminate.
Defined.

(** C10.  In both copies: the loop of [parseArgs] leaves every override
    unspecified or [true], never [false]; the resolved option is [true] or
    what the file and the defaults give; so a field that the file makes
    truthy resolves to a truthy option whatever the command line. *)
Theorem cli_flags_monotone :
  (forall (h : Host) (args : list string) (st st' : state),
     (forall o, Claudebox.parse_loop h args
                  (Claudebox.mkOverrides (fun _ => None) false) st
                = (st', Val o) ->
                forall f, Claudebox.override o f = None
                          \/ Claudebox.override o f = Some true)
     /\ (forall options,
           config_file_well_formed h = true ->
           Claudebox.parseArgs h args st = (st', Val options) ->
           forall f,
             (Claudebox.option_of options f = Some (Js.JBool true)
              \/ Claudebox.option_of options f
                 = Some (match file_value h (Claudebox.field_key f) with
                         | Some v => v
                         | None => Js.JBool false
                         end))
             /\ (truthy_value (file_value h (Claudebox.field_key f)) = true ->
                 truthy_value (Claudebox.option_of options f) = true)))
  /\ (forall (h : Host) (args : list string) (st st' : state),
        (forall o, Part001.parse_loop h args (fun _ => None) st = (st', Val o) ->
                   forall f, o f = None \/ o f = Some true)
        /\ (forall options,
              config_file_well_formed h = true ->
              Part001.parseArgs h args st = (st', Val options) ->
              forall f,
                (options f = Some (Js.JBool true)
                 \/ options f
                    = Some (match file_value h (Part001.field_key f) with
                            | Some v => v
                            | None => Js.JBool false
                            end))
                /\ (truthy_value (file_value h (Part001.field_key f)) = true ->
                    truthy_value (options f) = true))).
Proof.
  split; intros h args st st'; split.
  - intros o H f.
    apply ClaudeboxArgs.parse_loop_claudebox in H as (_ & Ho & _).
    rewrite Ho. cbn. destruct (existsb _ args); auto.
  - intros options Hwf H f.
    destruct (ClaudeboxArgs.parseArgs_claudebox h args st st' options Hwf H) as [Ho _].
    rewrite Ho. destruct (existsb _ args); split; auto.
    destruct (file_value h (Claudebox.field_key f)); [auto | discriminate].
  - intros o H f.
    apply Part001Args.parse_loop_part001 in H as (_ & Ho).
    rewrite Ho. destruct (existsb _ args); auto.
  - intros options Hwf H f.
    rewrite (Part001Args.parseArgs_part001 h args st st' options Hwf H).
    destruct (existsb _ args); split; auto.
    destruct (file_value h (Part001.field_key f)); [auto | discriminate].
Qed.

(** On the example host the file enables the GPG agent; no command line
    option mentions it, and it stays enabled. *)
Lemma cli_flags_monotone_witness :
  exists st' options,
    Claudebox.parseArgs Example.linux ["--allow-xdg-runtime"; "--dry-run"]
      Example.fresh
    = (st', Val options)
    /\ truthy_value (Claudebox.option_of options Claudebox.AllowGpgAgent) = true.
Proof.
  destruct (Claudebox.parseArgs Example.linux ["--allow-xdg-runtime"; "--dry-run"]
              Example.fresh)
    as [st' [options|e|c]] eqn:E;
    [| vm_compute in E; discriminate | vm_compute in E; discriminate].
  exists st', options. split; [reflexivity|].
  apply (proj2 (proj1 cli_flags_monotone Example.linux
                  ["--allow-xdg-runtime"; "--dry-run"] Example.fresh st')
           options eq_refl E Claudebox.AllowGpgAgent).
  reflexivity.
Defined.

(* --------------------------------------------------------------------- *)
(** ** [BubblewrapSandbox.wrap] *)

(** Case analysis on the innermost test of hypothesis [H]. *)
Ltac step_in H :=
  match type of H with
  | context [match ?x with _ => _ end] =>
      lazymatch x with
      | context [match _ with _ => _ end] => fail
      | context [if _ then _ else _] => fail
      | _ => destruct x eqn:?; cbn in H
      end
  | context [if ?x then _ else _] =>
      lazymatch x with
      | context [if _ then _ else _] => fail
      | context [match _ with _ => _ end] => fail
      | _ => destruct x eqn:?; cbn in H
      end
  end.

(** What the ssh_config block pushes: nothing, or one read-only bind of the
    sanitised copy over the real file. *)
Lemma sanitize_ssh_config_args (h : Host) (config : Claudebox.SandboxConfig)
  (st st' : state) (o : outcome (list (option string))) :
  Claudebox.sanitize_ssh_config h config st = (st', o) ->
  exists sshConfigArgs,
    o = Val sshConfigArgs
    /\ trace st' = trace st
    /\ (sshConfigArgs = []
        \/ exists real,
             sshConfigArgs
             = strs ["--ro-bind";
                     Path.join [Claudebox.claudeHome config; "ssh_config"];
                     real]).
Proof.
  unfold Claudebox.sanitize_ssh_config. unfold_M. unfold on_session.
  intros H. cbn in H.
  repeat step_in H; injection H as <- <-;
    eexists; (split; [reflexivity|]); cbn;
    (split; [reflexivity|]); eauto.
Qed.

Lemma claudebox_wrap_result_hides (h : Host) (config : Claudebox.SandboxConfig)
  (script : string) (sshConfigArgs : list (option string)) (r : WrapResult) :
  truthy_value (Claudebox.allow config Claudebox.AllowSshAgent) = false ->
  (sshConfigArgs = []
   \/ exists a b, sshConfigArgs = strs ["--ro-bind"; a; b]) ->
  Claudebox.wrap_result h config script sshConfigArgs = Ok r ->
  Js.obj_get "SSH_AUTH_SOCK" (env r) = None
  /\ ~ In (Some "SSH_AUTH_SOCK") (Bwrap.setenv_vars (args r)).
Proof.
  intros Hssh Hargs H. unfold Claudebox.wrap_result in H.
  rewrite Hssh in H. cbn [andb] in H. unfold path_join in H.
  set (gpgDir := Path.join _) in H.
  destruct Hargs as [-> | (a & b & ->)]; cbn in H;
    repeat step_in H; try discriminate.
  all: injection H as <-; split;
    [ cbn [env]; rewrite obj_get_delete; reflexivity | ].
  all: cbv [args Bwrap.setenv_vars Bwrap.entries filter map Bwrap.setenv_var In].
  all: intuition discriminate.
Qed.

(** In [src/src/claudebox.js], with the SSH agent disabled, the result of
    [wrap] binds [SSH_AUTH_SOCK] neither in its environment nor by a
    [--setenv] entry. *)
Lemma claudebox_wrap_hides_ssh_auth_sock (h : Host)
  (config : Claudebox.SandboxConfig) (script : string) (st st' : state)
  (r : WrapResult) :
  truthy_value (Claudebox.allow config Claudebox.AllowSshAgent) = false ->
  Claudebox.BubblewrapSandbox_wrap h config script st = (st', Val r) ->
  Js.obj_get "SSH_AUTH_SOCK" (env r) = None
  /\ ~ In (Some "SSH_AUTH_SOCK") (Bwrap.setenv_vars (args r)).
Proof.
  intros Hssh H. unfold Claudebox.BubblewrapSandbox_wrap, bind in H.
  destruct (Claudebox.sanitize_ssh_config h config st) as [st1 o] eqn:E.
  apply sanitize_ssh_config_args in E as (sshConfigArgs & -> & _ & Hshape).
  unfold lift in H.
  destruct (Claudebox.wrap_result h config script sshConfigArgs) as [r'|e] eqn:E;
    [|discriminate].
  injection H as <- <-.
  apply (claudebox_wrap_result_hides h config script sshConfigArgs r' Hssh);
    [|assumption].
  destruct Hshape as [-> | (real & ->)]; [now left | right; eauto].
Qed.

Lemma getenv_with_env (h : Host) (e : Js.obj string) (k : string) :
  getenv (with_env h e) k = Js.obj_get k e.
Proof. reflexivity. Qed.

Lemma obj_get_via_delete (k k' : string) (e : Js.obj string) :
  String.eqb k' k = false ->
  Js.obj_get k e = Js.obj_get k (Js.obj_delete k' e).
Proof. intros H. now rewrite obj_get_delete, H. Qed.

(** In [src/src/claudebox.js], with the SSH agent disabled, two hosts that
    differ only in the value (or presence) of [SSH_AUTH_SOCK] get the same
    result from [wrap], and the same effects. *)
Lemma claudebox_wrap_ignores_ssh_auth_sock (h : Host) (e1 e2 : Js.obj string)
  (config : Claudebox.SandboxConfig) (script : string) (st : state) :
  truthy_value (Claudebox.allow config Claudebox.AllowSshAgent) = false ->
  Js.obj_delete "SSH_AUTH_SOCK" e1 = Js.obj_delete "SSH_AUTH_SOCK" e2 ->
  Claudebox.BubblewrapSandbox_wrap (with_env h e1) config script st
  = Claudebox.BubblewrapSandbox_wrap (with_env h e2) config script st.
Proof.
  intros Hssh He.
  unfold Claudebox.BubblewrapSandbox_wrap.
  assert (Hstage : Claudebox.sanitize_ssh_config (with_env h e1) config
                   = Claudebox.sanitize_ssh_config (with_env h e2) config)
    by reflexivity.
  rewrite Hstage. unfold bind.
  destruct (Claudebox.sanitize_ssh_config (with_env h e2) config st)
    as [st1 [sshConfigArgs|e|c]]; try reflexivity.
  f_equal. unfold Claudebox.wrap_result, xdgRuntimeDir_of.
  rewrite Hssh. cbn [andb].
  rewrite !getenv_with_env.
  rewrite (obj_get_via_delete "HOME" "SSH_AUTH_SOCK" e1),
          (obj_get_via_delete "USER" "SSH_AUTH_SOCK" e1),
          (obj_get_via_delete "PATH" "SSH_AUTH_SOCK" e1),
          (obj_get_via_delete "XDG_RUNTIME_DIR" "SSH_AUTH_SOCK" e1),
          (obj_get_via_delete "HOME" "SSH_AUTH_SOCK" e2),
          (obj_get_via_delete "USER" "SSH_AUTH_SOCK" e2),
          (obj_get_via_delete "PATH" "SSH_AUTH_SOCK" e2),
          (obj_get_via_delete "XDG_RUNTIME_DIR" "SSH_AUTH_SOCK" e2)
    by reflexivity.
  cbn [process_env with_env]. rewrite He. reflexivity.
Qed.

(** On the example host, whose [SSH_AUTH_SOCK] is set, with every flag
    off. *)
Lemma claudebox_wrap_hides_ssh_auth_sock_witness :
  exists st' r,
    Claudebox.BubblewrapSandbox_wrap Example.linux
      (Example.claudebox_config (fun _ => Some (Js.JBool false)))
      "exec claude" Example.fresh = (st', Val r)
    /\ getenv Example.linux "SSH_AUTH_SOCK" = Some "/run/user/1000/keyring/ssh"
    /\ Js.obj_get "SSH_AUTH_SOCK" (env r) = None
    /\ ~ In (Some "SSH_AUTH_SOCK") (Bwrap.setenv_vars (args r)).
Proof.
  destruct (Claudebox.BubblewrapSandbox_wrap Example.linux
              (Example.claudebox_config (fun _ => Some (Js.JBool false)))
              "exec claude" Example.fresh) as [st' [r|e|c]] eqn:E;
    [| vm_compute in E; discriminate | vm_compute in E; discriminate].
  exists st', r. split; [reflexivity|]. split; [reflexivity|].
  exact (claudebox_wrap_hides_ssh_auth_sock Example.linux
           (Example.claudebox_config (fun _ => Some (Js.JBool false)))
           "exec claude" Example.fresh st' r eq_refl E).
Defined.

(** The example environment against the same environment with another
    socket path. *)
Lemma claudebox_wrap_ignores_ssh_auth_sock_witness :
  Claudebox.BubblewrapSandbox_wrap (with_env Example.linux Example.penv)
    (Example.claudebox_config (fun _ => Some (Js.JBool false)))
    "exec claude" Example.fresh
  = Claudebox.BubblewrapSandbox_wrap
      (with_env Example.linux
         (("SSH_AUTH_SOCK", "/tmp/other.sock")
            :: Js.obj_delete "SSH_AUTH_SOCK" Example.penv))
      (Example.claudebox_config (fun _ => Some (Js.JBool false)))
      "exec claude" Example.fresh.
Proof.
  apply claudebox_wrap_ignores_ssh_auth_sock; reflexivity.
Defined.

(** In [src/unnamed/part_001], the environment of the result is
    [process.env] itself. *)
Lemma part001_wrap_env (h : Host) (config : Part001.SandboxConfig)
  (script : string) (r : WrapResult) :
  Part001.BubblewrapSandbox_wrap h config script = Ok r ->
  env r = process_env h.
Proof.
  unfold Part001.BubblewrapSandbox_wrap. intros H.
  repeat match type of H with
  | match ?x with Ok _ => _ | Err _ => _ end = _ =>
      destruct x; [|discriminate]
  end.
  now injection H as <-.
Qed.

(** C1, where [src/unnamed/part_001] departs from it.  On the example
    host, whose [SSH_AUTH_SOCK] is [/run/user/1000/keyring/ssh], with every
    capability flag [false]: [wrap] returns an environment that still binds
    [SSH_AUTH_SOCK] to the host's socket path. *)
Theorem part001_wrap_inherits_ssh_auth_sock :
  exists r,
    Part001.BubblewrapSandbox_wrap Example.linux
      (Example.part001_config (fun _ => Some (Js.JBool false)))
      "exec claude"
    = Ok r
    /\ Js.obj_get "SSH_AUTH_SOCK" (env r) = Some "/run/user/1000/keyring/ssh"
    /\ ~ In (Some "SSH_AUTH_SOCK") (Bwrap.setenv_vars (args r)).
Proof.
  eexists. split; [reflexivity|]. split; [reflexivity|].
  cbv. intuition discriminate.
Qed.

(* --------------------------------------------------------------------- *)
(** ** Broad and narrow runtime exposure *)

Lemma part001_broad_supersedes_narrow (h : Host)
  (config : Part001.SandboxConfig) (script : string) (r : WrapResult) :
  truthy_value (Part001.allow config Part001.AllowXdgRuntime) = true ->
  Part001.BubblewrapSandbox_wrap h config script = Ok r ->
  exists r0,
    Part001.BubblewrapSandbox_wrap h (Exposure.part001_runtime_off config) script
    = Ok r0
    /\ cmd r = cmd r0 /\ env r = env r0
    /\ exists pre post,
         args r0 = (pre ++ post)%list
         /\ args r = (pre ++ Exposure.broad_bind h ++ post)%list.
Proof.
  intros Hxdg. unfold Part001.BubblewrapSandbox_wrap.
  cbn [Exposure.part001_runtime_off Part001.allow Part001.claudeHome
       Part001.claudeConfig Part001.claudeJson Part001.shareTree
       Part001.repoRoot truthy_value Js.truthy andb].
  rewrite Hxdg. unfold Exposure.broad_bind.
  destruct (path_join [getenv h "HOME"; Some ".claude"]) as [dotClaude|];
    [|discriminate].
  destruct (path_join [getenv h "HOME"; Some ".claude.json"]) as [dotClaudeJson|];
    [|discriminate].
  match goal with
  | |- match ?g with Ok _ => _ | Err _ => _ end = _ -> _ =>
      destruct g as [gitArgs|]; [|discriminate]
  end.
  cbv zeta.
  match goal with
  | |- context [((?X ++ strs ["--bind"; Part001.repoRoot config;
                              Part001.repoRoot config])%list)] =>
      generalize (X ++ strs ["--bind"; Part001.repoRoot config;
                             Part001.repoRoot config])%list
  end.
  intros X.
  destruct (isDirectory h (xdgRuntimeDir_of h));
    destruct (truthy_value (Part001.allow config Part001.AllowIde));
    try (destruct (path_join [getenv h "HOME"; Some ".claude"; Some "ide"])
           as [ideDir|]; [|discriminate];
         destruct (isDirectory h ideDir));
    intros [= <-]; eexists; (split; [reflexivity|]);
    (split; [reflexivity|]); (split; [reflexivity|]);
    cbn [args strs map]; rewrite <- ?List.app_assoc; cbn [app];
    eexists X, _; split; reflexivity.
Qed.

Lemma claudebox_broad_keeps_ssh_result (h : Host)
  (config : Claudebox.SandboxConfig) (script : string)
  (sshConfigArgs : list (option string)) (r : WrapResult) :
  truthy_value (Claudebox.allow config Claudebox.AllowXdgRuntime) = true ->
  Claudebox.wrap_result h config script sshConfigArgs = Ok r ->
  exists r0,
    Claudebox.wrap_result h (Exposure.claudebox_runtime_off config) script
      sshConfigArgs = Ok r0
    /\ cmd r = cmd r0 /\ env r = env r0
    /\ exists pre post,
         args r0 = (pre ++ post)%list
         /\ args r
            = (pre ++ Exposure.broad_bind h
                   ++ Exposure.rebound_ssh_bind h
                        (Claudebox.allow config Claudebox.AllowSshAgent)
                   ++ post)%list.
Proof.
  intros Hxdg. unfold Claudebox.wrap_result.
  cbn [Exposure.claudebox_runtime_off Claudebox.allow Claudebox.claudeHome
       Claudebox.claudeConfig Claudebox.claudeJson Claudebox.shareTree
       Claudebox.repoRoot truthy_value Js.truthy andb].
  rewrite Hxdg. unfold Exposure.broad_bind, Exposure.rebound_ssh_bind.
  destruct (path_join [getenv h "HOME"; Some ".claude"]) as [dotClaude|];
    [|discriminate].
  destruct (path_join [getenv h "HOME"; Some ".claude.json"]) as [dotClaudeJson|];
    [|discriminate].
  cbv zeta.
  match goal with
  | |- context [((?X ++ strs ["--bind"; Claudebox.repoRoot config;
                              Claudebox.repoRoot config])%list)] =>
      generalize (X ++ strs ["--bind"; Claudebox.repoRoot config;
                             Claudebox.repoRoot config])%list
  end.
  intros X.
  destruct (getenv h "SSH_AUTH_SOCK") as [sock|]; cbn [Js.truthy_str Js.or_else];
    [destruct (String.eqb sock ""); cbn [negb] |];
    rewrite ?andb_false_r; cbn [andb];
    destruct (truthy_value (Claudebox.allow config Claudebox.AllowSshAgent));
    cbn [andb];
    try destruct (pathExists h sock);
    destruct (isDirectory h (xdgRuntimeDir_of h));
    intros [= <-]; eexists; (split; [reflexivity|]);
    (split; [reflexivity|]); (split; [reflexivity|]);
    cbn [args strs map]; rewrite <- ?List.app_assoc; cbn [app];
    eexists X, _; split; reflexivity.
Qed.

Lemma claudebox_broad_keeps_ssh (h : Host)
  (config : Claudebox.SandboxConfig) (script : string) (st st' : state)
  (r : WrapResult) :
  truthy_value (Claudebox.allow config Claudebox.AllowXdgRuntime) = true ->
  Claudebox.BubblewrapSandbox_wrap h config script st = (st', Val r) ->
  exists r0,
    Claudebox.BubblewrapSandbox_wrap h (Exposure.claudebox_runtime_off config)
      script st = (st', Val r0)
    /\ cmd r = cmd r0 /\ env r = env r0
    /\ exists pre post,
         args r0 = (pre ++ post)%list
         /\ args r
            = (pre ++ Exposure.broad_bind h
                   ++ Exposure.rebound_ssh_bind h
                        (Claudebox.allow config Claudebox.AllowSshAgent)
                   ++ post)%list.
Proof.
  intros Hxdg. unfold Claudebox.BubblewrapSandbox_wrap, bind.
  change (Claudebox.sanitize_ssh_config h (Exposure.claudebox_runtime_off config))
    with (Claudebox.sanitize_ssh_config h config).
  destruct (Claudebox.sanitize_ssh_config h config st)
    as [st1 [sshConfigArgs|e|c]]; try discriminate.
  unfold lift.
  destruct (Claudebox.wrap_result h config script sshConfigArgs) as [r'|e] eqn:E;
    [|discriminate].
  intros [= <- <-].
  destruct (claudebox_broad_keeps_ssh_result h config script sshConfigArgs r'
              Hxdg E) as (r0 & E0 & Hrest).
  exists r0. rewrite E0. now split.
Qed.

(** C4 (as amended).  With the broad XDG-runtime flag set, and compared
    with the same configuration with the three runtime-socket flags off:
    in [src/unnamed/part_001], [wrap] adds the broad bind (when the runtime
    directory exists) and nothing else, whatever the narrow flags are; in
    [src/src/claudebox.js], [wrap] adds the broad bind and no GPG bind, and
    after it the SSH-agent bind to the fixed in-sandbox path whenever the
    SSH-agent flag is set and the host socket exists. *)
Theorem broad_runtime_exposure :
  (forall (h : Host) (config : Part001.SandboxConfig) (script : string)
          (r : WrapResult),
     truthy_value (Part001.allow config Part001.AllowXdgRuntime) = true ->
     Part001.BubblewrapSandbox_wrap h config script = Ok r ->
     exists r0,
       Part001.BubblewrapSandbox_wrap h (Exposure.part001_runtime_off config)
         script = Ok r0
       /\ cmd r = cmd r0 /\ env r = env r0
       /\ exists pre post,
            args r0 = (pre ++ post)%list
            /\ args r = (pre ++ Exposure.broad_bind h ++ post)%list)
  /\ (forall (h : Host) (config : Claudebox.SandboxConfig) (script : string)
             (st st' : state) (r : WrapResult),
        truthy_value (Claudebox.allow config Claudebox.AllowXdgRuntime) = true ->
        Claudebox.BubblewrapSandbox_wrap h config script st = (st', Val r) ->
        exists r0,
          Claudebox.BubblewrapSandbox_wrap h
            (Exposure.claudebox_runtime_off config) script st = (st', Val r0)
          /\ cmd r = cmd r0 /\ env r = env r0
          /\ exists pre post,
               args r0 = (pre ++ post)%list
               /\ args r
                  = (pre ++ Exposure.broad_bind h
                         ++ Exposure.rebound_ssh_bind h
                              (Claudebox.allow config Claudebox.AllowSshAgent)
                         ++ post)%list).
Proof.
  split.
  - exact part001_broad_supersedes_narrow.
  - exact claudebox_broad_keeps_ssh.
Qed.

(** On the example host, with all three runtime flags set in
    [src/unnamed/part_001]: the arguments are those of the configuration
    with the flags off, plus the broad bind. *)
Lemma broad_runtime_exposure_witness :
  exists r r0 pre post,
    Part001.BubblewrapSandbox_wrap Example.linux
      (Example.part001_config (fun _ => Some (Js.JBool true)))
      "exec claude" = Ok r
    /\ args r0 = (pre ++ post)%list
    /\ args r
       = (pre ++ strs ["--ro-bind"; "/run/user/1000"; "/run/user/1000";
                       "--setenv"; "XDG_RUNTIME_DIR"; "/run/user/1000"]
              ++ post)%list.
Proof.
  destruct (Part001.BubblewrapSandbox_wrap Example.linux
              (Example.part001_config (fun _ => Some (Js.JBool true)))
              "exec claude") as [r|e] eqn:E; [|vm_compute in E; discriminate].
  destruct (proj1 broad_runtime_exposure Example.linux
              (Example.part001_config (fun _ => Some (Js.JBool true)))
              "exec claude" r eq_refl E)
    as (r0 & _ & _ & _ & pre & post & H0 & H).
  exists r, r0, pre, post. repeat split; assumption.
Defined.

(** C4 as stated fails in [src/src/claudebox.js]: with the broad flag and
    the SSH-agent flag both set, the arguments hold the narrow SSH-agent
    socket bind and its [--setenv]. *)
Lemma claudebox_broad_flag_still_binds_ssh_socket :
  exists st' r,
    Claudebox.BubblewrapSandbox_wrap Example.linux
      (Example.claudebox_config
         (fun f => match f with
                   | Claudebox.AllowGpgAgent => Some (Js.JBool false)
                   | _ => Some (Js.JBool true)
                   end))
      "exec claude" Example.fresh = (st', Val r)
    /\ In (Bwrap.RoBind (Some "/run/user/1000") (Some "/run/user/1000"))
          (Bwrap.entries (args r))
    /\ In (Bwrap.Bind (Some "/run/user/1000/keyring/ssh")
                      (Some "/tmp/ssh-agent.sock"))
          (Bwrap.entries (args r))
    /\ In (Bwrap.Setenv (Some "SSH_AUTH_SOCK") (Some "/tmp/ssh-agent.sock"))
          (Bwrap.entries (args r)).
Proof.
  eexists _, _. split; [reflexivity|].
  cbv. intuition.
Qed.

(* --------------------------------------------------------------------- *)
(** ** [SeatbeltSandbox.wrap] *)

(** The generated policy, read as a profile: its writable clauses. *)
Lemma dynamicPolicy_rules (canonicalTmpdir canonicalSlashTmp : string) :
  exists l,
    Sbpl.rules
      (Seatbelt.dynamicPolicy
         (Seatbelt.writablePaths canonicalTmpdir canonicalSlashTmp))
    = Some l
    /\ Sbpl.writable_clauses l
       = ([Sbpl.subpath_param "PROJECT_DIR"; Sbpl.subpath_param "TMPDIR"]
          ++ (if String.eqb canonicalTmpdir canonicalSlashTmp then []
              else [Sbpl.subpath_param "SLASH_TMP"]))%list.
Proof.
  unfold Seatbelt.writablePaths.
  destruct (String.eqb canonicalTmpdir canonicalSlashTmp); cbn [negb];
    eexists; split; vm_compute; reflexivity.
Qed.

(** C8.  Whenever [SeatbeltSandbox.wrap] returns, for the canonical temp
    directory and the canonical [/tmp] it computed: the profile handed to
    [sandbox-exec] is the base profile read from the file, a newline and a
    generated part; read as a profile, the generated part makes writable
    the [PROJECT_DIR] and [TMPDIR] parameters and, if and only if the two
    canonical paths differ, the [SLASH_TMP] parameter; and the parameter
    definitions hold [SLASH_TMP] under the same condition, as the canonical
    [/tmp]. *)
Theorem seatbelt_slash_tmp (h : Host) (repoRoot script : string)
  (r : WrapResult) :
  Seatbelt.wrap h repoRoot script = Ok r ->
  exists profile basePolicy canonicalTmpdir canonicalSlashTmp generated rules,
    getenv h "CLAUDEBOX_SEATBELT_PROFILE" = Some profile
    /\ fs_readFileSync h profile = Ok basePolicy
    /\ fs_realpathSync h (getTmpDir h) = Ok canonicalTmpdir
    /\ fs_realpathSync h "/tmp" = Ok canonicalSlashTmp
    /\ Seatbelt.profile_string (args r) = Some (basePolicy ++ nl ++ generated)
    /\ Sbpl.rules generated = Some rules
    /\ Sbpl.writable_clauses rules
       = ([Sbpl.subpath_param "PROJECT_DIR"; Sbpl.subpath_param "TMPDIR"]
          ++ (if String.eqb canonicalTmpdir canonicalSlashTmp then []
              else [Sbpl.subpath_param "SLASH_TMP"]))%list
    /\ (In (Sbpl.subpath_param "SLASH_TMP") (Sbpl.writable_clauses rules)
        <-> canonicalTmpdir <> canonicalSlashTmp)
    /\ Js.obj_get "SLASH_TMP" (Seatbelt.params (args r))
       = (if String.eqb canonicalTmpdir canonicalSlashTmp then None
          else Some canonicalSlashTmp)
    /\ Js.obj_get "TMPDIR" (Seatbelt.params (args r)) = Some canonicalTmpdir.
Proof.
  unfold Seatbelt.wrap. intros H.
  destruct (getenv h "CLAUDEBOX_SEATBELT_PROFILE") as [profile|]; [|discriminate].
  destruct (String.eqb profile "" || negb (pathExists h profile)); [discriminate|].
  destruct (fs_readFileSync h profile) as [basePolicy|] eqn:Ebase; [|discriminate].
  destruct (fs_realpathSync h repoRoot) as [canonicalRepoRoot|]; [|discriminate].
  destruct (fs_realpathSync h (getTmpDir h)) as [canonicalTmpdir|]; [|discriminate].
  destruct (fs_realpathSync h "/tmp") as [canonicalSlashTmp|]; [|discriminate].
  injection H as <-.
  destruct (dynamicPolicy_rules canonicalTmpdir canonicalSlashTmp)
    as (l & Hl & Hw).
  exists profile, basePolicy, canonicalTmpdir, canonicalSlashTmp,
    (Seatbelt.dynamicPolicy
       (Seatbelt.writablePaths canonicalTmpdir canonicalSlashTmp)), l.
  split; [reflexivity|]. split; [exact Ebase|].
  split; [reflexivity|]. split; [reflexivity|].
  split; [now destruct (String.eqb canonicalTmpdir canonicalSlashTmp)|].
  split; [exact Hl|]. split; [exact Hw|].
  split.
  - rewrite Hw.
    destruct (String.eqb_spec canonicalTmpdir canonicalSlashTmp) as [E|E];
      cbn [app In]; split; intros H.
    + exfalso. destruct H as [H|[H|[]]]; discriminate.
    + contradiction.
    + exact E.
    + right; right; now left.
  - destruct (String.eqb canonicalTmpdir canonicalSlashTmp); split; reflexivity.
Qed.

(** On the macOS example host the temp directory is a per-user one: the
    generated part of the profile makes [SLASH_TMP] writable, and the
    parameter is defined as the canonical [/tmp]. *)
Lemma seatbelt_slash_tmp_witness :
  exists r generated rules,
    Seatbelt.wrap Example.darwin "/Users/u/work/repo" "exec claude" = Ok r
    /\ Seatbelt.profile_string (args r)
       = Some ("(version 1)" ++ nl ++ generated)
    /\ Sbpl.rules generated = Some rules
    /\ In (Sbpl.subpath_param "SLASH_TMP") (Sbpl.writable_clauses rules)
    /\ Js.obj_get "SLASH_TMP" (Seatbelt.params (args r)) = Some "/private/tmp".
Proof.
  destruct (Seatbelt.wrap Example.darwin "/Users/u/work/repo" "exec claude")
    as [r|e] eqn:E; [|vm_compute in E; discriminate].
  destruct (seatbelt_slash_tmp Example.darwin _ _ r E)
    as (p & b & t & s & g & l & Hp & Hb & Ht & Hs & Hprof & Hl & _ & Hin
        & Hparam & _).
  vm_compute in Hp. injection Hp as <-.
  vm_compute in Hb. injection Hb as <-.
  vm_compute in Ht, Hs. injection Ht as <-. injection Hs as <-.
  exists r, g, l. split; [reflexivity|]. split; [exact Hprof|].
  split; [exact Hl|]. split; [|exact Hparam].
  apply Hin. discriminate.
Defined.

(** When the temp directory is [/tmp] itself, the clause and the parameter
    are left out. *)
Example seatbelt_tmp_is_slash_tmp :
  exists r,
    Seatbelt.wrap Example.darwin_tmp "/Users/u/work/repo" "exec claude" = Ok r
    /\ Js.obj_get "SLASH_TMP" (Seatbelt.params (args r)) = None
    /\ Js.obj_get "TMPDIR" (Seatbelt.params (args r)) = Some "/private/tmp"
    /\ match Seatbelt.profile_string (args r) with
       | Some policy => Js.includes policy "SLASH_TMP" = false
       | None => False
       end.
Proof. eexists. repeat split. Qed.

(* --------------------------------------------------------------------- *)
(** ** Session cleanup *)

Lemma rm_node_Dir (parent_writable w : bool) (es : list (string * SessFs.node)) :
  SessFs.rm_node parent_writable (SessFs.Dir w es)
  = match SessFs.rm_entries w es with
    | [] => if parent_writable then None else Some (SessFs.Dir w [])
    | remaining => Some (SessFs.Dir w remaining)
    end.
Proof. reflexivity. Qed.

Lemma rm_entries_cons (w : bool) (k : string) (c : SessFs.node)
  (es : list (string * SessFs.node)) :
  SessFs.rm_entries w ((k, c) :: es)
  = match SessFs.rm_node w c with
    | None => SessFs.rm_entries w es
    | Some c' => (k, c') :: es
    end.
Proof. reflexivity. Qed.

(** What a failed removal leaves behind cannot be removed either, and is
    left as it is. *)
Lemma rm_node_residual (n : SessFs.node) :
  forall parent_writable r,
    SessFs.rm_node parent_writable n = Some r ->
    SessFs.rm_node parent_writable r = Some r.
Proof.
  induction n as [content | w es IH] using node_induction;
    intros pw r H.
  - simpl in H. destruct pw; [discriminate|]. injection H as <-. reflexivity.
  - rewrite rm_node_Dir in H.
    assert (Hes : forall left, SessFs.rm_entries w es = left ->
                               SessFs.rm_entries w left = left).
    { clear H. induction IH as [|[k c] es' Hc _ IHes]; intros left E.
      - simpl in E. now subst.
      - rewrite rm_entries_cons in E.
        destruct (SessFs.rm_node w c) as [c'|] eqn:Ec.
        + subst left. rewrite rm_entries_cons.
          simpl in Hc. now rewrite (Hc w c' Ec).
        + now apply IHes. }
    destruct (SessFs.rm_entries w es) as [|e left] eqn:E.
    + destruct pw; [discriminate|]. injection H as <-. reflexivity.
    + injection H as <-. rewrite rm_node_Dir.
      now rewrite (Hes (e :: left) eq_refl).
Qed.

(** A tree whose directories are all writable goes away entirely. *)
Lemma rm_node_all_writable (n : SessFs.node) :
  SessFs.all_writable n = true -> SessFs.rm_node true n = None.
Proof.
  induction n as [content | w es IH] using node_induction; intros H.
  - reflexivity.
  - change (SessFs.all_writable (SessFs.Dir w es))
      with (w && SessFs.entries_writable es) in H.
    apply andb_true_iff in H as [-> Hes].
    rewrite rm_node_Dir.
    assert (E : SessFs.rm_entries true es = []).
    { induction IH as [|[k c] es' Hc _ IHes]; [reflexivity|].
      change (SessFs.entries_writable ((k, c) :: es'))
        with (SessFs.all_writable c && SessFs.entries_writable es') in Hes.
      apply andb_true_iff in Hes as [Hc' Hes'].
      rewrite rm_entries_cons. simpl in Hc. rewrite (Hc Hc').
      now apply IHes. }
    now rewrite E.
Qed.

(** [fs.rmSync] on the session directory: running it again changes
    nothing more, and fails again if it failed. *)
Lemma rmSync_idempotent (s : SessFs.t) :
  SessFs.rmSync (fst (SessFs.rmSync s)) = SessFs.rmSync s.
Proof.
  unfold SessFs.rmSync. destruct s as [tw [n|]]; cbn [SessFs.session SessFs.tmp_writable].
  - destruct (SessFs.rm_node tw n) as [r|] eqn:E; cbn; [|reflexivity].
    now rewrite (rm_node_residual n tw r E).
  - reflexivity.
Qed.

Lemma rmSync_removable (s : SessFs.t) :
  SessFs.removable s = true -> SessFs.session (fst (SessFs.rmSync s)) = None.
Proof.
  unfold SessFs.removable, SessFs.rmSync.
  destruct s as [tw [n|]]; cbn [SessFs.session SessFs.tmp_writable]; [|reflexivity].
  intros H. apply andb_true_iff in H as [-> Hn].
  now rewrite (rm_node_all_writable n Hn).
Qed.

(** The state [cleanup] leaves: the trace records the call, the session
    directory is what [fs.rmSync] made of it, and nothing is thrown. *)
Lemma cleanup_run (claudeHome : string) (st : state) :
  cleanup claudeHome st
  = (mkState (fst (SessFs.rmSync (fs st))) (trace st ++ [EvRm claudeHome]),
     Val tt).
Proof.
  unfold cleanup, try_catch, bind, emit, on_session, ret.
  cbn [fs trace].
  destruct (SessFs.rmSync (fs st)) as [s' [e|]]; reflexivity.
Qed.

Lemma cleanups_fs (claudeHome : string) (n : nat) (st : state) :
  fs (cleanups claudeHome (S n) st) = fs (fst (cleanup claudeHome st)).
Proof.
  revert st; induction n as [|n IH]; intros st; [reflexivity|].
  change (cleanups claudeHome (S (S n)) st)
    with (cleanups claudeHome (S n) (fst (cleanup claudeHome st))).
  rewrite IH. rewrite !cleanup_run. cbn [fst fs].
  now rewrite rmSync_idempotent.
Qed.

(** C9 (as amended).  [cleanup] never throws and never exits, whatever the
    state of the session directory; calling it any number of times leaves
    the directory as one call does; an absent directory stays absent; and
    when nothing stands in the way of the removal (the temp root and every
    directory of the tree are writable) no session directory remains. *)
Theorem cleanup_idempotent (claudeHome : string) (st : state) :
  (exists st', cleanup claudeHome st = (st', Val tt))
  /\ (forall n, fs (cleanups claudeHome (S n) st)
                = fs (fst (cleanup claudeHome st)))
  /\ (SessFs.session (fs st) = None ->
      fs (fst (cleanup claudeHome st)) = fs st)
  /\ (SessFs.removable (fs st) = true ->
      forall n, SessFs.session (fs (cleanups claudeHome (S n) st)) = None).
Proof.
  split; [|split; [|split]].
  - rewrite cleanup_run. eauto.
  - intros n. apply cleanups_fs.
  - intros H. rewrite cleanup_run. cbn [fst fs].
    unfold SessFs.rmSync. now rewrite H.
  - intros H n. rewrite cleanups_fs, cleanup_run. cbn [fst fs].
    now apply rmSync_removable.
Qed.

(** A session directory with a cache and a file: two calls of [cleanup]
    leave nothing. *)
Lemma cleanup_idempotent_witness :
  SessFs.session
    (fs (cleanups "/tmp/claudebox-01234567" 2
           (mkState
              (SessFs.mk true
                 (Some (SessFs.Dir true
                          [(".cache", SessFs.Dir true [("log", SessFs.File "x")]);
                           ("ssh_config", SessFs.File "")])))
              [])))
  = None.
Proof.
  apply (proj2 (proj2 (proj2 (cleanup_idempotent "/tmp/claudebox-01234567" _)))).
  reflexivity.
Defined.

(** C9 as stated fails: when the sandboxed process has left a directory it
    made read-only, [fs.rmSync] throws, [cleanup] swallows the error, and
    the session directory remains, after one call and after two. *)
Lemma cleanup_leaves_unwritable_directory :
  let st :=
    mkState
      (SessFs.mk true
         (Some (SessFs.Dir true
                  [("ssh_config", SessFs.File "");
                   (".cache", SessFs.Dir false [("log", SessFs.File "x")]);
                   (".bashrc", SessFs.File "")])))
      [] in
  SessFs.session (fs (cleanups "/tmp/claudebox-01234567" 1 st))
  = Some (SessFs.Dir true
            [(".cache", SessFs.Dir false [("log", SessFs.File "x")]);
             (".bashrc", SessFs.File "")])
  /\ SessFs.session (fs (cleanups "/tmp/claudebox-01234567" 2 st))
     = SessFs.session (fs (cleanups "/tmp/claudebox-01234567" 1 st)).
Proof. split; reflexivity. Qed.

(* --------------------------------------------------------------------- *)
(** ** IDE token selection *)

Section IdeToken.
Import Part001.

Lemma insert_newest_first_perm (x : lock) (l : list lock) :
  Permutation (insert_newest_first x l) (x :: l).
Proof.
  induction l as [|y l IH]; simpl; [reflexivity|].
  destruct (mtime x <? mtime y)%Z; [|reflexivity].
  rewrite IH. apply perm_swap.
Qed.

Lemma sort_newest_first_perm (l : list lock) :
  Permutation (sort_newest_first l) l.
Proof.
  induction l as [|x l IH]; simpl; [reflexivity|].
  rewrite insert_newest_first_perm. now constructor.
Qed.

Lemma insert_newest_first_sorted (x : lock) (l : list lock) :
  StronglySorted newer_or_same l ->
  StronglySorted newer_or_same (insert_newest_first x l).
Proof.
  induction 1 as [|y l Hl IH Hy]; simpl.
  - repeat constructor.
  - destruct (Z.ltb_spec (mtime x) (mtime y)) as [Hlt|Hge].
    + constructor; [assumption|].
      apply (@Permutation_Forall _ _ (x :: l)).
      * symmetry. apply insert_newest_first_perm.
      * constructor; [unfold newer_or_same; lia | assumption].
    + constructor; [now constructor|].
      constructor; [exact Hge|].
      eapply Forall_impl; [|exact Hy].
      unfold newer_or_same. intros z Hz. lia.
Qed.

Lemma sort_newest_first_sorted (l : list lock) :
  StronglySorted newer_or_same (sort_newest_first l).
Proof.
  induction l as [|x l IH]; simpl; [constructor|].
  now apply insert_newest_first_sorted.
Qed.

Variable h : Host.
Variable ideDir : string.

(** The first token met in a list sorted newest first comes from a file
    that no token-bearing file of the list is newer than. *)
Lemma scan_sorted_newest (l : list lock) :
  StronglySorted newer_or_same l ->
  match scan_sorted h ideDir l with
  | Some tok =>
      exists x, In x l
                /\ token_of h (lock_path ideDir (name x)) = Some tok
                /\ forall y, In y l ->
                             token_of h (lock_path ideDir (name y)) <> None ->
                             (mtime y <= mtime x)%Z
  | None => forall x, In x l -> token_of h (lock_path ideDir (name x)) = None
  end.
Proof.
  induction 1 as [|f l Hl IH Hf]; simpl.
  - intros x [].
  - fold (lock_path ideDir (name f)).
    destruct (token_of h (lock_path ideDir (name f))) as [tok|] eqn:Ef.
    + exists f. split; [now left|]. split; [assumption|].
      intros y [<-|Hy] _; [lia|].
      rewrite Forall_forall in Hf. exact (Hf y Hy).
    + destruct (scan_sorted h ideDir l) as [tok|].
      * destruct IH as (x & Hx & Htok & Hmax).
        exists x. split; [now right|]. split; [assumption|].
        intros y [<-|Hy] Hy'; [congruence | now apply Hmax].
      * intros x [<-|Hx]; [assumption | now apply IH].
Qed.

(** [stat_all] succeeds when every file can be stat'ed, and then pairs
    every name with its modification time. *)
Lemma stat_all_ok (names : list string) :
  (forall f, In f names -> exists st, fs_statSync h (lock_path ideDir f) = Ok st) ->
  exists files,
    stat_all h ideDir names = Ok files
    /\ forall x, In x files <->
                 exists st, In (name x) names
                            /\ fs_statSync h (lock_path ideDir (name x)) = Ok st
                            /\ mtime x = st_mtimeMs st.
Proof.
  induction names as [|f names IH]; intros Hstat.
  - exists []. split; [reflexivity|]. intros x. split; [intros [] | now intros (? & [] & _)].
  - destruct (Hstat f (or_introl eq_refl)) as [st Est].
    destruct IH as (files & Efiles & Hfiles).
    { intros g Hg. apply Hstat. now right. }
    exists (mkLock f (st_mtimeMs st) :: files). split.
    + cbn [stat_all]. fold (lock_path ideDir f). now rewrite Est, Efiles.
    + intros x. split.
      * intros [<-|Hx].
        -- exists st. cbn. auto.
        -- apply Hfiles in Hx as (st' & Hin & Hst & Hm).
           exists st'. split; [now right | auto].
      * intros (st' & [Hf|Hin] & Hst & Hm).
        -- left. destruct x as [n m]. cbn in *. subst n.
           rewrite Est in Hst. injection Hst as <-. now subst m.
        -- right. apply Hfiles. eauto.
Qed.

(** The fallback of [readIdeAuthToken], when the directory can be listed
    and every candidate can be stat'ed. *)
Lemma scan_directory_newest (names : list string) :
  fs_readdirSync h ideDir = Ok names ->
  (forall f, In f (filter is_lock_name names) ->
             exists st, fs_statSync h (lock_path ideDir f) = Ok st) ->
  match scan_directory h ideDir with
  | Some tok =>
      exists f st,
        In f (filter is_lock_name names)
        /\ fs_statSync h (lock_path ideDir f) = Ok st
        /\ token_of h (lock_path ideDir f) = Some tok
        /\ forall g st',
             In g (filter is_lock_name names) ->
             fs_statSync h (lock_path ideDir g) = Ok st' ->
             token_of h (lock_path ideDir g) <> None ->
             (st_mtimeMs st' <= st_mtimeMs st)%Z
  | None =>
      forall f, In f (filter is_lock_name names) ->
                token_of h (lock_path ideDir f) = None
  end.
Proof.
  intros Edir Hstat. unfold scan_directory. rewrite Edir.
  destruct (stat_all_ok _ Hstat) as (files & -> & Hfiles).
  pose proof (scan_sorted_newest _ (sort_newest_first_sorted files)) as Hscan.
  assert (Hin : forall x, In x (sort_newest_first files) <-> In x files).
  { intros x. split; apply Permutation_in;
      [apply sort_newest_first_perm | symmetry; apply sort_newest_first_perm]. }
  destruct (scan_sorted h ideDir (sort_newest_first files)) as [tok|].
  - destruct Hscan as (x & Hx & Htok & Hmax).
    apply Hin, Hfiles in Hx as (st & Hname & Hst & Hm).
    exists (name x), st. repeat split; try assumption.
    intros g st' Hg Hst' Htok'.
    rewrite <- Hm.
    apply (Hmax (mkLock g (st_mtimeMs st'))); [|exact Htok'].
    apply Hin, Hfiles. exists st'. cbn. auto.
  - intros f Hf. destruct (Hstat f Hf) as [st Hst].
    apply (Hscan (mkLock f (st_mtimeMs st))).
    apply Hin, Hfiles. exists st. cbn. auto.
Qed.

End IdeToken.

(** Token selection in [src/unnamed/part_001], where every candidate can be
    stat'ed.  When the IDE directory exists: a numeric port hint
    selects the token of [<port>.lock], or else of [<port>], when that file
    exists, parses and holds a truthy token; without a usable hint, and
    provided the directory can be listed and every candidate can be
    stat'ed, the token returned is that of a candidate which parses and
    holds a truthy token and which no other such candidate is newer than,
    and no token is returned only when no candidate yields one; and when no
    token is returned, [main] prints its warning and goes on. *)
Theorem ide_token_selection (h : Host) (home : string) :
  getenv h "HOME" = Some home ->
  isDirectory h (Path.join [home; ".claude"; "ide"]) = true ->
  (forall port tok,
     getenv h "CLAUDE_CODE_SSE_PORT" = Some port ->
     Js.all_digits port = true ->
     Part001.hinted_token_of h
       (Part001.lock_path (Path.join [home; ".claude"; "ide"]) (port ++ ".lock"))
     = Some tok
     \/ (Part001.hinted_token_of h
           (Part001.lock_path (Path.join [home; ".claude"; "ide"]) (port ++ ".lock"))
         = None
         /\ Part001.hinted_token_of h
              (Part001.lock_path (Path.join [home; ".claude"; "ide"]) port)
            = Some tok) ->
     Part001.readIdeAuthToken h = Ok (Some tok))
  /\ (forall names,
        (forall port,
           getenv h "CLAUDE_CODE_SSE_PORT" = Some port ->
           Js.all_digits port = true ->
           Part001.hinted_token_of h
             (Part001.lock_path (Path.join [home; ".claude"; "ide"])
                (port ++ ".lock")) = None
           /\ Part001.hinted_token_of h
                (Part001.lock_path (Path.join [home; ".claude"; "ide"]) port)
              = None) ->
        fs_readdirSync h (Path.join [home; ".claude"; "ide"]) = Ok names ->
        (forall f, In f (filter Part001.is_lock_name names) ->
                   exists st,
                     fs_statSync h
                       (Part001.lock_path (Path.join [home; ".claude"; "ide"]) f)
                     = Ok st) ->
        match Part001.readIdeAuthToken h with
        | Ok (Some tok) =>
            exists f st,
              In f (filter Part001.is_lock_name names)
              /\ fs_statSync h
                   (Part001.lock_path (Path.join [home; ".claude"; "ide"]) f)
                 = Ok st
              /\ Part001.token_of h
                   (Part001.lock_path (Path.join [home; ".claude"; "ide"]) f)
                 = Some tok
              /\ forall g st',
                   In g (filter Part001.is_lock_name names) ->
                   fs_statSync h
                     (Part001.lock_path (Path.join [home; ".claude"; "ide"]) g)
                   = Ok st' ->
                   Part001.token_of h
                     (Part001.lock_path (Path.join [home; ".claude"; "ide"]) g)
                   <> None ->
                   (st_mtimeMs st' <= st_mtimeMs st)%Z
        | Ok None =>
            forall f, In f (filter Part001.is_lock_name names) ->
                      Part001.token_of h
                        (Part001.lock_path (Path.join [home; ".claude"; "ide"]) f)
                      = None
        | Err _ => False
        end)
  /\ (forall (options : Part001.Options) (st : state),
        truthy_value (options Part001.AllowIde) = true ->
        Part001.readIdeAuthToken h = Ok None ->
        Part001.stage_ide_token h options st
        = (mkState (fs st) (trace st ++ [EvError Part001.no_token_warning]),
           Val None)).
Proof.
  intros Hhome Hdir.
  set (ideDir := Path.join [home; ".claude"; "ide"]) in *.
  split; [|split].
  - intros port tok Hport Hdigits Htok.
    unfold Part001.readIdeAuthToken. rewrite Hhome. fold ideDir.
    rewrite Hdir, Hport, Hdigits. cbn [negb andb].
    unfold Js.all_digits in Hdigits. apply andb_true_iff in Hdigits as [-> _].
    cbn [Part001.scan_hinted].
    fold (Part001.lock_path ideDir (port ++ ".lock")).
    fold (Part001.lock_path ideDir port).
    destruct Htok as [-> | [-> ->]]; reflexivity.
  - intros names Hhint Edir Hstat.
    unfold Part001.readIdeAuthToken. rewrite Hhome. fold ideDir.
    rewrite Hdir. cbn [negb].
    assert (Hnone :
      match getenv h "CLAUDE_CODE_SSE_PORT" with
      | Some port =>
          if negb (port =? "") && Js.all_digits port
          then Part001.scan_hinted h ideDir [port ++ ".lock"; port]
          else None
      | None => None
      end = None).
    { destruct (getenv h "CLAUDE_CODE_SSE_PORT") as [port|]; [|reflexivity].
      destruct (Js.all_digits port) eqn:Hd; [|now rewrite andb_false_r].
      destruct (Hhint port eq_refl Hd) as [H1 H2].
      destruct (negb (port =? "")); [|reflexivity]. cbn.
      fold (Part001.lock_path ideDir (port ++ ".lock")).
      fold (Part001.lock_path ideDir port).
      now rewrite H1, H2. }
    rewrite Hnone.
    pose proof (scan_directory_newest h ideDir names Edir Hstat) as H.
    destruct (Part001.scan_directory h ideDir); exact H.
  - intros options st Hide Hnone.
    unfold Part001.stage_ide_token. rewrite Hide, Hnone. reflexivity.
Qed.

(** The spec's example: three parseable lock files with modification times
    1000, 3000 and 2000 and no port hint; the token of the file with 3000
    is selected. *)
Lemma ide_token_selection_witness :
  Part001.readIdeAuthToken Example.linux_ide = Ok (Some (Js.JStr "token-2"))
  /\ exists f st,
       fs_statSync Example.linux_ide (Part001.lock_path Example.ide_dir f) = Ok st
       /\ Part001.token_of Example.linux_ide (Part001.lock_path Example.ide_dir f)
          = Some (Js.JStr "token-2")
       /\ st_mtimeMs st = 3000%Z.
Proof.
  split; [reflexivity|].
  pose proof (proj1 (proj2 (ide_token_selection Example.linux_ide "/home/u"
                              eq_refl eq_refl))
                ["41001.lock"; "41002.lock"; "41003.lock"; "notes.txt"]) as H.
  change (Part001.readIdeAuthToken Example.linux_ide)
    with (@Ok (option Js.json) (Some (Js.JStr "token-2"))) in H.
  cbv beta iota in H.
  destruct H as (f & st & Hin & Hst & Htok & Hmax).
  - intros port E. vm_compute in E. discriminate.
  - reflexivity.
  - intros f Hf. vm_compute in Hf.
    destruct Hf as [<-|[<-|[<-|[]]]]; eexists; reflexivity.
  - exists f, st. split; [exact Hst|]. split; [exact Htok|].
    vm_compute in Hin.
    destruct Hin as [<-|[<-|[<-|[]]]]; vm_compute in Htok, Hst;
      try discriminate.
    now injection Hst as <-.
Defined.

(** A port hint wins over modification times. *)
Example ide_token_hint_first :
  Part001.readIdeAuthToken Example.linux_ide_hinted
  = Ok (Some (Js.JStr "token-1")).
Proof. reflexivity. Qed.

(** One candidate that cannot be stat'ed makes the [map] throw. *)
Lemma stat_all_fails (h : Host) (ideDir : string) (names : list string)
  (f : string) (e : error) :
  In f names ->
  fs_statSync h (Part001.lock_path ideDir f) = Err e ->
  exists e', Part001.stat_all h ideDir names = Err e'.
Proof.
  intros Hin Hf. induction names as [|g names IH]; [destruct Hin|].
  cbn [Part001.stat_all]. fold (Part001.lock_path ideDir g).
  destruct (fs_statSync h (Part001.lock_path ideDir g)) as [st|e1] eqn:Eg;
    [|eauto].
  destruct Hin as [->|Hin]; [congruence|].
  destruct (IH Hin) as [e' ->]. eauto.
Qed.

(** On every host: without a token from the port hint, one entry named
    like a lock file that cannot be stat'ed is enough for [null], whatever
    the other candidates hold. *)
Lemma stat_failure_abandons_fallback (h : Host) (home : string)
  (names : list string) (f : string) (e : error) :
  getenv h "HOME" = Some home ->
  isDirectory h (Path.join [home; ".claude"; "ide"]) = true ->
  (forall port,
     getenv h "CLAUDE_CODE_SSE_PORT" = Some port ->
     Js.all_digits port = true ->
     Part001.hinted_token_of h
       (Part001.lock_path (Path.join [home; ".claude"; "ide"])
          (port ++ ".lock")) = None
     /\ Part001.hinted_token_of h
          (Part001.lock_path (Path.join [home; ".claude"; "ide"]) port)
        = None) ->
  fs_readdirSync h (Path.join [home; ".claude"; "ide"]) = Ok names ->
  In f (filter Part001.is_lock_name names) ->
  fs_statSync h (Part001.lock_path (Path.join [home; ".claude"; "ide"]) f)
  = Err e ->
  Part001.readIdeAuthToken h = Ok None.
Proof.
  intros Hhome Hdir Hhint Edir Hin Hf.
  set (ideDir := Path.join [home; ".claude"; "ide"]) in *.
  unfold Part001.readIdeAuthToken. rewrite Hhome. fold ideDir.
  rewrite Hdir. cbn [negb].
  assert (Hnone :
    match getenv h "CLAUDE_CODE_SSE_PORT" with
    | Some port =>
        if negb (port =? "") && Js.all_digits port
        then Part001.scan_hinted h ideDir [port ++ ".lock"; port]
        else None
    | None => None
    end = None).
  { destruct (getenv h "CLAUDE_CODE_SSE_PORT") as [port|]; [|reflexivity].
    destruct (Js.all_digits port) eqn:Hd; [|now rewrite andb_false_r].
    destruct (Hhint port eq_refl Hd) as [H1 H2].
    destruct (negb (port =? "")); [|reflexivity]. cbn.
    fold (Part001.lock_path ideDir (port ++ ".lock")).
    fold (Part001.lock_path ideDir port).
    now rewrite H1, H2. }
  rewrite Hnone. unfold Part001.scan_directory. rewrite Edir.
  now destruct (stat_all_fails h ideDir _ f e Hin Hf) as [e' ->].
Qed.

(** C5, where [src/unnamed/part_001] departs from it.  On the example host
    whose IDE directory holds three lock files that parse and hold a token,
    and one more entry named like a lock file that cannot be stat'ed (a
    dangling link, or a lock file removed by its editor between the listing
    and the stat), and without a port hint: no token is returned, where the
    claim gives the token of the newest candidate. *)
Lemma ide_token_lost_when_stat_fails :
  Part001.readIdeAuthToken Example.linux_ide_dangling = Ok None
  /\ getenv Example.linux_ide_dangling "CLAUDE_CODE_SSE_PORT" = None
  /\ fs_readdirSync Example.linux_ide_dangling Example.ide_dir
     = Ok ["41001.lock"; "41002.lock"; "41003.lock"; "40000.lock"]
  /\ Part001.token_of Example.linux_ide_dangling
       (Part001.lock_path Example.ide_dir "41002.lock")
     = Some (Js.JStr "token-2")
  /\ fs_statSync Example.linux_ide_dangling
       (Part001.lock_path Example.ide_dir "40000.lock")
     = Err SessFs.ENOENT.
Proof. repeat split. Qed.

(* --------------------------------------------------------------------- *)
(** ** What a computation records, and how it exits *)

Section Respects.
Variable keep : event -> bool.
Variable codes : Z -> Prop.

Lemma respects_ret {A : Type} (a : A) : respects keep codes (ret a).
Proof. intros st st' o [= <- <-]. now split. Qed.

Lemma respects_throw {A : Type} (e : error) :
  respects keep codes (@throw A e).
Proof. intros st st' o [= <- <-]. now split. Qed.

Lemma respects_exit {A : Type} (c : Z) :
  codes c -> respects keep codes (@process_exit A c).
Proof. intros Hc st st' o [= <- <-]. now split. Qed.

Lemma respects_lift {A : Type} (r : res A) : respects keep codes (lift r).
Proof. destruct r; [apply respects_ret | apply respects_throw]. Qed.

Lemma respects_check (r : option error) : respects keep codes (check r).
Proof. destruct r; [apply respects_throw | apply respects_ret]. Qed.

Lemma respects_emit (e : event) :
  keep e = false -> respects keep codes (emit e).
Proof.
  intros He st st' o [= <- <-]. split; [|exact I].
  unfold kept. cbn [trace]. rewrite filter_app. cbn [filter].
  rewrite He. apply List.app_nil_r.
Qed.

Lemma respects_on_session (op : SessFs.t -> SessFs.t * option error) :
  respects keep codes (on_session op).
Proof.
  intros st st' o. unfold on_session.
  destruct (op (fs st)) as [s' [e|]]; intros [= <- <-]; now split.
Qed.

Lemma respects_bind {A B : Type} (m : M A) (k : A -> M B) :
  respects keep codes m -> (forall a, respects keep codes (k a)) ->
  respects keep codes (bind m k).
Proof.
  intros Hm Hk st st' o. unfold bind.
  destruct (m st) as [st1 [a|e|c]] eqn:E;
    destruct (Hm _ _ _ E) as [Hkept Hcode].
  - intros H. destruct (Hk a _ _ _ H) as [Hkept' Hcode'].
    split; [congruence | assumption].
  - intros [= <- <-]. now split.
  - intros [= <- <-]. now split.
Qed.

Lemma respects_try_catch {A : Type} (m : M A) (k : error -> M A) :
  respects keep codes m -> (forall e, respects keep codes (k e)) ->
  respects keep codes (try_catch m k).
Proof.
  intros Hm Hk st st' o. unfold try_catch.
  destruct (m st) as [st1 [a|e|c]] eqn:E;
    destruct (Hm _ _ _ E) as [Hkept Hcode].
  - intros [= <- <-]. now split.
  - intros H. destruct (Hk e _ _ _ H) as [Hkept' Hcode'].
    split; [congruence | assumption].
  - intros [= <- <-]. now split.
Qed.

Lemma respects_for_each {A : Type} (l : list A) (body : A -> M unit) :
  (forall x, respects keep codes (body x)) ->
  respects keep codes (for_each l body).
Proof.
  intros Hbody. induction l as [|x l IH]; cbn [for_each].
  - apply respects_ret.
  - apply respects_bind; [apply Hbody | intros _; exact IH].
Qed.

Lemma respects_cleanup (claudeHome : string) :
  keep (EvRm claudeHome) = false -> respects keep codes (cleanup claudeHome).
Proof.
  intros He. unfold cleanup.
  apply respects_try_catch; [|intros e; apply respects_ret].
  apply respects_bind; [now apply respects_emit | intros _].
  apply respects_on_session.
Qed.

(** A computation that respects [keep] adds nothing. *)
Lemma adds_nothing {A : Type} (m : M A) :
  respects keep codes m -> adds keep [] m.
Proof.
  intros Hm st st' a H. rewrite List.app_nil_r. exact (proj1 (Hm _ _ _ H)).
Qed.

Lemma adds_emit (e : event) : keep e = true -> adds keep [e] (emit e).
Proof.
  intros He st st' a [= <-]. unfold kept. cbn [trace].
  rewrite filter_app. cbn [filter]. now rewrite He.
Qed.

Lemma adds_bind {A B : Type} (n1 n2 : list event) (m : M A) (k : A -> M B) :
  adds keep n1 m -> (forall a, adds keep n2 (k a)) ->
  adds keep (n1 ++ n2) (bind m k).
Proof.
  intros Hm Hk st st' b. unfold bind.
  destruct (m st) as [st1 [a|e|c]] eqn:E; try discriminate.
  intros H. rewrite (Hk a _ _ _ H), (Hm _ _ _ E). now rewrite List.app_assoc.
Qed.

Lemma adds_eq {A : Type} (n n' : list event) (m : M A) :
  adds keep n m -> n = n' -> adds keep n' m.
Proof. now intros H <-. Qed.

End Respects.

Section Returns.
Context {A : Type} (P : A -> Prop).

Lemma returns_ret (a : A) : P a -> returns P (ret a).
Proof. now intros Ha st st' a' [= _ <-]. Qed.

Lemma returns_throw (e : error) : returns P (throw e).
Proof. intros st st' a. discriminate. Qed.

Lemma returns_exit (c : Z) : returns P (process_exit c).
Proof. intros st st' a. discriminate. Qed.

Lemma returns_bind {B : Type} (m : M B) (k : B -> M A) :
  (forall b, returns P (k b)) -> returns P (bind m k).
Proof.
  intros Hk st st' a. unfold bind.
  destruct (m st) as [st1 [b|e|c]]; try discriminate. apply Hk.
Qed.

Lemma returns_try_catch (m : M A) (k : error -> M A) :
  returns P m -> (forall e, returns P (k e)) -> returns P (try_catch m k).
Proof.
  intros Hm Hk st st' a. unfold try_catch.
  destruct (m st) as [st1 [b|e|c]] eqn:E; try discriminate.
  - intros [= <- <-]. exact (Hm _ _ _ E).
  - apply Hk.
Qed.

End Returns.

(** Structural proof that a computation respects [keep] and [codes]. *)
Ltac respects_step :=
  first
    [ apply respects_ret
    | apply respects_throw
    | apply respects_lift
    | apply respects_check
    | apply respects_on_session
    | apply respects_exit; first [exact I | now left | now right]
    | apply respects_emit; first [reflexivity | now auto]
    | apply respects_cleanup; first [reflexivity | now auto]
    | apply respects_bind; [ | intros ? ]
    | apply respects_try_catch; [ | intros ? ]
    | apply respects_for_each; intros ?
    | assumption
    | match goal with
      | |- respects _ _ (if ?b then _ else _) => destruct b
      | |- respects _ _ (match ?x with _ => _ end) => destruct x
      | |- respects _ _ (let _ := _ in _) => cbv zeta
      end ].

Ltac respects_tac := repeat respects_step.

(** Structural proof that the result of a computation satisfies [P]. *)
Ltac returns_tac :=
  repeat first
    [ apply returns_ret
    | apply returns_throw
    | apply returns_exit
    | apply returns_bind; intros ?
    | apply returns_try_catch; [ | intros ? ]
    | match goal with
      | |- returns _ (if ?b then _ else _) => destruct b
      | |- returns _ (match ?x with _ => _ end) => destruct x
      | |- returns _ (let _ := _ in _) => cbv zeta
      end ].

(* --------------------------------------------------------------------- *)
(** ** The pieces of [main] register no listener and spawn no child *)

Section Pieces.
Variable keep : event -> bool.
Variable codes : Z -> Prop.
Hypothesis keep_only :
  forall e, is_on e = false -> is_spawn e = false -> keep e = false.
Hypothesis codes_0 : codes 0%Z.
Hypothesis codes_1 : codes 1%Z.

Local Hint Resolve codes_0 codes_1 : core.

Lemma loadConfig_quiet (h : Host) (defaults : Js.obj Js.json) :
  respects keep codes (loadConfig h defaults).
Proof. unfold loadConfig, console_error. respects_tac. Qed.

Lemma getRepoRoot_quiet (h : Host) (projectDir : string) :
  respects keep codes (getRepoRoot h projectDir).
Proof. unfold getRepoRoot. respects_tac. Qed.

Lemma claudebox_parse_loop_quiet (h : Host) (args : list string) :
  forall o, respects keep codes (Claudebox.parse_loop h args o).
Proof.
  induction args as [|arg rest IH]; intros o; cbn [Claudebox.parse_loop].
  - apply respects_ret.
  - unfold Claudebox.showHelp, console_error, console_log.
    repeat first [apply IH | apply respects_exit; assumption | respects_step].
Qed.

Lemma claudebox_parseArgs_quiet (h : Host) (args : list string) :
  respects keep codes (Claudebox.parseArgs h args).
Proof.
  unfold Claudebox.parseArgs, Claudebox.loadConfig.
  repeat first [ apply loadConfig_quiet
               | apply claudebox_parse_loop_quiet
               | respects_step ].
Qed.

Lemma part001_parse_loop_quiet (h : Host) (args : list string) :
  forall o, respects keep codes (Part001.parse_loop h args o).
Proof.
  induction args as [|arg rest IH]; intros o; cbn [Part001.parse_loop].
  - apply respects_ret.
  - unfold Part001.showHelp, console_error, console_log.
    repeat first [apply IH | apply respects_exit; assumption | respects_step].
Qed.

Lemma part001_parseArgs_quiet (h : Host) (args : list string) :
  respects keep codes (Part001.parseArgs h args).
Proof.
  unfold Part001.parseArgs, Part001.loadConfig.
  repeat first [ apply loadConfig_quiet
               | apply part001_parse_loop_quiet
               | respects_step ].
Qed.

Lemma claudebox_stage_ssh_quiet (h : Host) (home : option string) :
  respects keep codes (Claudebox.stage_ssh h home).
Proof.
  unfold Claudebox.stage_ssh, Claudebox.copy_into_session. respects_tac.
Qed.

Lemma claudebox_wrap_quiet (h : Host) (sandbox : Claudebox.Sandbox)
  (script : string) :
  respects keep codes (Claudebox.wrap h sandbox script).
Proof.
  unfold Claudebox.wrap, Claudebox.BubblewrapSandbox_wrap,
    Claudebox.sanitize_ssh_config.
  respects_tac.
Qed.

Lemma claudebox_dryRun_quiet (h : Host) (sandbox : Claudebox.Sandbox)
  (script : string) :
  respects keep codes (Claudebox.dryRun h sandbox script).
Proof.
  unfold Claudebox.dryRun, console_log.
  repeat first [apply claudebox_wrap_quiet | respects_step].
Qed.

Lemma part001_stage_ide_token_quiet (h : Host) (options : Part001.Options) :
  respects keep codes (Part001.stage_ide_token h options).
Proof. unfold Part001.stage_ide_token, console_error. respects_tac. Qed.

(** Everything in [main] between the registration of the listeners and the
    launch, in [src/src/claudebox.js]... *)
Lemma claudebox_sandbox_create_quiet (h : Host)
  (config : Claudebox.SandboxConfig) :
  respects keep codes
    (try_catch (Claudebox.Sandbox_create h config)
       (fun err =>
          console_error ("Error: " ++ err_message err) ;;; process_exit 1)).
Proof.
  unfold Claudebox.Sandbox_create, console_error.
  repeat first [apply respects_exit; assumption | respects_step].
Qed.

(** ... and in [src/unnamed/part_001]. *)
Lemma part001_sandbox_create_quiet (h : Host)
  (config : Part001.SandboxConfig) :
  respects keep codes
    (try_catch (Part001.Sandbox_create h config)
       (fun err =>
          console_error ("Error: " ++ err_message err) ;;; process_exit 1)).
Proof.
  unfold Part001.Sandbox_create, console_error.
  repeat first [apply respects_exit; assumption | respects_step].
Qed.

End Pieces.

Lemma is_spawn_only (e : event) :
  is_on e = false -> is_spawn e = false -> is_spawn e = false.
Proof. auto. Qed.

Lemma is_on_only (e : event) :
  is_on e = false -> is_spawn e = false -> is_on e = false.
Proof. auto. Qed.

Lemma zero_or_one_0 : zero_or_one 0%Z.
Proof. now left. Qed.

Lemma zero_or_one_1 : zero_or_one 1%Z.
Proof. now right. Qed.

(** The pieces, for the listeners (any exit code)... *)
Ltac quiet_on :=
  repeat first
    [ apply (loadConfig_quiet is_on any_code is_on_only)
    | apply (getRepoRoot_quiet is_on any_code is_on_only)
    | apply (claudebox_parseArgs_quiet is_on any_code is_on_only I I)
    | apply (part001_parseArgs_quiet is_on any_code is_on_only I I)
    | apply (claudebox_stage_ssh_quiet is_on any_code is_on_only)
    | apply (claudebox_wrap_quiet is_on any_code)
    | apply (claudebox_dryRun_quiet is_on any_code is_on_only)
    | apply (part001_stage_ide_token_quiet is_on any_code is_on_only)
    | apply (claudebox_sandbox_create_quiet is_on any_code is_on_only I)
    | apply (part001_sandbox_create_quiet is_on any_code is_on_only I)
    | respects_step ].

(** ... and for the spawned children (exit codes 0 and 1). *)
Ltac quiet_spawn :=
  repeat first
    [ apply (loadConfig_quiet is_spawn zero_or_one is_spawn_only)
    | apply (getRepoRoot_quiet is_spawn zero_or_one is_spawn_only)
    | apply (claudebox_parseArgs_quiet is_spawn zero_or_one is_spawn_only
               zero_or_one_0 zero_or_one_1)
    | apply (part001_parseArgs_quiet is_spawn zero_or_one is_spawn_only
               zero_or_one_0 zero_or_one_1)
    | apply (claudebox_stage_ssh_quiet is_spawn zero_or_one is_spawn_only)
    | apply (claudebox_wrap_quiet is_spawn zero_or_one)
    | apply (claudebox_dryRun_quiet is_spawn zero_or_one is_spawn_only)
    | apply (part001_stage_ide_token_quiet is_spawn zero_or_one is_spawn_only)
    | apply (claudebox_sandbox_create_quiet is_spawn zero_or_one is_spawn_only
               zero_or_one_1)
    | apply (part001_sandbox_create_quiet is_spawn zero_or_one is_spawn_only
               zero_or_one_1)
    | respects_step ].

(** A chain of steps, each of which registers one listener or none. *)
Ltac adds_chain :=
  repeat first
    [ apply adds_emit; reflexivity
    | eapply adds_bind;
      [ first [ apply adds_emit; reflexivity
              | apply adds_nothing with (codes := any_code); solve [quiet_on] ]
      | intros ? ]
    | progress cbv zeta
    | apply adds_nothing with (codes := any_code); solve [quiet_on] ].

Lemma adds_never {A : Type} (keep : event -> bool) (n : list event) (m : M A) :
  returns (fun _ => False) m -> adds keep n m.
Proof. intros H st st' a E. destruct (H _ _ _ E). Qed.

Lemma claudebox_main_setup_listeners (h : Host) (argv : list string) :
  adds is_on (session_listeners h) (Claudebox.main_setup h argv).
Proof.
  unfold Claudebox.main_setup, process_on, realpath, console_log.
  eapply adds_eq; [adds_chain | reflexivity].
Qed.

Lemma claudebox_main_setup_claudeHome (h : Host) (argv : list string) :
  returns (fun s => Claudebox.session_claudeHome s = claudeHome_of h)
    (Claudebox.main_setup h argv).
Proof. unfold Claudebox.main_setup. returns_tac. reflexivity. Qed.

Lemma claudebox_main_launch_listeners (h : Host) (s : Claudebox.Session) :
  adds is_on [EvOn "close" HExitChildCode] (Claudebox.main_launch h s).
Proof.
  unfold Claudebox.main_launch.
  destruct (Claudebox.dryRun_option (Claudebox.session_options s)).
  - apply adds_never. returns_tac.
  - unfold Claudebox.spawn, spawn_child, process_on.
    eapply adds_eq; [adds_chain | reflexivity].
Qed.

Lemma claudebox_main_listeners (h : Host) (argv : list string) :
  adds is_on (session_listeners h ++ [EvOn "close" HExitChildCode])
    (Claudebox.main h argv).
Proof.
  unfold Claudebox.main. apply adds_bind.
  - apply claudebox_main_setup_listeners.
  - apply claudebox_main_launch_listeners.
Qed.

Lemma part001_main_listeners (h : Host) (argv : list string) :
  adds is_on (session_listeners h ++ [EvOn "close" HExitChildCode])
    (Part001.main h argv).
Proof.
  unfold Part001.main, Part001.spawn, Part001.wrap, spawn_child, process_on,
    realpath, console_log.
  eapply adds_eq; [adds_chain | reflexivity].
Qed.

(* --------------------------------------------------------------------- *)
(** ** Signals *)

Lemma listeners_app (name : string) (a b : list event) :
  listeners name (a ++ b) = (listeners name a ++ listeners name b)%list.
Proof.
  induction a as [|e a IH]; [reflexivity|].
  destruct e; cbn [listeners app]; try exact IH.
  destruct (String.eqb name0 name); cbn [app]; now rewrite IH.
Qed.

Lemma listeners_kept (name : string) (tr : list event) :
  listeners name tr = listeners name (kept is_on tr).
Proof.
  induction tr as [|e tr IH]; [reflexivity|].
  destruct e; cbn [kept filter is_on listeners]; try exact IH.
  destruct (String.eqb name0 name); [f_equal|]; exact IH.
Qed.

(** The listeners in place once [main] has returned to the event loop. *)
Lemma waiting_listeners (h : Host) (tr : list event) (name : string) :
  kept is_on tr = (session_listeners h ++ [EvOn "close" HExitChildCode])%list ->
  listeners name tr
  = listeners name (session_listeners h ++ [EvOn "close" HExitChildCode]).
Proof. intros H. now rewrite listeners_kept, H. Qed.

(** A signal delivered to a process that waits with the listeners of
    [main] in place. *)
Lemma deliver_signal (h : Host) (sig : signal) (st : state) :
  kept is_on (trace st)
  = (session_listeners h ++ [EvOn "close" HExitChildCode])%list ->
  deliver (Signal sig) st
  = (mkState (fst (SessFs.rmSync (fs st)))
       (trace st ++ [EvRm (claudeHome_of h); EvRm (claudeHome_of h)]),
     Exited (128 + signal_number sig)).
Proof.
  intros H. unfold deliver.
  rewrite (waiting_listeners h _ _ H).
  destruct sig; cbn [signal_name session_listeners app listeners String.eqb
                     Ascii.eqb Bool.eqb signal_number for_each run_handler];
    unfold run, bind; rewrite cleanup_run; cbn [process_exit];
    unfold finish; cbn [trace fs];
    rewrite listeners_app, (waiting_listeners h _ _ H);
    cbn [session_listeners app listeners String.eqb Ascii.eqb Bool.eqb
         fold_left run_handler];
    rewrite cleanup_run; cbn [fst fs trace];
    rewrite rmSync_idempotent, <- List.app_assoc; reflexivity.
Qed.

(** C6.  In both copies, once [main] has handed over to the event loop:
    an interrupt or terminate signal runs [cleanup] (twice: in the signal
    listener and again in the exit listener), whatever the sandboxed
    process has made of the session directory, and then the process exits
    with status 128 plus the signal number, 130 or 143. *)
Theorem signal_cleanup_then_exit :
  (forall (h : Host) (argv : list string) (fs0 : SessFs.t) (st : state),
     run (Claudebox.main h argv) (mkState fs0 []) = (st, Waiting) ->
     forall (sig : signal) (fs_now : SessFs.t),
       deliver (Signal sig) (mkState fs_now (trace st))
       = (mkState (fst (SessFs.rmSync fs_now))
            (trace st ++ [EvRm (claudeHome_of h); EvRm (claudeHome_of h)]),
          Exited (128 + signal_number sig))
       /\ fst (SessFs.rmSync fs_now)
          = fs (fst (cleanup (claudeHome_of h) (mkState fs_now (trace st)))))
  /\ (forall (h : Host) (argv : list string) (fs0 : SessFs.t) (st : state),
        run (Part001.main h argv) (mkState fs0 []) = (st, Waiting) ->
        forall (sig : signal) (fs_now : SessFs.t),
          deliver (Signal sig) (mkState fs_now (trace st))
          = (mkState (fst (SessFs.rmSync fs_now))
               (trace st ++ [EvRm (claudeHome_of h); EvRm (claudeHome_of h)]),
             Exited (128 + signal_number sig))
          /\ fst (SessFs.rmSync fs_now)
             = fs (fst (cleanup (claudeHome_of h) (mkState fs_now (trace st))))).
Proof.
  split; intros h argv fs0 st Hrun sig fs_now.
  - unfold run in Hrun.
    destruct (Claudebox.main h argv (mkState fs0 [])) as [st1 [[]|e|c]] eqn:E;
      try discriminate.
    injection Hrun as ->.
    pose proof (claudebox_main_listeners h argv _ _ _ E) as H.
    split; [|now rewrite cleanup_run].
    now apply (deliver_signal h sig (mkState fs_now (trace st))).
  - unfold run in Hrun.
    destruct (Part001.main h argv (mkState fs0 [])) as [st1 [[]|e|c]] eqn:E;
      try discriminate.
    injection Hrun as ->.
    pose proof (part001_main_listeners h argv _ _ _ E) as H.
    split; [|now rewrite cleanup_run].
    now apply (deliver_signal h sig (mkState fs_now (trace st))).
Qed.

(** A plain run on the example host reaches the event loop; an interrupt
    then ends it with status 130 and the session directory gone. *)
Lemma signal_cleanup_then_exit_witness :
  exists st,
    run (Part001.main Example.linux ["node"; "claudebox"]) Example.fresh
    = (st, Waiting)
    /\ deliver (Signal SIGINT)
         (mkState (SessFs.mk true (Some (SessFs.Dir true []))) (trace st))
       = (mkState (SessFs.mk true None)
            (trace st ++ [EvRm (claudeHome_of Example.linux);
                          EvRm (claudeHome_of Example.linux)]),
          Exited 130).
Proof.
  destruct (run (Part001.main Example.linux ["node"; "claudebox"]) Example.fresh)
    as [st status] eqn:E.
  assert (Hs : status = Waiting)
    by (vm_compute in E; now injection E as _ <-).
  subst status. exists st. split; [reflexivity|].
  exact (proj1 (proj2 signal_cleanup_then_exit Example.linux
                  ["node"; "claudebox"] (SessFs.mk true None) st E SIGINT
                  (SessFs.mk true (Some (SessFs.Dir true []))))).
Defined.

(** Without a signal, the exit status is the child's: its code, or 0 when
    it has none. *)
Lemma deliver_child_close (h : Host) (code : option Z) (st : state) :
  kept is_on (trace st)
  = (session_listeners h ++ [EvOn "close" HExitChildCode])%list ->
  deliver (ChildClose code) st
  = (mkState (fst (SessFs.rmSync (fs st)))
       (trace st ++ [EvRm (claudeHome_of h)]),
     Exited (match code with Some c => c | None => 0%Z end)).
Proof.
  intros H. unfold deliver.
  rewrite (waiting_listeners h _ _ H).
  cbn [session_listeners app listeners String.eqb Ascii.eqb Bool.eqb
       for_each run_handler].
  unfold run, bind. cbn [process_exit]. unfold finish.
  rewrite (waiting_listeners h _ _ H).
  cbn [session_listeners app listeners String.eqb Ascii.eqb Bool.eqb
       fold_left run_handler].
  rewrite cleanup_run. cbn [fst].
  destruct code as [c|]; [|reflexivity].
  now destruct (Z.eqb_spec c 0) as [->|].
Qed.

(** In both copies, once [main] has handed over to the event loop: when
    the sandboxed process closes, [cleanup] runs in the exit listener and the
    process exits with the status of the sandboxed process, or 0 when it has
    none. *)
Lemma child_close_exit_status :
  (forall (h : Host) (argv : list string) (fs0 : SessFs.t) (st : state),
     run (Claudebox.main h argv) (mkState fs0 []) = (st, Waiting) ->
     forall (code : option Z) (fs_now : SessFs.t),
       deliver (ChildClose code) (mkState fs_now (trace st))
       = (mkState (fst (SessFs.rmSync fs_now))
            (trace st ++ [EvRm (claudeHome_of h)]),
          Exited (match code with Some c => c | None => 0%Z end)))
  /\ (forall (h : Host) (argv : list string) (fs0 : SessFs.t) (st : state),
        run (Part001.main h argv) (mkState fs0 []) = (st, Waiting) ->
        forall (code : option Z) (fs_now : SessFs.t),
          deliver (ChildClose code) (mkState fs_now (trace st))
          = (mkState (fst (SessFs.rmSync fs_now))
               (trace st ++ [EvRm (claudeHome_of h)]),
             Exited (match code with Some c => c | None => 0%Z end))).
Proof.
  split; intros h argv fs0 st Hrun code fs_now.
  - unfold run in Hrun.
    destruct (Claudebox.main h argv (mkState fs0 [])) as [st1 [[]|e|c]] eqn:E;
      try discriminate.
    injection Hrun as ->.
    pose proof (claudebox_main_listeners h argv _ _ _ E) as H.
    now apply (deliver_child_close h code (mkState fs_now (trace st))).
  - unfold run in Hrun.
    destruct (Part001.main h argv (mkState fs0 [])) as [st1 [[]|e|c]] eqn:E;
      try discriminate.
    injection Hrun as ->.
    pose proof (part001_main_listeners h argv _ _ _ E) as H.
    now apply (deliver_child_close h code (mkState fs_now (trace st))).
Qed.

(** A plain run on the example host whose sandboxed process ends with
    status 3. *)
Lemma child_close_exit_status_witness :
  exists st,
    run (Claudebox.main Example.linux Example.real_run_argv) Example.fresh
    = (st, Waiting)
    /\ deliver (ChildClose (Some 3%Z))
         (mkState (SessFs.mk true (Some (SessFs.Dir true []))) (trace st))
       = (mkState (SessFs.mk true None)
            (trace st ++ [EvRm (claudeHome_of Example.linux)]),
          Exited 3).
Proof.
  destruct (run (Claudebox.main Example.linux Example.real_run_argv)
              Example.fresh) as [st status] eqn:E.
  assert (Hs : status = Waiting)
    by (vm_compute in E; now injection E as _ <-).
  subst status. exists st. split; [reflexivity|].
  exact (proj1 child_close_exit_status Example.linux Example.real_run_argv
           (SessFs.mk true None) st E (Some 3%Z)
           (SessFs.mk true (Some (SessFs.Dir true [])))).
Defined.

(* --------------------------------------------------------------------- *)
(** ** Dry run *)

Lemma claudebox_parseArgs_dryRun (h : Host) (args : list string)
  (st st' : state) (options : Claudebox.Options) :
  Claudebox.parseArgs h args st = (st', Val options) ->
  Claudebox.dryRun_option options = existsb (String.eqb "--dry-run") args.
Proof.
  unfold Claudebox.parseArgs, bind, ret.
  destruct (Claudebox.loadConfig h st) as [st1 [config|e|c]]; try discriminate.
  destruct (Claudebox.parse_loop h args _ st1) as [st2 [o|e|c]] eqn:Eloop;
    try discriminate.
  intros [= <- <-]. cbn [Claudebox.dryRun_option].
  apply ClaudeboxArgs.parse_loop_claudebox in Eloop as (_ & _ & Hd).
  rewrite Hd. cbn. apply orb_false_r.
Qed.

Lemma returns_bind_with {A B : Type} (P : A -> Prop) (Q : B -> Prop)
  (m : M B) (k : B -> M A) :
  returns Q m -> (forall b, Q b -> returns P (k b)) -> returns P (bind m k).
Proof.
  intros Hm Hk st st' a. unfold bind.
  destruct (m st) as [st1 [b|e|c]] eqn:E; try discriminate.
  apply Hk. exact (Hm _ _ _ E).
Qed.

Lemma claudebox_main_setup_dryRun (h : Host) (argv : list string) :
  returns
    (fun s => Claudebox.dryRun_option (Claudebox.session_options s)
              = existsb (String.eqb "--dry-run") (skipn 2 argv))
    (Claudebox.main_setup h argv).
Proof.
  unfold Claudebox.main_setup.
  apply (returns_bind_with _
           (fun options => Claudebox.dryRun_option options
                           = existsb (String.eqb "--dry-run") (skipn 2 argv))).
  - intros st st' options. apply claudebox_parseArgs_dryRun.
  - intros options Hopt. returns_tac. exact Hopt.
Qed.

Lemma claudebox_main_setup_no_spawn (h : Host) (argv : list string) :
  respects is_spawn zero_or_one (Claudebox.main_setup h argv).
Proof.
  unfold Claudebox.main_setup, process_on, realpath, console_log.
  quiet_spawn.
Qed.

(** The dry-run branch of the launch: nothing is spawned, and it ends in
    [process.exit(0)] or in an exception. *)
Lemma claudebox_dry_launch (h : Host) (s : Claudebox.Session) :
  Claudebox.dryRun_option (Claudebox.session_options s) = true ->
  respects is_spawn zero_or_one (Claudebox.main_launch h s)
  /\ returns (fun _ => False) (Claudebox.main_launch h s).
Proof.
  intros Hdry. unfold Claudebox.main_launch. rewrite Hdry. split.
  - quiet_spawn.
  - returns_tac.
Qed.

(** The exit listeners are [cleanup]s: running them spawns nothing. *)
Lemma run_handler_no_spawn (l : handler) (code : option Z) :
  respects is_spawn any_code (run_handler l code).
Proof. destruct l; cbn [run_handler]; respects_tac. Qed.

Lemma finish_no_spawn (c : Z) (st : state) :
  kept is_spawn (trace (fst (finish c st))) = kept is_spawn (trace st)
  /\ snd (finish c st) = Exited c.
Proof.
  unfold finish. cbn [fst snd]. split; [|reflexivity].
  generalize (listeners "exit" (trace st)). intros ls. revert st.
  induction ls as [|l ls IH]; intros st; [reflexivity|].
  cbn [fold_left]. rewrite IH.
  destruct (run_handler l None st) as [st1 o] eqn:E.
  exact (proj1 (run_handler_no_spawn l None _ _ _ E)).
Qed.

(** A run with [--dry-run] among its options spawns no child, never
    reaches the event loop, and exits with 0 or 1. *)
Lemma claudebox_dry_run_never_spawns (h : Host) (argv : list string)
  (st0 : state) :
  In "--dry-run" (skipn 2 argv) ->
  exists st c,
    run (Claudebox.main h argv) st0 = (st, Exited c)
    /\ (c = 0%Z \/ c = 1%Z)
    /\ kept is_spawn (trace st) = kept is_spawn (trace st0).
Proof.
  intros Hin. apply existsb_eqb_In in Hin.
  unfold run, Claudebox.main, bind.
  destruct (Claudebox.main_setup h argv st0) as [st1 o1] eqn:E1.
  destruct (claudebox_main_setup_no_spawn h argv _ _ _ E1) as [Hk1 Hc1].
  assert (Hfin : forall c st2,
            (c = 0%Z \/ c = 1%Z) ->
            kept is_spawn (trace st2) = kept is_spawn (trace st0) ->
            exists st c',
              finish c st2 = (st, Exited c')
              /\ (c' = 0%Z \/ c' = 1%Z)
              /\ kept is_spawn (trace st) = kept is_spawn (trace st0)).
  { intros c st2 Hc Hk. destruct (finish_no_spawn c st2) as [Hk' Hs].
    exists (fst (finish c st2)), c.
    split; [|split; [assumption | congruence]].
    rewrite <- Hs. now destruct (finish c st2). }
  assert (Hthrow : forall (e : error) st2,
            kept is_spawn (trace st2) = kept is_spawn (trace st0) ->
            kept is_spawn (trace st2 ++ [EvError (err_message e)])
            = kept is_spawn (trace st0)).
  { intros e st2 Hk. unfold kept in *. rewrite filter_app, Hk. cbn.
    apply List.app_nil_r. }
  destruct o1 as [s|e|c].
  - pose proof (claudebox_main_setup_dryRun h argv _ _ _ E1) as Hdry.
    cbv beta in Hdry. rewrite Hin in Hdry.
    destruct (claudebox_dry_launch h s Hdry) as [Hlaunch Hnever].
    destruct (Claudebox.main_launch h s st1) as [st2 o2] eqn:E2.
    destruct (Hlaunch _ _ _ E2) as [Hk2 Hc2].
    destruct o2 as [[]|e|c].
    + destruct (Hnever _ _ _ E2).
    + apply Hfin; [now right|]. cbn [trace]. apply Hthrow. congruence.
    + apply Hfin; [exact Hc2 | congruence].
  - apply Hfin; [now right|]. cbn [trace]. now apply Hthrow.
  - apply Hfin; assumption.
Qed.

Lemma for_each_log {A : Type} (f : A -> string) (l : list A) (st : state) :
  for_each l (fun x => console_log (f x)) st
  = (mkState (fs st) (trace st ++ map (fun x => EvLog (f x)) l), Val tt).
Proof.
  revert st; induction l as [|x l IH]; intros st; cbn [for_each map].
  - unfold ret. rewrite List.app_nil_r. now destruct st.
  - unfold bind, console_log, emit. rewrite IH. cbn [fs trace].
    now rewrite <- List.app_assoc.
Qed.

(** What [dryRun] does once [wrap] has returned [r]. *)
Lemma claudebox_dryRun_prints (h : Host) (sandbox : Claudebox.Sandbox)
  (script : string) (st st' : state) (r : WrapResult) :
  Claudebox.wrap h sandbox script st = (st', Val r) ->
  Claudebox.dryRun h sandbox script st
  = (mkState (fs st')
       (trace st' ++ map EvLog (dry_run_lines (process_env h) r)),
     Val tt).
Proof.
  intros Hw. unfold Claudebox.dryRun, bind. rewrite Hw.
  unfold dry_run_lines.
  destruct (0 <? length (Claudebox.diffEnv (process_env h) (env r)))%nat.
  - unfold console_log at 1. unfold emit. rewrite for_each_log.
    unfold console_log, emit. cbn [fs trace map app].
    rewrite map_app, map_map, <- !List.app_assoc. reflexivity.
  - unfold ret, console_log, emit. reflexivity.
Qed.

Lemma kept_on_logs (tr : list event) (lines : list string) (dirs : list string) :
  kept is_on (tr ++ map EvLog lines ++ map EvRm dirs) = kept is_on tr.
Proof.
  unfold kept. rewrite !filter_app.
  assert (H1 : filter is_on (map EvLog lines) = [])
    by (induction lines; [reflexivity | assumption]).
  assert (H2 : filter is_on (map EvRm dirs) = [])
    by (induction dirs; [reflexivity | assumption]).
  now rewrite H1, H2, !List.app_nil_r.
Qed.

(** A dry run whose setup succeeds and whose [wrap] returns: the lines are
    printed, the session directory is cleaned up, and the exit status is 0.
    Whether the command could be spawned plays no part. *)
Lemma claudebox_dry_run_output (h : Host) (argv : list string) (fs0 : SessFs.t)
  (st1 st2 : state) (s : Claudebox.Session) (r : WrapResult) :
  Claudebox.main_setup h argv (mkState fs0 []) = (st1, Val s) ->
  In "--dry-run" (skipn 2 argv) ->
  Claudebox.wrap h (Claudebox.session_sandbox s) (Claudebox.session_script s) st1
  = (st2, Val r) ->
  run (Claudebox.main h argv) (mkState fs0 [])
  = (mkState (fst (SessFs.rmSync (fs st2)))
       (trace st2 ++ map EvLog (dry_run_lines (process_env h) r)
                  ++ [EvRm (claudeHome_of h); EvRm (claudeHome_of h)]),
     Exited 0).
Proof.
  intros E1 Hin Ew. apply existsb_eqb_In in Hin.
  pose proof (claudebox_main_setup_dryRun h argv _ _ _ E1) as Hdry.
  cbv beta in Hdry. rewrite Hin in Hdry.
  pose proof (claudebox_main_setup_claudeHome h argv _ _ _ E1) as Hhome.
  cbv beta in Hhome.
  pose proof (claudebox_main_setup_listeners h argv _ _ _ E1) as Hon.
  cbn [trace kept filter app] in Hon.
  pose proof (proj1 (claudebox_wrap_quiet is_on any_code h _ _ _ _ _ Ew)) as Hon2.
  rewrite Hon in Hon2.
  unfold run, Claudebox.main, bind. rewrite E1.
  unfold Claudebox.main_launch. rewrite Hdry. unfold bind.
  rewrite (claudebox_dryRun_prints h _ _ _ _ _ Ew).
  rewrite cleanup_run. cbn [process_exit fs trace]. unfold finish.
  cbn [trace fs].
  rewrite Hhome.
  assert (Hls : listeners "exit"
                  ((trace st2 ++ map EvLog (dry_run_lines (process_env h) r))
                   ++ [EvRm (claudeHome_of h)])
                = [HCleanup (claudeHome_of h)]).
  { rewrite listeners_kept, <- List.app_assoc.
    rewrite (kept_on_logs (trace st2) _ [claudeHome_of h]), Hon2.
    reflexivity. }
  rewrite Hls. cbn [fold_left run_handler]. rewrite cleanup_run.
  cbn [fst fs trace]. rewrite rmSync_idempotent.
  now rewrite <- !List.app_assoc.
Qed.

(* --------------------------------------------------------------------- *)
(** ** The environment delta and the quoting of a dry run *)

Lemma obj_has_keys {V : Type} (k : string) (o : Js.obj V) :
  existsb (String.eqb k) (Js.obj_keys o) = Js.obj_has k o.
Proof.
  unfold Js.obj_has. induction o as [|[k0 v0] o IH]; [reflexivity|].
  cbn [Js.obj_keys map fst existsb Js.obj_get].
  rewrite String.eqb_sym. destruct (String.eqb k0 k); [reflexivity | exact IH].
Qed.

(** The first loop of [dryRun]: the values that are new or changed. *)
Lemma diffEnv_changed (penv env d0 : Js.obj string) (k : string) :
  Js.distinct (Js.obj_keys env) = true ->
  Js.obj_get k
    (fold_left
       (fun d kv =>
          if negb (Claudebox.opt_string_eqb (Js.obj_get (fst kv) penv)
                     (Some (snd kv)))
          then Js.obj_set (fst kv) (snd kv) d else d)
       env d0)
  = match Js.obj_get k env with
    | Some v =>
        if Claudebox.opt_string_eqb (Js.obj_get k penv) (Some v)
        then Js.obj_get k d0 else Some v
    | None => Js.obj_get k d0
    end.
Proof.
  revert d0. induction env as [|[k1 v1] env IH]; intros d0 Hd; [reflexivity|].
  cbn [Js.obj_keys map fst Js.distinct] in Hd.
  apply andb_true_iff in Hd as [Hk1 Hd]. apply negb_true_iff in Hk1.
  cbn [fold_left fst snd Js.obj_get]. rewrite (IH _ Hd).
  destruct (String.eqb_spec k1 k) as [->|Hne].
  - rewrite (obj_get_not_key _ _ Hk1).
    destruct (Claudebox.opt_string_eqb (Js.obj_get k penv) (Some v1));
      cbn [negb]; [reflexivity|].
    now rewrite obj_get_set, String.eqb_refl.
  - assert (E : Js.obj_get k
                  (if negb (Claudebox.opt_string_eqb (Js.obj_get k1 penv)
                              (Some v1))
                   then Js.obj_set k1 v1 d0 else d0)
                = Js.obj_get k d0).
    { destruct (negb _); [|reflexivity].
      rewrite obj_get_set. apply String.eqb_neq in Hne. now rewrite Hne. }
    now rewrite E.
Qed.

(** The second loop of [dryRun]: the keys that are gone. *)
Lemma diffEnv_deleted (env d : Js.obj string) (keys : list string) (k : string) :
  Js.obj_get k
    (fold_left
       (fun d k' => if negb (Js.obj_has k' env)
                    then Js.obj_set k' "(deleted)" d else d)
       keys d)
  = if existsb (String.eqb k) keys && negb (Js.obj_has k env)
    then Some "(deleted)" else Js.obj_get k d.
Proof.
  revert d. induction keys as [|k1 keys IH]; intros d; [reflexivity|].
  cbn [fold_left existsb]. rewrite IH.
  destruct (existsb (String.eqb k) keys && negb (Js.obj_has k env)) eqn:E.
  - apply andb_true_iff in E as [E1 E2]. now rewrite E1, E2, orb_true_r.
  - destruct (String.eqb_spec k k1) as [<-|Hne]; cbn [orb andb].
    + destruct (negb (Js.obj_has k env)); [|reflexivity].
      now rewrite obj_get_set, String.eqb_refl.
    + rewrite E.
      destruct (negb (Js.obj_has k1 env)); [|reflexivity].
      rewrite obj_get_set.
      assert (Hne' : k1 <> k) by congruence.
      apply String.eqb_neq in Hne'. now rewrite Hne'.
Qed.

Lemma diffEnv_get (penv env : Js.obj string) (k : string) :
  Js.distinct (Js.obj_keys env) = true ->
  Js.obj_get k (Claudebox.diffEnv penv env) = delta_entry penv env k.
Proof.
  intros Hd. unfold Claudebox.diffEnv, delta_entry.
  rewrite diffEnv_deleted, (diffEnv_changed _ _ _ _ Hd), obj_has_keys.
  unfold Js.obj_has.
  destruct (Js.obj_get k env) as [v|]; cbn [negb].
  - rewrite andb_false_r.
    now destruct (Claudebox.opt_string_eqb (Js.obj_get k penv) (Some v)).
  - rewrite andb_true_r. now destruct (Js.obj_get k penv).
Qed.

Lemma any_char_exists (f : ascii -> bool) (s : string) :
  Js.any_char f s = true <-> exists c, Js.has_char c s = true /\ f c = true.
Proof.
  induction s as [|d s IH]; cbn [Js.any_char Js.has_char].
  - split; [discriminate | now intros (c & H & _)].
  - rewrite orb_true_iff, IH. split.
    + intros [Hd | (c & Hc & Hf)].
      * exists d. now rewrite Ascii.eqb_refl.
      * exists c. now rewrite Hc, orb_true_r.
    + intros (c & Hc & Hf). apply orb_true_iff in Hc as [Hc|Hc].
      * apply Ascii.eqb_eq in Hc. subst. now left.
      * right. eauto.
Qed.

Lemma needs_quoting_iff (a : string) :
  Claudebox.needs_quoting a = true
  <-> exists c, Js.has_char c a = true
                /\ (Js.is_space c = true \/ c = "'"%char
                    \/ c = ascii_of_nat 34).
Proof.
  unfold Claudebox.needs_quoting. rewrite any_char_exists.
  split; intros (c & Hc & H); exists c; split; try assumption.
  - apply orb_true_iff in H as [H|H]; [apply orb_true_iff in H as [H|H]|].
    + now left.
    + right; left. now apply Ascii.eqb_eq.
    + right; right. now apply Ascii.eqb_eq.
  - destruct H as [H | [-> | ->]].
    + now rewrite H.
    + rewrite Ascii.eqb_refl. now rewrite orb_true_r.
    + rewrite Ascii.eqb_refl. now rewrite orb_true_r.
Qed.

Lemma sh_unquote_escaped (a : string) :
  sh_unquote true (Claudebox.escape_quotes a ++ "'") = Some a.
Proof.
  induction a as [|c a IH]; [reflexivity|].
  cbn [Claudebox.escape_quotes].
  destruct (Ascii.eqb_spec c "'"%char) as [->|Hne].
  - change (("'\''" ++ Claudebox.escape_quotes a) ++ "'")
      with (String "'" (String "\" (String "'" (String "'"
              (Claudebox.escape_quotes a ++ "'"))))).
    cbn [sh_unquote Ascii.eqb Bool.eqb]. now rewrite IH.
  - cbn [String.append sh_unquote].
    apply Ascii.eqb_neq in Hne. now rewrite Hne, IH.
Qed.

Lemma existsb_keys_set {V : Type} (a k : string) (v : V) (d : Js.obj V) :
  existsb (String.eqb a) (Js.obj_keys (Js.obj_set k v d))
  = String.eqb a k || existsb (String.eqb a) (Js.obj_keys d).
Proof.
  unfold Js.obj_keys.
  induction d as [|[k' v'] d IH]; cbn [Js.obj_set map existsb fst].
  - reflexivity.
  - destruct (String.eqb_spec k' k) as [->|Hne]; cbn [map existsb fst].
    + now destruct (String.eqb a k).
    + rewrite IH. now destruct (String.eqb a k'), (String.eqb a k).
Qed.

Lemma obj_set_distinct {V : Type} (k : string) (v : V) (d : Js.obj V) :
  Js.distinct (Js.obj_keys d) = true ->
  Js.distinct (Js.obj_keys (Js.obj_set k v d)) = true.
Proof.
  induction d as [|[k' v'] d IH]; [reflexivity|].
  cbn [Js.obj_set]. intros H.
  destruct (String.eqb_spec k' k) as [->|Hne]; [exact H|].
  change (Js.obj_keys ((k', v') :: Js.obj_set k v d))
    with (k' :: Js.obj_keys (Js.obj_set k v d)).
  change (Js.obj_keys ((k', v') :: d)) with (k' :: Js.obj_keys d) in H.
  cbn [Js.distinct] in *. apply andb_true_iff in H as [H1 H2].
  rewrite existsb_keys_set, (IH H2).
  apply String.eqb_neq in Hne. rewrite Hne. cbn [orb]. now rewrite H1.
Qed.

(** The delta names each key once. *)
Lemma diffEnv_distinct (penv env : Js.obj string) :
  Js.distinct (Js.obj_keys (Claudebox.diffEnv penv env)) = true.
Proof.
  unfold Claudebox.diffEnv.
  assert (H1 : forall (l : Js.obj string) d,
            Js.distinct (Js.obj_keys d) = true ->
            Js.distinct
              (Js.obj_keys
                 (fold_left
                    (fun d kv =>
                       if negb (Claudebox.opt_string_eqb
                                  (Js.obj_get (fst kv) penv) (Some (snd kv)))
                       then Js.obj_set (fst kv) (snd kv) d else d)
                    l d)) = true).
  { induction l as [|kv l IH]; intros d Hd; [exact Hd|].
    cbn [fold_left]. apply IH.
    destruct (negb _); [now apply obj_set_distinct | exact Hd]. }
  assert (H2 : forall (l : list string) d,
            Js.distinct (Js.obj_keys d) = true ->
            Js.distinct
              (Js.obj_keys
                 (fold_left
                    (fun d k => if negb (Js.obj_has k env)
                                then Js.obj_set k "(deleted)" d else d)
                    l d)) = true).
  { induction l as [|k l IH]; intros d Hd; [exact Hd|].
    cbn [fold_left]. apply IH.
    destruct (negb _); [now apply obj_set_distinct | exact Hd]. }
  apply H2, H1. reflexivity.
Qed.

(** Each word of the command line stands for its argument. *)
Lemma shell_quote_printed_word (a : option string) :
  printed_word a
    (match Claudebox.shell_quote a with Some w => w | None => "" end).
Proof.
  destruct a as [s|]; [|reflexivity].
  cbn [Claudebox.shell_quote printed_word].
  destruct (Claudebox.needs_quoting s) eqn:E.
  - left. split; [now apply needs_quoting_iff|].
    split; [now exists (Claudebox.escape_quotes s)|].
    change ("'" ++ Claudebox.escape_quotes s ++ "'")
      with (String "'" (Claudebox.escape_quotes s ++ "'")).
    cbn [sh_unquote Ascii.eqb Bool.eqb]. apply sh_unquote_escaped.
  - right. split; [|reflexivity].
    intros H. apply needs_quoting_iff in H. congruence.
Qed.

Lemma command_line_words (r : WrapResult) :
  exists words,
    Claudebox.command_line r = String.concat (" \" ++ nl ++ "  ") words
    /\ Forall2 printed_word (Some (cmd r) :: args r) words.
Proof.
  unfold Claudebox.command_line, Claudebox.join_words.
  rewrite map_map.
  eexists. split; [reflexivity|].
  induction (Some (cmd r) :: args r) as [|a l IH]; cbn [map]; constructor.
  - apply shell_quote_printed_word.
  - exact IH.
Qed.

Lemma dry_run_lines_delta (penv : Js.obj string) (r : WrapResult) :
  dry_run_lines penv r
  = (delta_lines (Claudebox.diffEnv penv (env r))
     ++ [Claudebox.command_line r])%list.
Proof.
  unfold dry_run_lines, delta_lines.
  now destruct (Claudebox.diffEnv penv (env r)).
Qed.

(** C7 (as amended).  For every invocation of [claudebox.js] whose arguments
    contain [--dry-run]: the run terminates without reaching the event loop,
    with exit status 0 or 1, and spawns nothing.  The status is 0 whenever the
    setup of the session and [wrap] both return, whatever [spawnSync] would
    have done with the command: the lines printed are then the environment
    delta followed by the command line, the session directory is cleaned up by
    the explicit call and again by the exit listener.  The delta holds, for
    each key, the sandbox value when it is new or differs from
    [process.env], and [(deleted)] when the key is in [process.env] only,
    and names no key twice.
    The command line is one word for the command and one for each argument,
    in order, joined by a backslash and a newline: a word is wrapped in
    single quotes, and reads back in a shell as the argument, exactly when
    the argument contains white space, a single quote or a double quote, and
    is the argument itself otherwise. *)
Theorem dry_run_never_spawns_and_prints (h : Host) (argv : list string)
  (fs0 : SessFs.t) :
  In "--dry-run" (skipn 2 argv) ->
  (exists st c,
      run (Claudebox.main h argv) (mkState fs0 []) = (st, Exited c)
      /\ (c = 0%Z \/ c = 1%Z)
      /\ kept is_spawn (trace st) = [])
  /\ (forall st1 s st2 r,
        Claudebox.main_setup h argv (mkState fs0 []) = (st1, Val s) ->
        Claudebox.wrap h (Claudebox.session_sandbox s)
          (Claudebox.session_script s) st1 = (st2, Val r) ->
        exists words,
          run (Claudebox.main h argv) (mkState fs0 [])
          = (mkState (fst (SessFs.rmSync (fs st2)))
               (trace st2
                ++ map EvLog
                     (delta_lines (Claudebox.diffEnv (process_env h) (env r))
                      ++ [String.concat (" \" ++ nl ++ "  ") words])
                ++ [EvRm (claudeHome_of h); EvRm (claudeHome_of h)]),
             Exited 0)
          /\ Forall2 printed_word (Some (cmd r) :: args r) words
          /\ Js.distinct
               (Js.obj_keys (Claudebox.diffEnv (process_env h) (env r)))
             = true
          /\ (Js.distinct (Js.obj_keys (env r)) = true ->
              forall k,
                Js.obj_get k (Claudebox.diffEnv (process_env h) (env r))
                = delta_entry (process_env h) (env r) k)).
Proof.
  intros Hin. split.
  - destruct (claudebox_dry_run_never_spawns h argv (mkState fs0 []) Hin)
      as (st & c & Hrun & Hc & Hsp).
    exists st, c. auto.
  - intros st1 s st2 r E1 Ew.
    destruct (command_line_words r) as (words & Hline & Hwords).
    exists words. split; [|split; [|split]].
    + rewrite <- Hline, <- dry_run_lines_delta.
      exact (claudebox_dry_run_output h argv fs0 st1 st2 s r E1 Hin Ew).
    + exact Hwords.
    + apply diffEnv_distinct.
    + intros Hd k. now apply diffEnv_get.
Qed.

(** A dry run on the host where [bwrap] cannot be spawned. *)
Lemma dry_run_never_spawns_and_prints_witness :
  In "--dry-run" (skipn 2 Example.dry_run_argv)
  /\ exists st,
       run (Claudebox.main Example.linux_no_bwrap Example.dry_run_argv) Example.fresh
       = (st, Exited 0)
       /\ kept is_spawn (trace st) = []
       /\ In (EvLog "#   SSH_AUTH_SOCK=(deleted)") (trace st).
Proof.
  assert (Hin : In "--dry-run" (skipn 2 Example.dry_run_argv)) by (cbn; auto).
  split; [exact Hin|].
  destruct (dry_run_never_spawns_and_prints Example.linux_no_bwrap
              Example.dry_run_argv (SessFs.mk true None) Hin) as (_ & Hout).
  edestruct Hout as (words & Hrun & _).
  - vm_compute. reflexivity.
  - vm_compute. reflexivity.
  - eexists. split; [exact Hrun|]. split; vm_compute; [reflexivity|].
    do 8 right. now left.
Defined.

(** The same arguments without [--dry-run] on the same host fail when
    [bwrap] is spawned; with the flag the run prints and exits 0. *)
Example dry_run_succeeds_where_spawn_fails :
  (exists st,
      run (Claudebox.main Example.linux_no_bwrap Example.real_run_argv) Example.fresh
      = (st, Exited 1)
      /\ In (EvError "spawn bwrap ENOENT") (trace st))
  /\ (exists st,
        run (Claudebox.main Example.linux_no_bwrap Example.dry_run_argv) Example.fresh
        = (st, Exited 0)).
Proof.
  split; eexists; [split|]; vm_compute; try reflexivity.
  do 7 right. now left.
Qed.

(** On a platform without a backend the dry run ends with status 1, not 0:
    [Sandbox.create] throws before [dryRun] is reached. *)
Lemma dry_run_unsupported_platform_exits_1 :
  In "--dry-run" (skipn 2 Example.dry_run_argv)
  /\ exists st,
       run (Claudebox.main Example.freebsd Example.dry_run_argv) Example.fresh
       = (st, Exited 1)
       /\ kept is_spawn (trace st) = [].
Proof.
  split; [cbn; auto|]. eexists. split; vm_compute; reflexivity.
Qed.

(* ===================================================================== *)
(** * Further properties of the code *)
(* ===================================================================== *)

(* --------------------------------------------------------------------- *)
(** ** Utility functions *)

Lemma hex_digit_at (k : nat) :
  k < 16 ->
  exists c, String.get k "0123456789abcdef" = Some c
            /\ Js.has_char c "0123456789abcdef" = true.
Proof.
  intros Hk.
  do 16 (destruct k as [|k]; [eexists; split; reflexivity|]).
  lia.
Qed.

Lemma randomHex_from_shape (h : Host) (n draw : nat) :
  String.length (randomHex_from h draw n) = n
  /\ Js.all_chars (fun c => Js.has_char c "0123456789abcdef")
       (randomHex_from h draw n) = true.
Proof.
  revert draw; induction n as [|n IH]; intros draw; [now split|].
  cbn [randomHex_from].
  destruct (hex_digit_at (Math_random16 h draw mod 16)) as (c & -> & Hc);
    [apply Nat.mod_upper_bound; discriminate|].
  destruct (IH (S draw)) as [Hlen Hall].
  cbn [String.length Js.all_chars]. now rewrite Hlen, Hc, Hall.
Qed.

(** [randomHex(length)] is a string of exactly [length] characters, each
    one of [0123456789abcdef], whatever [Math.random] returns. *)
Theorem randomHex_shape (h : Host) (length : nat) :
  String.length (randomHex h length) = length
  /\ Js.all_chars (fun c => Js.has_char c "0123456789abcdef")
       (randomHex h length) = true.
Proof. apply randomHex_from_shape. Qed.

(** *** [String.prototype.trim] *)

Lemma trimEnd_spaces (ws : string) :
  Js.all_chars Js.is_space ws = true -> Js.trimEnd ws = "".
Proof.
  induction ws as [|c ws IH]; [reflexivity|].
  cbn [Js.all_chars Js.trimEnd]. intros H.
  apply andb_true_iff in H as [Hc Hws]. now rewrite (IH Hws), Hc.
Qed.

Lemma trimEnd_app_spaces (s ws : string) :
  Js.all_chars Js.is_space ws = true -> Js.trimEnd (s ++ ws) = Js.trimEnd s.
Proof.
  intros Hws. induction s as [|c s IH].
  - cbn [String.append]. now rewrite trimEnd_spaces.
  - cbn [String.append Js.trimEnd]. now rewrite IH.
Qed.

Lemma trimStart_spaces (ws : string) :
  Js.all_chars Js.is_space ws = true -> Js.trimStart ws = "".
Proof.
  induction ws as [|c ws IH]; [reflexivity|].
  cbn [Js.all_chars Js.trimStart]. intros H.
  apply andb_true_iff in H as [Hc Hws]. now rewrite Hc, (IH Hws).
Qed.

Lemma trim_app_spaces (s ws : string) :
  Js.all_chars Js.is_space ws = true -> Js.trim (s ++ ws) = Js.trim s.
Proof.
  intros Hws. unfold Js.trim. induction s as [|c s IH].
  - cbn [String.append]. now rewrite trimStart_spaces.
  - cbn [String.append Js.trimStart]. destruct (Js.is_space c); [exact IH|].
    change (String c (s ++ ws)) with (String c s ++ ws).
    now apply trimEnd_app_spaces.
Qed.

Lemma trimStart_head (s : string) (c : ascii) (rest : string) :
  Js.trimStart s = String c rest -> Js.is_space c = false.
Proof.
  induction s as [|d s IH]; [discriminate|].
  cbn [Js.trimStart]. destruct (Js.is_space d) eqn:E; [exact IH|].
  now intros [= <- _].
Qed.

Lemma trimEnd_head (s : string) (c : ascii) (rest : string) :
  Js.trimEnd s = String c rest -> exists s', s = String c s'.
Proof.
  destruct s as [|d s]; [discriminate|].
  cbn [Js.trimEnd]. destruct (Js.trimEnd s); [destruct (Js.is_space d)|];
    intros [= -> _]; eauto.
Qed.

Lemma trimEnd_last (s : string) (c : ascii) :
  Js.last_char (Js.trimEnd s) = Some c -> Js.is_space c = false.
Proof.
  induction s as [|d s IH]; [discriminate|].
  cbn [Js.trimEnd]. destruct (Js.trimEnd s) as [|e t] eqn:E.
  - destruct (Js.is_space d) eqn:Hd; [discriminate|].
    now intros [= <-].
  - intros H. apply IH. exact H.
Qed.

Lemma trim_head (s : string) (c : ascii) (rest : string) :
  Js.trim s = String c rest -> Js.is_space c = false.
Proof.
  unfold Js.trim. intros H.
  destruct (trimEnd_head _ _ _ H) as [s' E].
  exact (trimStart_head _ _ _ E).
Qed.

(** [getRepoRoot(projectDir)] always returns, after one [execSync] and
    without touching the session directory.  When [git] fails the result is
    [projectDir] as it stands; when it succeeds the result is its output
    trimmed: neither its first nor its last character is white space, and an
    output that is a trimmed path followed by a newline gives that path. *)
Theorem getRepoRoot_result (h : Host) (projectDir : string) (st : state) :
  exists root,
    getRepoRoot h projectDir st
    = (mkState (fs st)
         (trace st ++ [EvExec "git rev-parse --show-toplevel 2>/dev/null"]),
       Val root)
    /\ match exec_git_toplevel h projectDir with
       | Err _ => root = projectDir
       | Ok out =>
           root = Js.trim out
           /\ (forall c rest, root = String c rest -> Js.is_space c = false)
           /\ (forall c, Js.last_char root = Some c -> Js.is_space c = false)
           /\ (forall p, out = p ++ nl -> Js.trim p = p -> root = p)
       end.
Proof.
  unfold getRepoRoot, bind, emit.
  destruct (exec_git_toplevel h projectDir) as [out|e].
  - exists (Js.trim out). split; [reflexivity|]. split; [reflexivity|].
    split; [apply trim_head|]. split; [apply trimEnd_last|].
    intros p -> Hp. rewrite trim_app_spaces by reflexivity. exact Hp.
  - exists projectDir. now split.
Qed.

(* --------------------------------------------------------------------- *)
(** ** Paths below a canonical directory *)

Lemma concat_slash_cons (a : string) (t : string) (ts : list string) :
  String.concat "/" (a :: t :: ts) = a ++ Path.render_segs (t :: ts).
Proof.
  change (String.concat "/" (a :: t :: ts))
    with (a ++ "/" ++ String.concat "/" (t :: ts)).
  now rewrite concat_render_segs.
Qed.

Lemma filter_nonempty_canonical (ts : list string) :
  Path.canonical ts = true ->
  filter (fun s => negb (String.eqb s "")) ts = ts.
Proof.
  induction ts as [|t ts IH]; [reflexivity|].
  cbn [Path.canonical forallb filter]. intros H.
  apply andb_true_iff in H as [Ht Hts].
  pose proof (valid_segment_nonempty _ Ht) as Hne.
  apply String.eqb_neq in Hne. rewrite Hne. cbn [negb].
  f_equal. now apply IH.
Qed.

(** [path.join] of a canonical directory and plain names. *)
Lemma join_canonical_list (hs ts : list string) :
  hs <> [] -> Path.canonical hs = true -> Path.canonical ts = true ->
  Path.join (Path.render hs :: ts) = Path.render (hs ++ ts).
Proof.
  intros Hne Hhs Hts. destruct hs as [|s r]; [contradiction|].
  unfold Path.join. cbn [filter Path.render].
  assert (E1 : (Path.render_segs (s :: r) =? "") = false) by reflexivity.
  rewrite E1. cbn [negb]. rewrite (filter_nonempty_canonical _ Hts).
  destruct ts as [|t ts].
  - rewrite List.app_nil_r. cbn [String.concat].
    now apply normalize_render_segs.
  - rewrite concat_slash_cons, <- render_segs_app.
    change ((s :: r) ++ t :: ts)%list with (s :: (r ++ t :: ts))%list.
    apply normalize_render_segs.
    change (s :: (r ++ t :: ts))%list with ((s :: r) ++ t :: ts)%list.
    now rewrite canonical_app, Hhs, Hts.
Qed.

(** [getConfigPath()]: a non-empty [XDG_CONFIG_HOME] decides alone;
    otherwise the path is below [HOME/.config]; with neither, [path.join]
    throws its [TypeError].  For canonical directories the result is the
    directory followed by the segments named. *)
Theorem getConfigPath_sources (h : Host) :
  (forall xs,
     xs <> [] -> Path.canonical xs = true ->
     getenv h "XDG_CONFIG_HOME" = Some (Path.render xs) ->
     getConfigPath h = Ok (Path.render (xs ++ ["claudebox"; "config.json"])))
  /\ (forall hs,
        hs <> [] -> Path.canonical hs = true ->
        Js.truthy_str (getenv h "XDG_CONFIG_HOME") = false ->
        getenv h "HOME" = Some (Path.render hs) ->
        getConfigPath h
        = Ok (Path.render (hs ++ [".config"; "claudebox"; "config.json"])))
  /\ (Js.truthy_str (getenv h "XDG_CONFIG_HOME") = false ->
      getenv h "HOME" = None ->
      getConfigPath h = Err ERR_INVALID_ARG_TYPE).
Proof.
  unfold getConfigPath, path_join. split; [|split].
  - intros xs Hne Hxs ->.
    assert (E : (Path.render xs =? "") = false) by now destruct xs.
    rewrite E. cbn [all_defined]. f_equal.
    now apply join_canonical_list.
  - intros hs Hne Hhs Hx ->.
    assert (E : Path.join [Path.render hs; ".config"]
                = Path.render (hs ++ [".config"]))
      by now apply join_canonical_list.
    assert (Hc : Path.canonical (hs ++ [".config"]) = true)
      by now rewrite canonical_app, Hhs.
    assert (Hne' : (hs ++ [".config"])%list <> [])
      by now destruct hs.
    destruct (getenv h "XDG_CONFIG_HOME") as [x|]; cbn [all_defined].
    + cbn [Js.truthy_str] in Hx. apply negb_false_iff in Hx. rewrite Hx.
      cbn [all_defined]. rewrite E. f_equal.
      rewrite (join_canonical_list _ ["claudebox"; "config.json"] Hne' Hc eq_refl).
      now rewrite <- List.app_assoc.
    + rewrite E. f_equal.
      rewrite (join_canonical_list _ ["claudebox"; "config.json"] Hne' Hc eq_refl).
      now rewrite <- List.app_assoc.
  - intros Hx ->. destruct (getenv h "XDG_CONFIG_HOME") as [x|]; [|reflexivity].
    cbn [Js.truthy_str] in Hx. apply negb_false_iff in Hx. now rewrite Hx.
Qed.

Lemma getConfigPath_sources_witness :
  getConfigPath Example.linux = Ok "/home/u/.config/claudebox/config.json".
Proof.
  exact (proj1 (proj2 (getConfigPath_sources Example.linux))
           ["home"; "u"] ltac:(discriminate) eq_refl eq_refl eq_refl).
Defined.

(* --------------------------------------------------------------------- *)
(** ** [loadConfig] *)

Lemma obj_has_set {V : Type} (k k' : string) (v : V) (o : Js.obj V) :
  Js.obj_has k (Js.obj_set k' v o) = String.eqb k' k || Js.obj_has k o.
Proof.
  unfold Js.obj_has. rewrite obj_get_set. now destruct (String.eqb k' k).
Qed.

Lemma spread_has (k : string) (more base : Js.obj Js.json) :
  Js.obj_has k (spread base more)
  = Js.obj_has k base || Js.obj_has k more.
Proof.
  unfold spread. revert base.
  induction more as [|[k1 v1] more IH]; intros base; cbn [fold_left fst snd].
  - now rewrite orb_false_r.
  - rewrite IH, obj_has_set.
    unfold Js.obj_has at 4. cbn [Js.obj_get].
    fold (Js.obj_has k more).
    destruct (String.eqb k1 k); [now rewrite orb_true_r | reflexivity].
Qed.

Lemma loadConfig_cases (h : Host) (defaults : Js.obj Js.json)
  (configPath : string) (st : state) :
  getConfigPath h = Ok configPath ->
  exists config warnings,
    loadConfig h defaults st
    = (mkState (fs st) (trace st ++ map EvError warnings), Val config)
    /\ (forall k, Js.obj_has k defaults = true -> Js.obj_has k config = true)
    /\ match (let? content := fs_readFileSync h configPath in
              JSON_parse h content) with
       | Ok userConfig =>
           warnings = []
           /\ config = spread (spread [] defaults) (spread_props userConfig)
       | Err e =>
           config = spread [] defaults
           /\ warnings
              = if Claudebox.opt_string_eqb (err_code e) (Some "ENOENT")
                then []
                else ["Warning: Failed to load config from " ++ configPath
                      ++ ": " ++ err_message e]
       end.
Proof.
  intros Hp. unfold loadConfig. rewrite Hp. unfold_M. cbn.
  assert (Hdef : forall k, Js.obj_has k defaults = true ->
                           Js.obj_has k (spread [] defaults) = true).
  { intros k Hk. now rewrite spread_has, Hk, orb_true_r. }
  assert (Hst : forall tr : list event, (tr ++ [])%list = tr)
    by apply List.app_nil_r.
  assert (Hid : {| fs := fs st; trace := trace st |} = st) by now destruct st.
  destruct (fs_readFileSync h configPath) as [content|e]; cbn;
    [destruct (JSON_parse h content) as [u|e]; cbn|].
  - exists (spread (spread [] defaults) (spread_props u)), [].
    cbn [map]. rewrite Hst, Hid. split; [reflexivity|].
    split; [|split; reflexivity].
    intros k Hk. rewrite (spread_has k (spread_props u) (spread [] defaults)).
    apply orb_true_iff. left. now apply Hdef.
  - exists (spread [] defaults). unfold Claudebox.opt_string_eqb.
    destruct (err_code e) as [c|]; [destruct (c =? "ENOENT")|]; cbn;
      eexists; (split; [|split; [exact Hdef | split; reflexivity]]);
      cbn [map]; rewrite ?Hst, ?Hid; reflexivity.
  - exists (spread [] defaults). unfold Claudebox.opt_string_eqb.
    destruct (err_code e) as [c|]; [destruct (c =? "ENOENT")|]; cbn;
      eexists; (split; [|split; [exact Hdef | split; reflexivity]]);
      cbn [map]; rewrite ?Hst, ?Hid; reflexivity.
Qed.

(** [loadConfig()], once the path of the file is known, always returns and
    leaves the session directory alone.  Whatever the file holds, every key
    of the defaults is defined in the result.  A file that is read and
    parsed is spread over the defaults without a word; a failure gives the
    defaults, with one warning on the error stream unless the error code is
    [ENOENT]. *)
Theorem loadConfig_outcome (h : Host) (defaults : Js.obj Js.json)
  (configPath : string) (st : state) :
  getConfigPath h = Ok configPath ->
  exists config warnings,
    loadConfig h defaults st
    = (mkState (fs st) (trace st ++ map EvError warnings), Val config)
    /\ (forall k, Js.obj_has k defaults = true -> Js.obj_has k config = true)
    /\ match (let? content := fs_readFileSync h configPath in
              JSON_parse h content) with
       | Ok userConfig =>
           warnings = []
           /\ config = spread (spread [] defaults) (spread_props userConfig)
       | Err e =>
           config = spread [] defaults
           /\ warnings
              = if Claudebox.opt_string_eqb (err_code e) (Some "ENOENT")
                then []
                else ["Warning: Failed to load config from " ++ configPath
                      ++ ": " ++ err_message e]
       end.
Proof. apply loadConfig_cases. Qed.

(** On the example host the file is read: the key it does not mention
    keeps its default. *)
Lemma loadConfig_outcome_witness :
  exists config,
    Claudebox.loadConfig Example.linux Example.fresh = (Example.fresh, Val config)
    /\ Js.obj_get "allowGpgAgent" config = Some (Js.JBool true)
    /\ Js.obj_get "allowXdgRuntime" config = Some (Js.JBool false).
Proof.
  destruct (loadConfig_outcome Example.linux Claudebox.CONFIG_DEFAULTS
              Example.config_path Example.fresh eq_refl)
    as (config & warnings & E & _ & H).
  cbn in H. destruct H as [-> ->].
  eexists. split; [exact E|]. split; reflexivity.
Defined.
(* --------------------------------------------------------------------- *)
(** ** The session directory *)

Lemma hex_no_slash (x : string) :
  Js.all_chars (fun c => Js.has_char c "0123456789abcdef") x = true ->
  Js.has_char Path.slash x = false.
Proof.
  induction x as [|d x IH]; [reflexivity|].
  cbn [Js.all_chars Js.has_char]. intros H.
  apply andb_true_iff in H as [Hd Hx]. rewrite (IH Hx), orb_false_r.
  destruct (Ascii.eqb_spec d Path.slash) as [->|]; [discriminate | reflexivity].
Qed.

Lemma session_name_valid (x : string) :
  Js.all_chars (fun c => Js.has_char c "0123456789abcdef") x = true ->
  Path.valid_segment ("claudebox-" ++ x) = true.
Proof.
  intros Hx. unfold Path.valid_segment.
  cbn [String.append String.eqb Ascii.eqb Bool.eqb negb andb Js.has_char].
  change (Js.has_char Path.slash ("claudebox-" ++ x))
    with (Js.has_char Path.slash x).
  now rewrite (hex_no_slash _ Hx).
Qed.

Lemma fold_norm_step_empty (b : bool) (acc : list string) :
  Path.norm_step b acc "" = acc.
Proof. reflexivity. Qed.

(** [path.join] of a canonical directory written with a trailing slash and
    a plain name. *)
Lemma join_trailing_slash (ss : list string) (t : string) :
  ss <> [] -> Path.canonical ss = true -> Path.valid_segment t = true ->
  Path.join [Path.render_segs ss ++ "/"; t] = Path.render_segs (ss ++ [t]).
Proof.
  intros Hne Hss Ht.
  pose proof (valid_segment_nonempty _ Ht) as Ht'.
  unfold Path.join. cbn [filter].
  assert (E1 : (Path.render_segs ss ++ "/" =? "") = false)
    by (destruct ss as [|s r]; [contradiction | reflexivity]).
  rewrite E1. apply String.eqb_neq in Ht'. rewrite Ht'. cbn [negb].
  change (String.concat "/" [Path.render_segs ss ++ "/"; t])
    with ((Path.render_segs ss ++ "/") ++ "/" ++ t).
  assert (E2 : (Path.render_segs ss ++ "/") ++ "/" ++ t
               = Path.render_segs (ss ++ [""; t])).
  { rewrite render_segs_app. cbn [Path.render_segs String.append].
    now rewrite app_nil_r_s, app_assoc_s. }
  rewrite E2. unfold Path.normalize.
  assert (Hns : forallb Path.no_slash (ss ++ [""; t]) = true).
  { rewrite forallb_app, (canonical_no_slash _ Hss).
    cbn [forallb andb]. rewrite (valid_no_slash _ Ht). reflexivity. }
  rewrite (split_render_segs _ Hns).
  assert (E3 : (Path.render_segs (ss ++ [""; t]) =? "") = false)
    by (destruct ss as [|s r]; [contradiction | reflexivity]).
  rewrite E3.
  assert (E4 : Js.startsWith (Path.render_segs (ss ++ [""; t])) "/" = true)
    by (destruct ss as [|s r]; [contradiction | reflexivity]).
  rewrite E4. cbn [negb].
  assert (E5 : Path.normalizeString false ("" :: ss ++ [""; t])
               = (ss ++ [t])%list).
  { unfold Path.normalizeString. cbn [fold_left].
    rewrite fold_norm_step_empty, fold_left_app, (fold_norm_valid _ _ _ Hss).
    cbn [fold_left]. rewrite fold_norm_step_empty, (norm_step_valid _ _ _ Ht).
    cbn [rev]. now rewrite List.app_nil_r, rev_involutive. }
  rewrite E5.
  assert (E6 : Js.endsWithChar (Path.render_segs (ss ++ [""; t])) Path.slash
               = false).
  { rewrite <- E2. unfold Js.endsWithChar.
    rewrite last_char_app
      by (apply String.eqb_neq in Ht'; destruct t; [contradiction | discriminate]).
    change ("/" ++ t) with (String Path.slash t).
    assert (Hl : Js.last_char (String Path.slash t) = Js.last_char t)
      by (apply String.eqb_neq in Ht'; destruct t; [contradiction | reflexivity]).
    rewrite Hl.
    destruct (Js.last_char t) as [c|] eqn:E; [|reflexivity].
    apply last_char_has in E.
    destruct (Ascii.eqb_spec c Path.slash) as [->|]; [|reflexivity].
    apply valid_no_slash in Ht. unfold Path.no_slash in Ht. now rewrite E in Ht. }
  rewrite E6.
  destruct (ss ++ [t])%list as [|s0 r0] eqn:E; [now destruct ss|].
  assert (Hne' : String.concat "/" (s0 :: r0) <> "").
  { assert (Hc : Path.canonical (s0 :: r0) = true)
      by (rewrite <- E, canonical_app, Hss; cbn; now rewrite Ht).
    cbn in Hc. apply andb_true_iff in Hc as [Hs0 _].
    apply valid_segment_nonempty in Hs0.
    destruct r0; cbn; [assumption|]. destruct s0; [contradiction | discriminate]. }
  apply String.eqb_neq in Hne'. rewrite Hne'.
  apply concat_render_segs.
Qed.

(** The session directory of a run is the directory named
    [claudebox-<sessionId>] directly below the temp directory, whether the
    temp directory is written with a trailing slash (as [TMPDIR] is on
    macOS) or without; the name is a single path segment. *)
Theorem claudeHome_shape (h : Host) (ts : list string) :
  ts <> [] -> Path.canonical ts = true ->
  getTmpDir h = Path.render ts \/ getTmpDir h = Path.render ts ++ "/" ->
  claudeHome_of h = Path.render (ts ++ ["claudebox-" ++ randomHex h 8])
  /\ Path.canonical (ts ++ ["claudebox-" ++ randomHex h 8]) = true.
Proof.
  intros Hne Hts Htmp.
  assert (Hv : Path.valid_segment ("claudebox-" ++ randomHex h 8) = true)
    by exact (session_name_valid _ (proj2 (randomHex_from_shape h 8 0))).
  split.
  - unfold claudeHome_of. destruct Htmp as [-> | ->].
    + now apply join_canonical.
    + destruct ts as [|s r]; [contradiction|]. cbn [Path.render].
      rewrite join_trailing_slash by (assumption || discriminate).
      reflexivity.
  - rewrite canonical_app, Hts. unfold Path.canonical. cbn [forallb].
    now rewrite Hv.
Qed.

(** The macOS example host, whose [TMPDIR] ends with a slash. *)
Lemma claudeHome_shape_witness :
  claudeHome_of Example.darwin = "/var/folders/zz/T/claudebox-01234567".
Proof.
  exact (proj1 (claudeHome_shape Example.darwin ["var"; "folders"; "zz"; "T"]
                  ltac:(discriminate) eq_refl (or_intror eq_refl))).
Defined.

(* --------------------------------------------------------------------- *)
(** ** Command lines that are accepted, asked for help, or refused *)




Module ClaudeboxParse.
Import Claudebox.

(** An argument the loop of [parseArgs] steps over. *)
Lemma parse_known_claudebox (h : Host) (known rest : list string) :
  (forall k, In k known ->
     (exists f, k = field_flag f) \/ k = "--dry-run") ->
  forall o, exists o', parse_loop h (known ++ rest) o = parse_loop h rest o'.
Proof.
  induction known as [|k known IH]; intros Hk o; [now exists o|].
  assert (Hk' : forall k0, In k0 known ->
                  (exists f, k0 = field_flag f) \/ k0 = "--dry-run")
    by (intros k0 H0; apply Hk; now right).
  destruct (Hk k (or_introl eq_refl)) as [[f ->] | ->].
  - destruct f; cbn [app parse_loop field_flag]; eval_eqb; apply (IH Hk').
  - cbn [app parse_loop]; eval_eqb. apply (IH Hk').
Qed.



End ClaudeboxParse.

Module Part001Parse.
Import Part001.

Lemma parse_known_part001 (h : Host) (known rest : list string) :
  (forall k, In k known -> exists f, k = field_flag f) ->
  forall o, exists o', parse_loop h (known ++ rest) o = parse_loop h rest o'.
Proof.
  induction known as [|k known IH]; intros Hk o; [now exists o|].
  assert (Hk' : forall k0, In k0 known -> exists f, k0 = field_flag f)
    by (intros k0 H0; apply Hk; now right).
  destruct (Hk k (or_introl eq_refl)) as [f ->].
  destruct f; cbn [app parse_loop field_flag]; eval_eqb; apply (IH Hk').
Qed.



End Part001Parse.



Lemma loadConfig_returns (h : Host) (defaults : Js.obj Js.json)
  (configPath : string) (st : state) :
  getConfigPath h = Ok configPath ->
  exists config warnings,
    loadConfig h defaults st
    = (mkState (fs st) (trace st ++ map EvError warnings), Val config).
Proof.
  intros Hp.
  destruct (loadConfig_cases h defaults configPath st Hp)
    as (config & warnings & E & _).
  now exists config, warnings.
Qed.

(** In both copies: when the path of the configuration file can be
    computed and every argument is an option of the copy, [parseArgs]
    returns its options, and the session directory is as it was. *)
Theorem parseArgs_accepts_known :
  (forall (h : Host) (args : list string) (st : state) (configPath : string),
     getConfigPath h = Ok configPath ->
     (forall k, In k args ->
        (exists f, k = Claudebox.field_flag f) \/ k = "--dry-run") ->
     exists st' options,
       Claudebox.parseArgs h args st = (st', Val options)
       /\ fs st' = fs st)
  /\ (forall (h : Host) (args : list string) (st : state) (configPath : string),
        getConfigPath h = Ok configPath ->
        (forall k, In k args -> exists f, k = Part001.field_flag f) ->
        exists st' options,
          Part001.parseArgs h args st = (st', Val options)
          /\ fs st' = fs st).
Proof.
  split; intros h args st configPath Hp Hk.
  - unfold Claudebox.parseArgs, Claudebox.loadConfig, bind.
    destruct (loadConfig_returns h Claudebox.CONFIG_DEFAULTS configPath st Hp)
      as (config & warnings & ->).
    destruct (ClaudeboxParse.parse_known_claudebox h args [] Hk
                (Claudebox.mkOverrides (fun _ => None) false)) as [o' E].
    rewrite List.app_nil_r in E. rewrite E. cbn [Claudebox.parse_loop].
    unfold ret. eexists _, _. split; reflexivity.
  - unfold Part001.parseArgs, Part001.loadConfig, bind.
    destruct (loadConfig_returns h Part001.CONFIG_DEFAULTS configPath st Hp)
      as (config & warnings & ->).
    destruct (Part001Parse.parse_known_part001 h args [] Hk (fun _ => None))
      as [o' E].
    rewrite List.app_nil_r in E. rewrite E. cbn [Part001.parse_loop].
    unfold ret. eexists _, _. split; reflexivity.
Qed.

Lemma parseArgs_accepts_known_witness :
  exists st' options,
    Part001.parseArgs Example.linux ["--allow-ide"; "--allow-git-config"]
      Example.fresh = (st', Val options)
    /\ fs st' = fs Example.fresh.
Proof.
  apply (proj2 parseArgs_accepts_known Example.linux
           ["--allow-ide"; "--allow-git-config"] Example.fresh
           Example.config_path eq_refl).
  intros k [<- | [<- | []]];
    [exists Part001.AllowIde | exists Part001.AllowGitConfig]; reflexivity.
Defined.



(* --------------------------------------------------------------------- *)
(** ** Reading the arguments of [bwrap] block by block *)

Lemma complete_nil : complete [].
Proof. intros rest. now split. Qed.

Lemma complete_app (a b : list (option string)) :
  complete a -> complete b -> complete (a ++ b).
Proof.
  intros Ha Hb rest. rewrite <- List.app_assoc.
  destruct (Ha (b ++ rest)%list) as [E1 C1]. destruct (Hb rest) as [E2 C2].
  destruct (Ha b) as [E3 _].
  rewrite E1, E2, E3, C1, C2. now rewrite List.app_assoc.
Qed.

Lemma complete_if (c : bool) (a b : list (option string)) :
  complete a -> complete b -> complete (if c then a else b).
Proof. now destruct c. Qed.

Lemma complete_base : complete bwrap_base_args.
Proof. intros rest. split; reflexivity. Qed.

Lemma complete_setenv (home user pathEnv : option string) :
  complete (bwrap_setenv_args home user pathEnv).
Proof. intros rest. split; reflexivity. Qed.

Lemma complete_3 (w : string) (a b : option string) :
  In w ["--ro-bind"; "--bind"; "--ro-bind-try"; "--setenv"] ->
  complete [Some w; a; b].
Proof.
  intros [<- | [<- | [<- | [<- | []]]]] rest; split; reflexivity.
Qed.

Lemma complete_tmpfs (d : option string) : complete [Some "--tmpfs"; d].
Proof. intros rest. split; reflexivity. Qed.

Lemma complete_cons3 (w : string) (a b : option string)
  (l : list (option string)) :
  In w ["--ro-bind"; "--bind"; "--ro-bind-try"; "--setenv"] ->
  complete l -> complete (Some w :: a :: b :: l).
Proof.
  intros Hw Hl.
  change (Some w :: a :: b :: l) with ([Some w; a; b] ++ l)%list.
  apply complete_app; [now apply complete_3 | assumption].
Qed.

Lemma complete_cons2 (d : option string) (l : list (option string)) :
  complete l -> complete (Some "--tmpfs" :: d :: l).
Proof.
  intros Hl.
  change (Some "--tmpfs" :: d :: l) with ([Some "--tmpfs"; d] ++ l)%list.
  apply complete_app; [apply complete_tmpfs | assumption].
Qed.

(** Blocks built from the options the program pushes are complete. *)
Ltac complete_tac :=
  repeat first
    [ assumption
    | apply complete_nil
    | apply complete_base
    | apply complete_setenv
    | progress cbn [strs map app]
    | apply complete_cons2
    | apply complete_cons3; [cbn; tauto|]
    | apply complete_app
    | apply complete_if ].

Lemma entries_app (a b : list (option string)) :
  complete a ->
  Bwrap.entries (a ++ b) = (Bwrap.entries a ++ Bwrap.entries b)%list.
Proof. intros Ha. apply Ha. Qed.

Lemma writable_binds_app (a b : list (option string)) :
  complete a ->
  writable_binds (a ++ b) = (writable_binds a ++ writable_binds b)%list.
Proof.
  intros Ha. unfold writable_binds. now rewrite (entries_app _ _ Ha), filter_app.
Qed.

Lemma bwrap_command_app (a b : list (option string)) :
  complete a -> bwrap_command (a ++ b) = bwrap_command b.
Proof. intros Ha. apply Ha. Qed.

Lemma writable_binds_if (c : bool) (a b : list (option string)) :
  writable_binds (if c then a else b)
  = if c then writable_binds a else writable_binds b.
Proof. now destruct c. Qed.

Lemma if_same {A : Type} (c : bool) (x : A) : (if c then x else x) = x.
Proof. now destruct c. Qed.

Lemma if_app_r {A : Type} (c : bool) (a b : list A) :
  (if c then (a ++ b)%list else a) = (a ++ (if c then b else []))%list.
Proof. destruct c; [reflexivity | now rewrite List.app_nil_r]. Qed.

Lemma if_app_both {A : Type} (c : bool) (a b b' : list A) :
  (if c then (a ++ b)%list else (a ++ b')%list)
  = (a ++ (if c then b else b'))%list.
Proof. now destruct c. Qed.

Lemma if_Ok {A : Type} (c : bool) (x y : A) :
  (if c then Ok x else Ok y) = Ok (if c then x else y).
Proof. now destruct c. Qed.

Opaque Path.join.

Lemma part001_wrap_binds (h : Host) (config : Part001.SandboxConfig)
  (script : string) (r : WrapResult) :
  Part001.BubblewrapSandbox_wrap h config script = Ok r ->
  exists home,
    getenv h "HOME" = Some home
    /\ writable_binds (args r)
       = [Bwrap.Bind (Some "/nix/var/nix/daemon-socket")
                     (Some "/nix/var/nix/daemon-socket");
          Bwrap.Bind (Some (Part001.claudeHome config)) (Some home);
          Bwrap.Bind (Some (Part001.claudeConfig config))
                     (Some (Path.join [home; ".claude"]));
          Bwrap.Bind (Some (Part001.claudeJson config))
                     (Some (Path.join [home; ".claude.json"]));
          Bwrap.Bind (Some (Part001.repoRoot config))
                     (Some (Part001.repoRoot config))]
    /\ bwrap_command (args r) = strs ["bash"; "-c"; script].
Proof.
  intros H. unfold Part001.BubblewrapSandbox_wrap, path_join in H.
  destruct (getenv h "HOME") as [home|]; cbn [all_defined] in H;
    [|discriminate].
  exists home. split; [reflexivity|].
  cbv beta iota zeta in H. rewrite ?if_Ok in H. cbv beta iota zeta in H.
  apply (f_equal (fun x => match x with Ok w => w | Err _ => r end)) in H.
  cbv beta iota in H. subst r. cbv beta iota delta [args].
  match goal with
  | |- context [(bwrap_base_args ++ ?x)%list] =>
      set (A1 := (bwrap_base_args ++ x)%list)
  end.
  assert (HA1c : complete A1) by (subst A1; complete_tac).
  assert (HA1w : writable_binds A1
                 = [Bwrap.Bind (Some "/nix/var/nix/daemon-socket")
                               (Some "/nix/var/nix/daemon-socket");
                    Bwrap.Bind (Some (Part001.claudeHome config)) (Some home);
                    Bwrap.Bind (Some (Part001.claudeConfig config))
                               (Some (Path.join [home; ".claude"]));
                    Bwrap.Bind (Some (Part001.claudeJson config))
                               (Some (Path.join [home; ".claude.json"]))]).
  { subst A1.
    rewrite writable_binds_app by apply complete_base.
    cbn [strs map app].
    repeat match goal with
    | |- context [if ?c then _ else _] => destruct c
    end; reflexivity. }
  clearbody A1.
  repeat match goal with
  | |- context [if ?c then _ else _] => destruct c
  end.
  all: rewrite <- ?List.app_assoc; cbn [strs map app].
  all: rewrite (writable_binds_app A1 _ HA1c), (bwrap_command_app A1 _ HA1c),
              HA1w; split; reflexivity.
Qed.

Lemma claudebox_wrap_result_binds (h : Host)
  (config : Claudebox.SandboxConfig) (script : string)
  (sshConfigArgs : list (option string)) (r : WrapResult) :
  (sshConfigArgs = []
   \/ exists a b, sshConfigArgs = strs ["--ro-bind"; a; b]) ->
  Claudebox.wrap_result h config script sshConfigArgs = Ok r ->
  exists home,
    getenv h "HOME" = Some home
    /\ writable_binds (args r)
       = ([Bwrap.Bind (Some "/nix/var/nix/daemon-socket")
                      (Some "/nix/var/nix/daemon-socket");
           Bwrap.Bind (Some (Claudebox.claudeHome config)) (Some home);
           Bwrap.Bind (Some (Claudebox.claudeConfig config))
                      (Some (Path.join [home; ".claude"]));
           Bwrap.Bind (Some (Claudebox.claudeJson config))
                      (Some (Path.join [home; ".claude.json"]));
           Bwrap.Bind (Some (Claudebox.repoRoot config))
                      (Some (Claudebox.repoRoot config))]
          ++ match getenv h "SSH_AUTH_SOCK" with
             | Some sock =>
                 if truthy_value (Claudebox.allow config Claudebox.AllowSshAgent)
                    && negb (String.eqb sock "") && pathExists h sock
                 then [Bwrap.Bind (Some sock) (Some Claudebox.SANDBOX_SSH_SOCK)]
                 else []
             | None => []
             end)%list
    /\ bwrap_command (args r) = strs ["bash"; "-c"; script].
Proof.
  intros Hshape H. unfold Claudebox.wrap_result, path_join in H.
  destruct (getenv h "HOME") as [home|]; cbn [all_defined] in H;
    [|discriminate].
  exists home. split; [reflexivity|].
  cbv beta iota zeta in H.
  apply (f_equal (fun x => match x with Ok w => w | Err _ => r end)) in H.
  cbv beta iota in H. subst r. cbv beta iota delta [args].
  match goal with
  | |- context [((bwrap_base_args ++ sshConfigArgs) ++ ?x)%list] =>
      set (A1 := ((bwrap_base_args ++ sshConfigArgs) ++ x)%list)
  end.
  assert (HA1c : complete A1).
  { subst A1. destruct Hshape as [-> | (a & b & ->)]; complete_tac. }
  assert (HA1w : writable_binds A1
                 = [Bwrap.Bind (Some "/nix/var/nix/daemon-socket")
                               (Some "/nix/var/nix/daemon-socket");
                    Bwrap.Bind (Some (Claudebox.claudeHome config)) (Some home);
                    Bwrap.Bind (Some (Claudebox.claudeConfig config))
                               (Some (Path.join [home; ".claude"]));
                    Bwrap.Bind (Some (Claudebox.claudeJson config))
                               (Some (Path.join [home; ".claude.json"]))]).
  { subst A1. rewrite <- List.app_assoc.
    rewrite writable_binds_app by apply complete_base.
    destruct Hshape as [-> | (a & b & ->)]; reflexivity. }
  clearbody A1.
  destruct (truthy_value (Claudebox.allow config Claudebox.AllowSshAgent));
    (destruct (getenv h "SSH_AUTH_SOCK") as [sock|];
     [destruct (String.eqb sock "") eqn:Esock|]);
    cbn [Js.truthy_str Js.or_else negb andb]; rewrite ?Esock;
    cbn [negb andb];
    try destruct (pathExists h sock).
  all: repeat match goal with
       | |- context [if ?c then _ else _] => destruct c
       end.
  all: rewrite <- ?List.app_assoc; cbn [strs map app].
  all: rewrite (writable_binds_app A1 _ HA1c), (bwrap_command_app A1 _ HA1c),
         HA1w; split; reflexivity.
Qed.

(** In both copies, whenever the bubblewrap backend's [wrap] returns:
    [HOME] is set; the [--bind] mounts, the only ones the sandboxed process
    can write through, are the Nix daemon socket, the session directory as
    the home directory, the two Claude configuration paths and the project
    directory, whatever the capability flags, plus, in
    [src/src/claudebox.js], the SSH agent socket when it is enabled and
    present; and the command [bwrap] is given to run is [bash -c script]. *)
Theorem bwrap_writable_binds :
  (forall (h : Host) (config : Part001.SandboxConfig) (script : string)
          (r : WrapResult),
     Part001.BubblewrapSandbox_wrap h config script = Ok r ->
     exists home,
       getenv h "HOME" = Some home
       /\ writable_binds (args r)
          = [Bwrap.Bind (Some "/nix/var/nix/daemon-socket")
                        (Some "/nix/var/nix/daemon-socket");
             Bwrap.Bind (Some (Part001.claudeHome config)) (Some home);
             Bwrap.Bind (Some (Part001.claudeConfig config))
                        (Some (Path.join [home; ".claude"]));
             Bwrap.Bind (Some (Part001.claudeJson config))
                        (Some (Path.join [home; ".claude.json"]));
             Bwrap.Bind (Some (Part001.repoRoot config))
                        (Some (Part001.repoRoot config))]
       /\ bwrap_command (args r) = strs ["bash"; "-c"; script])
  /\ (forall (h : Host) (config : Claudebox.SandboxConfig) (script : string)
             (st st' : state) (r : WrapResult),
        Claudebox.BubblewrapSandbox_wrap h config script st = (st', Val r) ->
        exists home,
          getenv h "HOME" = Some home
          /\ writable_binds (args r)
             = ([Bwrap.Bind (Some "/nix/var/nix/daemon-socket")
                            (Some "/nix/var/nix/daemon-socket");
                 Bwrap.Bind (Some (Claudebox.claudeHome config)) (Some home);
                 Bwrap.Bind (Some (Claudebox.claudeConfig config))
                            (Some (Path.join [home; ".claude"]));
                 Bwrap.Bind (Some (Claudebox.claudeJson config))
                            (Some (Path.join [home; ".claude.json"]));
                 Bwrap.Bind (Some (Claudebox.repoRoot config))
                            (Some (Claudebox.repoRoot config))]
                ++ match getenv h "SSH_AUTH_SOCK" with
                   | Some sock =>
                       if truthy_value
                            (Claudebox.allow config Claudebox.AllowSshAgent)
                          && negb (String.eqb sock "") && pathExists h sock
                       then [Bwrap.Bind (Some sock)
                               (Some Claudebox.SANDBOX_SSH_SOCK)]
                       else []
                   | None => []
                   end)%list
          /\ bwrap_command (args r) = strs ["bash"; "-c"; script]).
Proof.
  split.
  - exact part001_wrap_binds.
  - intros h config script st st' r H.
    unfold Claudebox.BubblewrapSandbox_wrap, bind in H.
    destruct (Claudebox.sanitize_ssh_config h config st) as [st1 o] eqn:E.
    apply sanitize_ssh_config_args in E as (sshConfigArgs & -> & _ & Hshape).
    unfold lift in H.
    destruct (Claudebox.wrap_result h config script sshConfigArgs)
      as [r'|e] eqn:E; [|discriminate].
    injection H as <- <-.
    apply (claudebox_wrap_result_binds h config script sshConfigArgs r');
      [|assumption].
    destruct Hshape as [-> | (real & ->)]; [now left | right; eauto].
Qed.

(** On the example host with every flag of the older copy set: five
    writable mounts, as with every flag cleared. *)
Lemma bwrap_writable_binds_witness :
  exists r,
    Part001.BubblewrapSandbox_wrap Example.linux
      (Example.part001_config (fun _ => Some (Js.JBool true)))
      "exec claude" = Ok r
    /\ List.length (writable_binds (args r)) = 5
    /\ bwrap_command (args r) = strs ["bash"; "-c"; "exec claude"].
Proof.
  destruct (Part001.BubblewrapSandbox_wrap Example.linux
              (Example.part001_config (fun _ => Some (Js.JBool true)))
              "exec claude") as [r|e] eqn:E; [|vm_compute in E; discriminate].
  destruct (proj1 bwrap_writable_binds Example.linux
              (Example.part001_config (fun _ => Some (Js.JBool true)))
              "exec claude" r E) as (home & _ & Hw & Hc).
  exists r. split; [reflexivity|]. rewrite Hw. now split.
Defined.

(* --------------------------------------------------------------------- *)
(** ** The order of the mounts *)


Ltac in_list := solve [repeat (first [left; reflexivity | right])].





Lemma part001_wrap_ide (h : Host) (config : Part001.SandboxConfig)
  (script : string) (r : WrapResult) :
  Part001.BubblewrapSandbox_wrap h config script = Ok r ->
  exists home pre,
    getenv h "HOME" = Some home
    /\ args r
       = (pre
          ++ (if truthy_value (Part001.allow config Part001.AllowIde)
                 && isDirectory h (Path.join [home; ".claude"; "ide"])
              then strs ["--ro-bind"; Path.join [home; ".claude"; "ide"];
                         Path.join [home; ".claude"; "ide"]]
              else [])
          ++ strs ["bash"; "-c"; script])%list
    /\ Bwrap.entries (args r)
       = (Bwrap.entries pre
          ++ (if truthy_value (Part001.allow config Part001.AllowIde)
                 && isDirectory h (Path.join [home; ".claude"; "ide"])
              then [Bwrap.RoBind (Some (Path.join [home; ".claude"; "ide"]))
                                 (Some (Path.join [home; ".claude"; "ide"]))]
              else []))%list
    /\ In (Bwrap.Bind (Some (Part001.claudeConfig config))
                      (Some (Path.join [home; ".claude"])))
          (Bwrap.entries pre).
Proof.
  intros H. unfold Part001.BubblewrapSandbox_wrap, path_join in H.
  destruct (getenv h "HOME") as [home|]; cbn [all_defined] in H;
    [|discriminate].
  exists home.
  cbv beta iota zeta in H. rewrite ?if_Ok in H. cbv beta iota zeta in H.
  apply (f_equal (fun x => match x with Ok w => w | Err _ => r end)) in H.
  cbv beta iota in H. subst r. cbv beta iota delta [args].
  match goal with
  | |- context [(bwrap_base_args ++ ?x)%list] =>
      set (A1 := (bwrap_base_args ++ x)%list)
  end.
  assert (HA1c : complete A1) by (subst A1; complete_tac).
  assert (HA1b : In (Bwrap.Bind (Some (Part001.claudeConfig config))
                                (Some (Path.join [home; ".claude"])))
                    (Bwrap.entries A1)).
  { subst A1. rewrite entries_app by apply complete_base.
    apply in_or_app. right. cbn [strs map app]. cbn. in_list. }
  clearbody A1.
  match goal with
  | |- context [(?y ++ strs ["--ro-bind"; Path.join [home; ".claude"; "ide"]; _])%list] =>
      set (Y := y)
  end.
  assert (HY : exists lit, Y = (A1 ++ lit)%list /\ complete lit).
  { subst Y.
    repeat match goal with
    | |- context [if ?c then _ else _] => destruct c
    end;
    rewrite <- ?List.app_assoc; eexists; (split; [reflexivity|]);
    complete_tac. }
  destruct HY as (lit & HYeq & Hlit).
  assert (HYc : complete Y) by (rewrite HYeq; now apply complete_app).
  clearbody Y. exists Y. split; [reflexivity|].
  assert (Hin : In (Bwrap.Bind (Some (Part001.claudeConfig config))
                               (Some (Path.join [home; ".claude"])))
                   (Bwrap.entries Y)).
  { rewrite HYeq, (entries_app _ _ HA1c). apply in_or_app. now left. }
  destruct (truthy_value (Part001.allow config Part001.AllowIde));
    [destruct (isDirectory h (Path.join [home; ".claude"; "ide"]))|];
    cbn [andb]; rewrite <- ?List.app_assoc;
    (split; [reflexivity|]); (split; [|exact Hin]);
    rewrite (entries_app _ _ HYc); reflexivity.
Qed.

(** What the IDE flag changes in the result of [wrap]. *)
Lemma part001_wrap_ide_baseline (h : Host) (config : Part001.SandboxConfig)
  (script : string) (r : WrapResult) :
  Part001.BubblewrapSandbox_wrap h config script = Ok r ->
  exists home pre r0,
    getenv h "HOME" = Some home
    /\ Part001.BubblewrapSandbox_wrap h (part001_ide_off config) script = Ok r0
    /\ cmd r = cmd r0 /\ env r = env r0
    /\ args r0 = (pre ++ strs ["bash"; "-c"; script])%list
    /\ args r
       = (pre
          ++ (if truthy_value (Part001.allow config Part001.AllowIde)
                 && isDirectory h (Path.join [home; ".claude"; "ide"])
              then strs ["--ro-bind"; Path.join [home; ".claude"; "ide"];
                         Path.join [home; ".claude"; "ide"]]
              else [])
          ++ strs ["bash"; "-c"; script])%list.
Proof.
  unfold Part001.BubblewrapSandbox_wrap.
  cbn [part001_ide_off Part001.allow Part001.claudeHome
       Part001.claudeConfig Part001.claudeJson Part001.shareTree
       Part001.repoRoot truthy_value Js.truthy].
  unfold path_join.
  destruct (getenv h "HOME") as [home|]; cbn [all_defined]; [|discriminate].
  cbv beta iota.
  match goal with
  | |- match ?g with Ok _ => _ | Err _ => _ end = _ -> _ =>
      destruct g as [gitArgs|]; [|discriminate]
  end.
  cbv zeta.
  match goal with
  | |- context [(if truthy_value (Part001.allow config Part001.AllowIde)
                 then if isDirectory h _ then Ok (?X ++ _)%list else _
                 else _)] =>
      generalize X
  end.
  intros X H. exists home, X. revert H.
  destruct (truthy_value (Part001.allow config Part001.AllowIde));
    [destruct (isDirectory h (Path.join [home; ".claude"; "ide"]))|];
    intros [= <-]; eexists; (split; [reflexivity|]);
    (split; [reflexivity|]); cbn [cmd env args andb];
    rewrite <- ?List.app_assoc; repeat split; reflexivity.
Qed.

(** In [src/unnamed/part_001], whenever the bubblewrap backend's [wrap]
    returns, and compared with the same configuration with the IDE flag
    off: [wrap] adds the read-only bind of [~/.claude/ide] onto itself when
    the IDE flag is set and the directory exists, and nothing otherwise;
    command and environment are the same.  The bind is the last option
    before the command, after the writable bind of [~/.claude]. *)
Theorem part001_ide_bind_last (h : Host) (config : Part001.SandboxConfig)
  (script : string) (r : WrapResult) :
  Part001.BubblewrapSandbox_wrap h config script = Ok r ->
  exists home pre r0,
    getenv h "HOME" = Some home
    /\ Part001.BubblewrapSandbox_wrap h (part001_ide_off config) script = Ok r0
    /\ cmd r = cmd r0 /\ env r = env r0
    /\ args r0 = (pre ++ strs ["bash"; "-c"; script])%list
    /\ args r
       = (pre
          ++ (if truthy_value (Part001.allow config Part001.AllowIde)
                 && isDirectory h (Path.join [home; ".claude"; "ide"])
              then strs ["--ro-bind"; Path.join [home; ".claude"; "ide"];
                         Path.join [home; ".claude"; "ide"]]
              else [])
          ++ strs ["bash"; "-c"; script])%list
    /\ Bwrap.entries (args r)
       = (Bwrap.entries pre
          ++ (if truthy_value (Part001.allow config Part001.AllowIde)
                 && isDirectory h (Path.join [home; ".claude"; "ide"])
              then [Bwrap.RoBind (Some (Path.join [home; ".claude"; "ide"]))
                                 (Some (Path.join [home; ".claude"; "ide"]))]
              else []))%list
    /\ In (Bwrap.Bind (Some (Part001.claudeConfig config))
                      (Some (Path.join [home; ".claude"])))
          (Bwrap.entries pre).
Proof.
  intros H.
  destruct (part001_wrap_ide_baseline h config script r H)
    as (home & pre & r0 & Hh & H0 & Hc & He & Ha0 & Ha).
  destruct (part001_wrap_ide h config script r H)
    as (home' & pre' & Hh' & Ha' & Hentries & Hin).
  assert (home' = home) by congruence. subst home'.
  assert (pre' = pre).
  { rewrite Ha in Ha'. now apply List.app_inv_tail in Ha'. }
  subst pre'.
  exists home, pre, r0. repeat split; assumption.
Qed.

Transparent Path.join.

(** On the example host with the IDE directory and every flag set. *)
Lemma part001_ide_bind_last_witness :
  exists r r0 pre,
    Part001.BubblewrapSandbox_wrap Example.linux_ide
      (Example.part001_config (fun _ => Some (Js.JBool true)))
      "exec claude" = Ok r
    /\ Part001.BubblewrapSandbox_wrap Example.linux_ide
         (part001_ide_off
            (Example.part001_config (fun _ => Some (Js.JBool true))))
         "exec claude" = Ok r0
    /\ args r0 = (pre ++ strs ["bash"; "-c"; "exec claude"])%list
    /\ args r
       = (pre ++ strs ["--ro-bind"; "/home/u/.claude/ide"; "/home/u/.claude/ide";
                       "bash"; "-c"; "exec claude"])%list.
Proof.
  destruct (Part001.BubblewrapSandbox_wrap Example.linux_ide
              (Example.part001_config (fun _ => Some (Js.JBool true)))
              "exec claude") as [r|e] eqn:E; [|vm_compute in E; discriminate].
  destruct (part001_ide_bind_last Example.linux_ide
              (Example.part001_config (fun _ => Some (Js.JBool true)))
              "exec claude" r E)
    as (home & pre & r0 & Hh & H0 & _ & _ & Ha0 & Hargs & _).
  vm_compute in Hh. injection Hh as <-.
  exists r, r0, pre. split; [reflexivity|]. split; [exact H0|].
  split; [exact Ha0|].
  rewrite Hargs. reflexivity.
Defined.

(* --------------------------------------------------------------------- *)
(** ** The dry run: environment delta and quoting *)

Lemma obj_get_in_distinct {V : Type} (k : string) (v : V) (o : Js.obj V) :
  Js.distinct (Js.obj_keys o) = true -> In (k, v) o -> Js.obj_get k o = Some v.
Proof.
  induction o as [|[k0 v0] o IH]; [contradiction|].
  cbn [Js.obj_keys map fst Js.distinct Js.obj_get]. intros Hd [E | Hin].
  - injection E as -> ->. now rewrite String.eqb_refl.
  - apply andb_true_iff in Hd as [Hk0 Hd].
    destruct (String.eqb_spec k0 k) as [->|]; [|now apply IH].
    apply negb_true_iff in Hk0.
    assert (Hk : existsb (String.eqb k) (Js.obj_keys o) = true).
    { apply existsb_exists. exists k. split; [|apply String.eqb_refl].
      unfold Js.obj_keys. change k with (fst (k, v)). now apply in_map. }
    unfold Js.obj_keys in Hk. congruence.
Qed.

(** The first loop of [dryRun] finds nothing new in an environment whose
    entries are all entries of [process.env]. *)
Lemma diffEnv_nothing_changed (penv env d : Js.obj string) :
  Js.distinct (Js.obj_keys penv) = true ->
  (forall kv, In kv env -> In kv penv) ->
  fold_left
    (fun d kv =>
       if negb (Claudebox.opt_string_eqb (Js.obj_get (fst kv) penv)
                  (Some (snd kv)))
       then Js.obj_set (fst kv) (snd kv) d else d)
    env d
  = d.
Proof.
  intros Hd. revert d. induction env as [|[k v] env IH]; intros d Hsub;
    [reflexivity|].
  cbn [fold_left fst snd].
  rewrite (obj_get_in_distinct k v penv Hd (Hsub _ (or_introl eq_refl))).
  cbn [Claudebox.opt_string_eqb]. rewrite String.eqb_refl. cbn [negb].
  apply IH. intros kv Hin. apply Hsub. now right.
Qed.

(** The second loop of [dryRun] when only [k] can be missing. *)
Lemma diffEnv_one_deleted (env : Js.obj string) (k : string)
  (keys : list string) (d : Js.obj string) :
  Js.distinct keys = true ->
  (forall k', In k' keys -> Js.obj_has k' env = negb (String.eqb k k')) ->
  fold_left
    (fun d k' => if negb (Js.obj_has k' env)
                 then Js.obj_set k' "(deleted)" d else d)
    keys d
  = if existsb (String.eqb k) keys then Js.obj_set k "(deleted)" d else d.
Proof.
  revert d. induction keys as [|k1 keys IH]; intros d Hd Hhas; [reflexivity|].
  cbn [Js.distinct] in Hd. apply andb_true_iff in Hd as [Hk1 Hd].
  apply negb_true_iff in Hk1.
  cbn [fold_left existsb].
  rewrite (Hhas k1 (or_introl eq_refl)), negb_involutive.
  assert (Hhas' : forall k', In k' keys ->
                    Js.obj_has k' env = negb (String.eqb k k'))
    by (intros k' Hin; apply Hhas; now right).
  rewrite (IH _ Hd Hhas').
  destruct (String.eqb_spec k k1) as [->|Hne]; cbn [orb].
  - now rewrite Hk1.
  - reflexivity.
Qed.

Lemma obj_has_delete {V : Type} (k k' : string) (o : Js.obj V) :
  Js.obj_has k' (Js.obj_delete k o)
  = negb (String.eqb k k') && Js.obj_has k' o.
Proof.
  unfold Js.obj_has. rewrite obj_get_delete.
  now destruct (String.eqb k k').
Qed.

Lemma diffEnv_delete (penv : Js.obj string) (k : string) :
  Js.distinct (Js.obj_keys penv) = true ->
  Claudebox.diffEnv penv (Js.obj_delete k penv)
  = if Js.obj_has k penv then [(k, "(deleted)")] else [].
Proof.
  intros Hd. unfold Claudebox.diffEnv.
  rewrite (diffEnv_nothing_changed penv _ [] Hd)
    by (intros kv Hin; unfold Js.obj_delete in Hin;
        now apply filter_In in Hin as [Hin _]).
  rewrite (diffEnv_one_deleted _ k _ [] Hd).
  - now rewrite obj_has_keys.
  - intros k' Hin. rewrite obj_has_delete.
    apply existsb_eqb_In in Hin. rewrite obj_has_keys in Hin.
    now rewrite Hin, andb_true_r.
Qed.

Lemma diffEnv_same (penv : Js.obj string) :
  Js.distinct (Js.obj_keys penv) = true ->
  Claudebox.diffEnv penv penv = [].
Proof.
  intros Hd. unfold Claudebox.diffEnv.
  rewrite (diffEnv_nothing_changed penv penv [] Hd) by auto.
  assert (H : forall keys d,
            (forall k', In k' keys -> Js.obj_has k' penv = true) ->
            fold_left
              (fun d k' => if negb (Js.obj_has k' penv)
                           then Js.obj_set k' "(deleted)" d else d)
              keys d = d).
  { induction keys as [|k1 keys IH]; intros d Hk; [reflexivity|].
    cbn [fold_left]. rewrite (Hk k1 (or_introl eq_refl)). cbn [negb].
    apply IH. intros k' Hin. apply Hk. now right. }
  apply H. intros k' Hin. apply existsb_eqb_In in Hin.
  now rewrite obj_has_keys in Hin.
Qed.

Lemma claudebox_wrap_result_env (h : Host) (config : Claudebox.SandboxConfig)
  (script : string) (sshConfigArgs : list (option string)) (r : WrapResult) :
  Claudebox.wrap_result h config script sshConfigArgs = Ok r ->
  env r = Js.obj_delete "SSH_AUTH_SOCK" (process_env h).
Proof.
  unfold Claudebox.wrap_result. intros H.
  destruct (path_join [getenv h "HOME"; Some ".claude"]); [|discriminate].
  destruct (path_join [getenv h "HOME"; Some ".claude.json"]); [|discriminate].
  cbv beta iota zeta in H.
  apply (f_equal (fun x => match x with Ok w => env w | Err _ => [] end)) in H.
  cbv beta iota delta [env] in H. now symmetry.
Qed.

Lemma seatbelt_wrap_env (h : Host) (repoRoot script : string) (r : WrapResult) :
  Seatbelt.wrap h repoRoot script = Ok r -> env r = process_env h.
Proof.
  unfold Seatbelt.wrap. intros H.
  destruct (getenv h "CLAUDEBOX_SEATBELT_PROFILE") as [profile|]; [|discriminate].
  destruct (String.eqb profile "" || negb (pathExists h profile)); [discriminate|].
  destruct (fs_readFileSync h profile); [|discriminate].
  destruct (fs_realpathSync h repoRoot); [|discriminate].
  destruct (fs_realpathSync h (getTmpDir h)); [|discriminate].
  destruct (fs_realpathSync h "/tmp"); [|discriminate].
  now injection H as <-.
Qed.

(** The environment delta a dry run of [src/src/claudebox.js] prints, for a
    [process.env] whose keys are distinct.  On Linux it is the single line
    that marks [SSH_AUTH_SOCK] as deleted when the variable is set, whether
    or not the SSH agent is enabled, and nothing otherwise; on macOS it is
    always empty, so no environment header is printed. *)
Theorem dry_run_environment_delta (h : Host) :
  Js.distinct (Js.obj_keys (process_env h)) = true ->
  (forall (config : Claudebox.SandboxConfig) (script : string)
          (st st' : state) (r : WrapResult),
     Claudebox.wrap h (Claudebox.BubblewrapSandbox config) script st
     = (st', Val r) ->
     Claudebox.diffEnv (process_env h) (env r)
     = if Js.obj_has "SSH_AUTH_SOCK" (process_env h)
       then [("SSH_AUTH_SOCK", "(deleted)")] else [])
  /\ (forall (config : Claudebox.SandboxConfig) (script : string)
             (st st' : state) (r : WrapResult),
        Claudebox.wrap h (Claudebox.SeatbeltSandbox config) script st
        = (st', Val r) ->
        Claudebox.diffEnv (process_env h) (env r) = []).
Proof.
  intros Hd. split; intros config script st st' r H; cbn [Claudebox.wrap] in H.
  - unfold Claudebox.BubblewrapSandbox_wrap, bind in H.
    destruct (Claudebox.sanitize_ssh_config h config st) as [st1 [a|e|c]];
      try discriminate.
    unfold lift in H.
    destruct (Claudebox.wrap_result h config script a) as [r'|e] eqn:E;
      [|discriminate].
    injection H as <- <-.
    rewrite (claudebox_wrap_result_env _ _ _ _ _ E).
    now apply diffEnv_delete.
  - unfold lift in H.
    destruct (Seatbelt.wrap h (Claudebox.repoRoot config) script)
      as [r'|e] eqn:E; [|discriminate].
    injection H as <- <-.
    rewrite (seatbelt_wrap_env _ _ _ _ E). now apply diffEnv_same.
Qed.

Lemma dry_run_environment_delta_witness :
  exists st' r,
    Claudebox.wrap Example.linux
      (Claudebox.BubblewrapSandbox
         (Example.claudebox_config (fun _ => Some (Js.JBool true))))
      "exec claude" Example.fresh = (st', Val r)
    /\ Claudebox.diffEnv (process_env Example.linux) (env r)
       = [("SSH_AUTH_SOCK", "(deleted)")].
Proof.
  destruct (Claudebox.wrap Example.linux
              (Claudebox.BubblewrapSandbox
                 (Example.claudebox_config (fun _ => Some (Js.JBool true))))
              "exec claude" Example.fresh) as [st' [r|e|c]] eqn:E;
    [| vm_compute in E; discriminate | vm_compute in E; discriminate].
  exists st', r. split; [reflexivity|].
  exact (proj1 (dry_run_environment_delta Example.linux eq_refl)
           _ _ _ _ _ E).
Defined.

(** *** Quoting *)

(** The word that [dryRun] prints for an argument it quotes reads back, by
    the quoting rules of the shell, as the argument itself: single quotes
    inside the argument included. *)
Theorem shell_quote_round_trip (a q : string) :
  Claudebox.needs_quoting a = true ->
  Claudebox.shell_quote (Some a) = Some q ->
  sh_unquote false q = Some a.
Proof.
  intros Hn. cbn [Claudebox.shell_quote]. rewrite Hn. intros [= <-].
  change ("'" ++ Claudebox.escape_quotes a ++ "'")
    with (String "'" (Claudebox.escape_quotes a ++ "'")).
  cbn [sh_unquote Ascii.eqb Bool.eqb]. apply sh_unquote_escaped.
Qed.

(** An argument with blanks and single quotes. *)
Lemma shell_quote_round_trip_witness :
  sh_unquote false "'cd '\''/home/u/it'\''s'\'''"
  = Some "cd '/home/u/it's'".
Proof.
  apply shell_quote_round_trip; reflexivity.
Defined.

(* --------------------------------------------------------------------- *)
(** ** Lock files of the IDE directory *)

Lemma digit_not_dot (c : ascii) (f : string) :
  Js.is_digit c = true -> String c f <> ".lock".
Proof. intros Hc [= -> _]. discriminate. Qed.

Lemma lock_name_from_spec (f : string) :
  forall seen,
    Part001.lock_name_from seen f = true
    <-> (seen = true /\ (f = "" \/ f = ".lock"))
        \/ exists digits,
             Js.all_digits digits = true
             /\ (f = digits \/ f = digits ++ ".lock").
Proof.
  induction f as [|c f IH]; intros seen; cbn [Part001.lock_name_from].
  - split.
    + intros ->. left. now split; [|left].
    + intros [[-> _] | (d & Hd & [E | E])]; [reflexivity| |].
      * subst d. discriminate.
      * destruct d; discriminate.
  - destruct (Js.is_digit c) eqn:Hc.
    + rewrite IH. split.
      * intros [[_ [-> | ->]] | (d & Hd & [-> | ->])]; right.
        -- exists (String c ""). split; [|now left].
           unfold Js.all_digits. cbn. now rewrite Hc.
        -- exists (String c ""). split; [|now right].
           unfold Js.all_digits. cbn. now rewrite Hc.
        -- exists (String c d). split; [|now left].
           unfold Js.all_digits in *. cbn [Js.all_chars String.eqb negb andb].
           apply andb_true_iff in Hd as [_ Hd]. now rewrite Hc, Hd.
        -- exists (String c d). split; [|now right].
           unfold Js.all_digits in *. cbn [Js.all_chars String.eqb negb andb].
           apply andb_true_iff in Hd as [_ Hd]. now rewrite Hc, Hd.
      * intros [[_ [E | E]] | (d & Hd & E)]; [discriminate| |].
        { now apply digit_not_dot in E. }
        destruct d as [|c' d]; [discriminate|].
        unfold Js.all_digits in Hd. cbn [Js.all_chars String.eqb negb andb] in Hd.
        apply andb_true_iff in Hd as [_ Hd].
        destruct d as [|c'' d].
        -- left. split; [reflexivity|].
           destruct E as [E | E]; injection E as _ ->; [now left | now right].
        -- right. exists (String c'' d). split.
           ++ unfold Js.all_digits. cbn [String.eqb negb andb]. exact Hd.
           ++ destruct E as [E | E]; injection E as _ ->; [now left | now right].
    + split.
      * intros H. apply andb_true_iff in H as [-> H].
        apply String.eqb_eq in H. left. split; [reflexivity | now right].
      * intros [[-> [E | ->]] | (d & Hd & E)]; [discriminate|reflexivity|].
        exfalso. destruct d as [|c' d]; [discriminate|].
        unfold Js.all_digits in Hd. cbn [Js.all_chars String.eqb negb andb] in Hd.
        apply andb_true_iff in Hd as [Hc' _].
        destruct E as [E | E]; injection E as -> _; congruence.
Qed.

(** The candidates of the fallback are exactly the entries whose name is a
    non-empty run of digits, alone or followed by [.lock]. *)
Theorem is_lock_name_spec (f : string) :
  Part001.is_lock_name f = true
  <-> exists digits,
        Js.all_digits digits = true
        /\ (f = digits \/ f = digits ++ ".lock").
Proof.
  unfold Part001.is_lock_name. rewrite lock_name_from_spec. split.
  - intros [[E _] | H]; [discriminate | exact H].
  - intros H. now right.
Qed.

(* --------------------------------------------------------------------- *)
(** ** Where an IDE auth token comes from *)

Lemma token_of_source (h : Host) (file : string) (tok : Js.json) :
  Part001.token_of h file = Some tok ->
  Js.truthy tok = true
  /\ exists text props,
       fs_readFileSync h file = Ok text
       /\ JSON_parse h text = Ok (Js.JObj props)
       /\ Js.obj_get "authToken" props = Some tok.
Proof.
  unfold Part001.token_of, Part001.read_authToken.
  destruct (fs_readFileSync h file) as [text|] eqn:E1; [|discriminate].
  destruct (JSON_parse h text) as [[| | | | |props]|] eqn:E2; try discriminate.
  destruct (Js.obj_get "authToken" props) as [t|] eqn:E; [|discriminate].
  destruct (Js.truthy t) eqn:Ht; [|discriminate].
  intros [= <-]. split; [assumption|]. exists text, props.
  now repeat split.
Qed.

Lemma scan_sorted_source (h : Host) (ideDir : string)
  (files : list Part001.lock) (tok : Js.json) :
  Part001.scan_sorted h ideDir files = Some tok ->
  exists f, In f files
            /\ Part001.token_of h (Part001.lock_path ideDir (Part001.name f))
               = Some tok.
Proof.
  induction files as [|f files IH]; [discriminate|].
  cbn [Part001.scan_sorted].
  destruct (Part001.token_of h (Path.join [ideDir; Part001.name f]))
    as [t|] eqn:E.
  - intros [= <-]. exists f. split; [now left | exact E].
  - intros H. destruct (IH H) as (g & Hg & Ht). exists g. split; [now right | exact Ht].
Qed.

Lemma stat_all_names (h : Host) (ideDir : string) (names : list string) :
  forall files,
    Part001.stat_all h ideDir names = Ok files ->
    map Part001.name files = names.
Proof.
  induction names as [|f names IH]; intros files; cbn [Part001.stat_all].
  - now intros [= <-].
  - destruct (fs_statSync h (Path.join [ideDir; f])) as [st|]; [|discriminate].
    destruct (Part001.stat_all h ideDir names) as [l|]; [|discriminate].
    intros [= <-]. cbn [map Part001.name]. f_equal. now apply IH.
Qed.

Lemma scan_directory_source (h : Host) (ideDir : string) (tok : Js.json) :
  Part001.scan_directory h ideDir = Some tok ->
  exists f,
    Part001.is_lock_name f = true
    /\ Part001.token_of h (Part001.lock_path ideDir f) = Some tok.
Proof.
  unfold Part001.scan_directory.
  destruct (fs_readdirSync h ideDir) as [names|]; [|discriminate].
  destruct (Part001.stat_all h ideDir (filter Part001.is_lock_name names))
    as [files|] eqn:E; [|discriminate].
  intros H. apply scan_sorted_source in H as (f & Hf & Ht).
  exists (Part001.name f). split; [|exact Ht].
  apply (Permutation_in _ (sort_newest_first_perm files)) in Hf.
  apply stat_all_names in E.
  assert (Hin : In (Part001.name f) (map Part001.name files))
    by now apply in_map.
  rewrite E in Hin. now apply filter_In in Hin as [_ Hin].
Qed.

Lemma readIdeAuthToken_token (h : Host) (tok : Js.json) :
  Part001.readIdeAuthToken h = Ok (Some tok) ->
  exists home f,
    getenv h "HOME" = Some home
    /\ isDirectory h (Path.join [home; ".claude"; "ide"]) = true
    /\ Part001.is_lock_name f = true
    /\ Part001.token_of h
         (Part001.lock_path (Path.join [home; ".claude"; "ide"]) f)
       = Some tok.
Proof.
  unfold Part001.readIdeAuthToken.
  destruct (getenv h "HOME") as [home|]; [|discriminate].
  destruct (isDirectory h (Path.join [home; ".claude"; "ide"])) eqn:Hdir;
    cbn [negb]; [|discriminate].
  intros H. exists home.
  assert (Hfall : Part001.scan_directory h (Path.join [home; ".claude"; "ide"])
                  = Some tok ->
                  exists f,
                    Some home = Some home
                    /\ isDirectory h (Path.join [home; ".claude"; "ide"]) = true
                    /\ Part001.is_lock_name f = true
                    /\ Part001.token_of h
                         (Part001.lock_path (Path.join [home; ".claude"; "ide"]) f)
                       = Some tok).
  { intros Hs. apply scan_directory_source in Hs as (f & Hf & Ht).
    exists f. now repeat split. }
  destruct (getenv h "CLAUDE_CODE_SSE_PORT") as [port|];
    [|injection H as H; now apply Hfall].
  destruct (negb (port =? "") && Js.all_digits port) eqn:Hport;
    [|injection H as H; now apply Hfall].
  apply andb_true_iff in Hport as [_ Hport].
  cbn [Part001.scan_hinted] in H. unfold Part001.hinted_token_of in H.
  destruct (pathExists h (Path.join [Path.join [home; ".claude"; "ide"];
                                     port ++ ".lock"])).
  - destruct (Part001.token_of h
                (Path.join [Path.join [home; ".claude"; "ide"]; port ++ ".lock"]))
      as [t|] eqn:Et.
    + injection H as <-. exists (port ++ ".lock").
      split; [reflexivity|]. split; [exact Hdir|]. split; [|exact Et].
      apply lock_name_from_spec. right. exists port. split; [exact Hport | now right].
    + destruct (pathExists h (Path.join [Path.join [home; ".claude"; "ide"]; port])).
      * destruct (Part001.token_of h
                    (Path.join [Path.join [home; ".claude"; "ide"]; port]))
          as [t|] eqn:Et'.
        -- injection H as <-. exists port.
        split; [reflexivity|]. split; [exact Hdir|]. split; [|exact Et'].
           apply lock_name_from_spec. right. exists port.
           split; [exact Hport | now left].
        -- injection H as H. now apply Hfall.
      * injection H as H. now apply Hfall.
  - destruct (pathExists h (Path.join [Path.join [home; ".claude"; "ide"]; port])).
    + destruct (Part001.token_of h
                  (Path.join [Path.join [home; ".claude"; "ide"]; port]))
        as [t|] eqn:Et'.
      * injection H as <-. exists port.
        split; [reflexivity|]. split; [exact Hdir|]. split; [|exact Et'].
        apply lock_name_from_spec. right. exists port.
        split; [exact Hport | now left].
      * injection H as H. now apply Hfall.
    + injection H as H. now apply Hfall.
Qed.

(** [readIdeAuthToken()] throws only when [HOME] is unset; it returns [null]
    when [~/.claude/ide] is not a directory; and a token it returns is
    truthy and is the [authToken] property of the object parsed from a file
    of that directory whose name is a lock-file name: never an empty token,
    never one read elsewhere. *)
Theorem readIdeAuthToken_source (h : Host) :
  (getenv h "HOME" = None ->
   Part001.readIdeAuthToken h = Err ERR_INVALID_ARG_TYPE)
  /\ (forall home,
        getenv h "HOME" = Some home ->
        (exists result, Part001.readIdeAuthToken h = Ok result)
        /\ (isDirectory h (Path.join [home; ".claude"; "ide"]) = false ->
            Part001.readIdeAuthToken h = Ok None)
        /\ (forall tok,
              Part001.readIdeAuthToken h = Ok (Some tok) ->
              Js.truthy tok = true
              /\ exists f text props,
                   Part001.is_lock_name f = true
                   /\ fs_readFileSync h
                        (Path.join [Path.join [home; ".claude"; "ide"]; f])
                      = Ok text
                   /\ JSON_parse h text = Ok (Js.JObj props)
                   /\ Js.obj_get "authToken" props = Some tok)).
Proof.
  split.
  - intros Hh. unfold Part001.readIdeAuthToken. now rewrite Hh.
  - intros home Hh. split; [|split].
    + unfold Part001.readIdeAuthToken. rewrite Hh.
      destruct (negb (isDirectory h (Path.join [home; ".claude"; "ide"])));
        [eauto|].
      match goal with
      | |- exists result, match ?x with _ => _ end = _ => destruct x; eauto
      end.
    + intros Hdir. unfold Part001.readIdeAuthToken. now rewrite Hh, Hdir.
    + intros tok H.
      destruct (readIdeAuthToken_token h tok H)
        as (home' & f & Hh' & _ & Hf & Ht).
      rewrite Hh in Hh'. injection Hh' as <-.
      destruct (token_of_source h _ tok Ht) as (Htruthy & text & props & H1 & H2 & H3).
      split; [exact Htruthy|]. exists f, text, props. now repeat split.
Qed.

(** On the example host with three lock files and no hint. *)
Lemma readIdeAuthToken_source_witness :
  Part001.readIdeAuthToken Example.linux_ide = Ok (Some (Js.JStr "token-2"))
  /\ Js.truthy (Js.JStr "token-2") = true.
Proof.
  split; [reflexivity|].
  exact (proj1 (proj2 (proj2 (proj2 (readIdeAuthToken_source Example.linux_ide)
                                "/home/u" eq_refl))
                  (Js.JStr "token-2") eq_refl)).
Defined.

(* --------------------------------------------------------------------- *)
(** ** What a computation makes of the session directory *)

Section Preserves.
Variable I : SessFs.t -> Prop.

Lemma preserves_ret {A : Type} (a : A) : preserves I (ret a).
Proof. now intros st st' o [= <- <-]. Qed.

Lemma preserves_throw {A : Type} (e : error) : preserves I (@throw A e).
Proof. now intros st st' o [= <- <-]. Qed.

Lemma preserves_exit {A : Type} (c : Z) : preserves I (@process_exit A c).
Proof. now intros st st' o [= <- <-]. Qed.

Lemma preserves_lift {A : Type} (r : res A) : preserves I (lift r).
Proof. destruct r; [apply preserves_ret | apply preserves_throw]. Qed.

Lemma preserves_check (r : option error) : preserves I (check r).
Proof. destruct r; [apply preserves_throw | apply preserves_ret]. Qed.

Lemma preserves_emit (e : event) : preserves I (emit e).
Proof. now intros st st' o [= <- <-]. Qed.

Lemma preserves_on_session (op : SessFs.t -> SessFs.t * option error) :
  (forall s, I s -> I (fst (op s))) -> preserves I (on_session op).
Proof.
  intros Hop st st' o. unfold on_session. specialize (Hop (fs st)).
  destruct (op (fs st)) as [s' [e|]]; intros [= <- <-] H; now apply Hop.
Qed.

Lemma preserves_bind {A B : Type} (m : M A) (k : A -> M B) :
  preserves I m -> (forall a, preserves I (k a)) -> preserves I (bind m k).
Proof.
  intros Hm Hk st st' o. unfold bind.
  destruct (m st) as [st1 [a|e|c]] eqn:E; intros H H0.
  - exact (Hk a _ _ _ H (Hm _ _ _ E H0)).
  - injection H as <- <-. exact (Hm _ _ _ E H0).
  - injection H as <- <-. exact (Hm _ _ _ E H0).
Qed.

Lemma preserves_try_catch {A : Type} (m : M A) (k : error -> M A) :
  preserves I m -> (forall e, preserves I (k e)) ->
  preserves I (try_catch m k).
Proof.
  intros Hm Hk st st' o. unfold try_catch.
  destruct (m st) as [st1 [a|e|c]] eqn:E; intros H H0.
  - injection H as <- <-. exact (Hm _ _ _ E H0).
  - exact (Hk e _ _ _ H (Hm _ _ _ E H0)).
  - injection H as <- <-. exact (Hm _ _ _ E H0).
Qed.

Lemma preserves_for_each {A : Type} (l : list A) (body : A -> M unit) :
  (forall x, preserves I (body x)) -> preserves I (for_each l body).
Proof.
  intros Hb. induction l as [|x l IH]; cbn [for_each].
  - apply preserves_ret.
  - apply preserves_bind; [apply Hb | intros _; exact IH].
Qed.

End Preserves.

(** Structural proof that a computation preserves [I]; what is left are
    the operations on the session directory. *)
Ltac preserves_step :=
  first
    [ apply preserves_ret
    | apply preserves_throw
    | apply preserves_exit
    | apply preserves_lift
    | apply preserves_check
    | apply preserves_emit
    | apply preserves_bind; [ | intros ? ]
    | apply preserves_try_catch; [ | intros ? ]
    | apply preserves_for_each; intros ?
    | assumption
    | match goal with
      | |- preserves _ (if ?b then _ else _) => destruct b
      | |- preserves _ (match ?x with _ => _ end) => destruct x
      | |- preserves _ (let _ := _ in _) => cbv zeta
      end ].

Ltac preserves_tac := repeat preserves_step.

(** Parsing the command line and asking [git] leave the session directory
    alone. *)
Lemma loadConfig_preserves (I : SessFs.t -> Prop) (h : Host)
  (defaults : Js.obj Js.json) :
  preserves I (loadConfig h defaults).
Proof. unfold loadConfig, console_error. preserves_tac. Qed.

Lemma claudebox_parse_loop_preserves (I : SessFs.t -> Prop) (h : Host)
  (args : list string) :
  forall o, preserves I (Claudebox.parse_loop h args o).
Proof.
  induction args as [|arg rest IH]; intros o; cbn [Claudebox.parse_loop].
  - apply preserves_ret.
  - unfold Claudebox.showHelp, console_log, console_error.
    repeat first [apply IH | preserves_step].
Qed.

Lemma claudebox_parseArgs_preserves (I : SessFs.t -> Prop) (h : Host)
  (args : list string) :
  preserves I (Claudebox.parseArgs h args).
Proof.
  unfold Claudebox.parseArgs, Claudebox.loadConfig.
  repeat first [ apply loadConfig_preserves
               | apply claudebox_parse_loop_preserves
               | preserves_step ].
Qed.

Lemma part001_parse_loop_preserves (I : SessFs.t -> Prop) (h : Host)
  (args : list string) :
  forall o, preserves I (Part001.parse_loop h args o).
Proof.
  induction args as [|arg rest IH]; intros o; cbn [Part001.parse_loop].
  - apply preserves_ret.
  - unfold Part001.showHelp, console_log, console_error.
    repeat first [apply IH | preserves_step].
Qed.

Lemma part001_parseArgs_preserves (I : SessFs.t -> Prop) (h : Host)
  (args : list string) :
  preserves I (Part001.parseArgs h args).
Proof.
  unfold Part001.parseArgs, Part001.loadConfig.
  repeat first [ apply loadConfig_preserves
               | apply part001_parse_loop_preserves
               | preserves_step ].
Qed.

Lemma getRepoRoot_preserves (I : SessFs.t -> Prop) (h : Host)
  (projectDir : string) :
  preserves I (getRepoRoot h projectDir).
Proof. unfold getRepoRoot. preserves_tac. Qed.

(* --------------------------------------------------------------------- *)
(** ** What the program creates can be removed *)

Lemma all_writable_Dir (w : bool) (es : list (string * SessFs.node)) :
  SessFs.all_writable (SessFs.Dir w es) = w && SessFs.entries_writable es.
Proof. reflexivity. Qed.

Lemma entries_writable_cons (k : string) (c : SessFs.node)
  (es : list (string * SessFs.node)) :
  SessFs.entries_writable ((k, c) :: es)
  = SessFs.all_writable c && SessFs.entries_writable es.
Proof. reflexivity. Qed.

Lemma entries_writable_set (name : string) (new : SessFs.node)
  (es : list (string * SessFs.node)) :
  SessFs.entries_writable es = true -> SessFs.all_writable new = true ->
  SessFs.entries_writable (Js.obj_set name new es) = true.
Proof.
  intros Hes Hnew. induction es as [|[k c] es IH].
  - cbn [Js.obj_set]. now rewrite entries_writable_cons, Hnew.
  - rewrite entries_writable_cons in Hes.
    apply andb_true_iff in Hes as [Hc Hes].
    cbn [Js.obj_set]. destruct (String.eqb k name);
      rewrite entries_writable_cons.
    + now rewrite Hnew, Hes.
    + now rewrite Hc, (IH Hes).
Qed.

Lemma entries_writable_get (name : string) (c : SessFs.node)
  (es : list (string * SessFs.node)) :
  SessFs.entries_writable es = true -> Js.obj_get name es = Some c ->
  SessFs.all_writable c = true.
Proof.
  induction es as [|[k c0] es IH]; [discriminate|].
  rewrite entries_writable_cons. intros H. apply andb_true_iff in H as [Hc Hes].
  cbn [Js.obj_get]. destruct (String.eqb k name).
  - now intros [= <-].
  - now apply IH.
Qed.

Lemma put_all_writable (exclusive : bool) (new : SessFs.node)
  (rel : list string) :
  SessFs.all_writable new = true ->
  forall n n',
    SessFs.all_writable n = true ->
    SessFs.put exclusive rel new n = Ok n' ->
    SessFs.all_writable n' = true.
Proof.
  intros Hnew. induction rel as [|name rel IH]; intros n n' Hn H.
  - discriminate.
  - destruct n as [content | w es]; [destruct rel; discriminate|].
    rewrite all_writable_Dir in Hn. apply andb_true_iff in Hn as [Hw Hes].
    destruct rel as [|name' rel'].
    + cbn [SessFs.put] in H.
      destruct (Js.obj_get name es) as [[c | w' es']|].
      * destruct exclusive; [discriminate|]. injection H as <-.
        rewrite all_writable_Dir, Hw. now apply entries_writable_set.
      * destruct exclusive; discriminate.
      * destruct w; [|discriminate]. injection H as <-.
        rewrite all_writable_Dir. now apply entries_writable_set.
    + change (SessFs.put exclusive (name :: name' :: rel') new (SessFs.Dir w es))
        with (match Js.obj_get name es with
              | Some child =>
                  match SessFs.put exclusive (name' :: rel') new child with
                  | Ok child' => Ok (SessFs.Dir w (Js.obj_set name child' es))
                  | Err e => Err e
                  end
              | None => Err SessFs.ENOENT
              end) in H.
      destruct (Js.obj_get name es) as [child|] eqn:Eg; [|discriminate].
      destruct (SessFs.put exclusive (name' :: rel') new child) as [child'|] eqn:Ep;
        [|discriminate].
      injection H as <-. rewrite all_writable_Dir, Hw.
      apply entries_writable_set; [assumption|].
      apply (IH child child'); [|assumption].
      now apply (entries_writable_get name child es).
Qed.

Lemma put_session_removable (exclusive : bool) (rel : list string)
  (new : SessFs.node) (s : SessFs.t) :
  SessFs.all_writable new = true ->
  removable_fs s -> removable_fs (fst (SessFs.put_session exclusive rel new s)).
Proof.
  unfold removable_fs, SessFs.removable, SessFs.put_session.
  intros Hnew. destruct s as [tw [n|]]; cbn [SessFs.session SessFs.tmp_writable];
    [|now intros _].
  intros H. apply andb_true_iff in H as [Htw Hn].
  destruct (SessFs.put exclusive rel new n) as [n'|] eqn:E;
    cbn [fst SessFs.session SessFs.tmp_writable].
  - now rewrite Htw, (put_all_writable exclusive new rel Hnew n n' Hn E).
  - now rewrite Htw, Hn.
Qed.

Lemma mkdirSync_root_removable (s : SessFs.t) :
  removable_fs s -> removable_fs (fst (SessFs.mkdirSync_root s)).
Proof.
  unfold removable_fs, SessFs.removable, SessFs.mkdirSync_root.
  destruct s as [tw [[c | w es]|]]; cbn [SessFs.session SessFs.tmp_writable fst];
    try (intros H; exact H).
  now destruct tw.
Qed.

Lemma mkdirSync_p_removable (name : string) (s : SessFs.t) :
  removable_fs s -> removable_fs (fst (SessFs.mkdirSync_p name s)).
Proof.
  intros H. unfold SessFs.mkdirSync_p.
  destruct (SessFs.session s) as [[c | w es]|] eqn:E;
    try (now apply put_session_removable).
  destruct (Js.obj_get name es) as [[c | w' es']|];
    try (now apply put_session_removable).
  exact H.
Qed.

Lemma rmSync_keeps_removable (s : SessFs.t) :
  removable_fs s -> removable_fs (fst (SessFs.rmSync s)).
Proof.
  intros H. unfold removable_fs, SessFs.removable.
  now rewrite (rmSync_removable s H).
Qed.

Ltac removable_step :=
  first
    [ apply preserves_on_session; intros ? ?;
      first [ apply mkdirSync_root_removable; assumption
            | apply mkdirSync_p_removable; assumption
            | apply rmSync_keeps_removable; assumption
            | apply put_session_removable; [reflexivity | assumption] ]
    | preserves_step ].

Ltac removable_tac := repeat removable_step.

Lemma cleanup_keeps_removable (claudeHome : string) :
  preserves removable_fs (cleanup claudeHome).
Proof. unfold cleanup. removable_tac. Qed.

Lemma claudebox_wrap_keeps_removable (h : Host) (sandbox : Claudebox.Sandbox)
  (script : string) :
  preserves removable_fs (Claudebox.wrap h sandbox script).
Proof.
  unfold Claudebox.wrap, Claudebox.BubblewrapSandbox_wrap,
    Claudebox.sanitize_ssh_config.
  removable_tac.
Qed.

(* --------------------------------------------------------------------- *)
(** ** No session directory is left behind *)

Lemma bind_assoc {A B C : Type} (m : M A) (k : A -> M B) (k' : B -> M C)
  (st : state) :
  bind (bind m k) k' st = bind m (fun a => bind (k a) k') st.
Proof.
  unfold bind. destruct (m st) as [st1 [a|e|c]]; reflexivity.
Qed.

Lemma is_exit_only (e : event) :
  is_on e = false -> is_spawn e = false -> is_exit_listener e = false.
Proof. destruct e; try reflexivity; discriminate. Qed.

Lemma listeners_exit_kept (tr : list event) :
  listeners "exit" tr = listeners "exit" (kept is_exit_listener tr).
Proof.
  induction tr as [|e tr IH]; [reflexivity|].
  destruct e; cbn [kept filter is_exit_listener listeners]; try exact IH.
  fold (kept is_exit_listener tr).
  destruct (String.eqb name "exit") eqn:E; cbn [listeners]; rewrite ?E;
    [f_equal|]; exact IH.
Qed.

Lemma kept_exit_error (tr : list event) (line : string) :
  kept is_exit_listener (tr ++ [EvError line]) = kept is_exit_listener tr.
Proof.
  unfold kept. rewrite filter_app. cbn [filter is_exit_listener].
  apply List.app_nil_r.
Qed.

(** The end of a process whose only ['exit'] listener, if any, is
    [cleanup]. *)
Lemma finish_cleans (h : Host) (code : Z) (st : state) (s0 : SessFs.t) :
  SessFs.session s0 = None ->
  removable_fs (fs st) ->
  (fs st = s0 /\ kept is_exit_listener (trace st) = [])
  \/ kept is_exit_listener (trace st)
     = [EvOn "exit" (HCleanup (claudeHome_of h))] ->
  SessFs.session (fs (fst (finish code st))) = None.
Proof.
  intros Hs0 Hrem [[Hfs Hk] | Hk]; unfold finish;
    rewrite listeners_exit_kept, Hk; cbn [listeners String.eqb Ascii.eqb
      Bool.eqb fold_left fst].
  - now rewrite Hfs.
  - cbn [run_handler]. rewrite cleanup_run. cbn [fst fs].
    now apply rmSync_removable.
Qed.

Lemma registers_ext {A : Type} (d : string) (m m' : M A) :
  (forall st, m st = m' st) -> registers_cleanup d m' -> registers_cleanup d m.
Proof. intros E H st st' o Hm. rewrite E in Hm. exact (H _ _ _ Hm). Qed.

(** A step that touches neither the session directory nor the listeners,
    before the rest. *)
Lemma registers_after {A B : Type} (d : string) (m : M A) (k : A -> M B) :
  (forall s, preserves (eq s) m) ->
  respects is_exit_listener any_code m ->
  (forall a, registers_cleanup d (k a)) ->
  registers_cleanup d (bind m k).
Proof.
  intros Hfs Hon Hk st st' o. unfold bind.
  destruct (m st) as [st1 [a|e|c]] eqn:E;
    pose proof (Hfs (fs st) _ _ _ E eq_refl) as Hfs1;
    destruct (Hon _ _ _ E) as [Hk1 _].
  - intros H. destruct (Hk a _ _ _ H) as [[H1 H2] | H2].
    + left. split; congruence.
    + right. congruence.
  - intros [= <- <-]. left. now split.
  - intros [= <- <-]. left. now split.
Qed.

(** The registration itself, and what follows it. *)
Lemma registers_here {A : Type} (d : string) (k : M A) :
  respects is_exit_listener any_code k ->
  registers_cleanup d (bind (process_on "exit" (HCleanup d)) (fun _ => k)).
Proof.
  intros Hk st st' o. unfold bind, process_on, emit. intros H.
  destruct (Hk _ _ _ H) as [Hk1 _]. right. rewrite Hk1.
  unfold kept. cbn [trace]. rewrite filter_app. reflexivity.
Qed.

Lemma claudebox_main_registers (h : Host) (argv : list string) :
  registers_cleanup (claudeHome_of h) (Claudebox.main h argv).
Proof.
  unfold Claudebox.main, Claudebox.main_setup.
  eapply registers_ext; [intros st; apply bind_assoc|].
  apply registers_after.
  - intros s. apply claudebox_parseArgs_preserves.
  - apply (claudebox_parseArgs_quiet is_exit_listener any_code is_exit_only I I).
  - intros options.
    eapply registers_ext; [intros st; apply bind_assoc|].
    apply registers_after.
    + intros s. apply getRepoRoot_preserves.
    + apply (getRepoRoot_quiet is_exit_listener any_code is_exit_only).
    + intros repoRoot. cbv zeta.
      eapply registers_ext; [intros st; apply bind_assoc|].
      apply registers_here.
      unfold Claudebox.main_launch, Claudebox.spawn, spawn_child, realpath,
        console_log, console_error, process_on.
      repeat first
        [ apply (claudebox_stage_ssh_quiet is_exit_listener any_code is_exit_only)
        | apply (claudebox_wrap_quiet is_exit_listener any_code)
        | apply (claudebox_dryRun_quiet is_exit_listener any_code is_exit_only)
        | apply (claudebox_sandbox_create_quiet is_exit_listener any_code
                   is_exit_only I)
        | respects_step ].
Qed.

Lemma claudebox_main_keeps_removable (h : Host) (argv : list string) :
  preserves removable_fs (Claudebox.main h argv).
Proof.
  unfold Claudebox.main, Claudebox.main_setup, Claudebox.main_launch,
    Claudebox.dryRun, Claudebox.spawn, spawn_child,
    Claudebox.stage_ssh, Claudebox.copy_into_session, Claudebox.Sandbox_create,
    realpath, console_log, console_error, process_on.
  repeat first [ apply claudebox_parseArgs_preserves
               | apply getRepoRoot_preserves
               | apply cleanup_keeps_removable
               | apply claudebox_wrap_keeps_removable
               | removable_step ].
Qed.

Lemma part001_main_registers (h : Host) (argv : list string) :
  registers_cleanup (claudeHome_of h) (Part001.main h argv).
Proof.
  unfold Part001.main.
  apply registers_after.
  - intros s. apply part001_parseArgs_preserves.
  - apply (part001_parseArgs_quiet is_exit_listener any_code is_exit_only I I).
  - intros options.
    apply registers_after.
    + intros s. apply getRepoRoot_preserves.
    + apply (getRepoRoot_quiet is_exit_listener any_code is_exit_only).
    + intros repoRoot. cbv zeta.
      apply registers_here.
      unfold Part001.spawn, Part001.wrap, spawn_child, realpath,
        console_log, console_error, process_on.
      repeat first
        [ apply (part001_stage_ide_token_quiet is_exit_listener any_code
                   is_exit_only)
        | apply (part001_sandbox_create_quiet is_exit_listener any_code
                   is_exit_only I)
        | respects_step ].
Qed.

Lemma part001_main_keeps_removable (h : Host) (argv : list string) :
  preserves removable_fs (Part001.main h argv).
Proof.
  unfold Part001.main, Part001.spawn, Part001.wrap, spawn_child,
    Part001.stage_ide_token, Part001.Sandbox_create,
    realpath, console_log, console_error, process_on.
  repeat first [ apply part001_parseArgs_preserves
               | apply getRepoRoot_preserves
               | removable_step ].
Qed.

(** A run that ends from a state with an ['exit'] listener registered by
    [main], or none. *)
Lemma run_leaves_nothing (h : Host) (m : M unit) (s0 : SessFs.t)
  (st : state) (c : Z) :
  SessFs.session s0 = None ->
  registers_cleanup (claudeHome_of h) m ->
  preserves removable_fs m ->
  run m (mkState s0 []) = (st, Exited c) ->
  SessFs.session (fs st) = None.
Proof.
  intros Hs0 Hreg Hrem. unfold run.
  assert (Hrem0 : removable_fs (fs (mkState s0 []))).
  { unfold removable_fs, SessFs.removable. cbn [fs]. now rewrite Hs0. }
  destruct (m (mkState s0 [])) as [st1 [[]|e|c1]] eqn:E; [discriminate| |].
  - intros H.
    pose proof (finish_cleans h 1
                  (mkState (fs st1) (trace st1 ++ [EvError (err_message e)]))
                  s0 Hs0) as Hf.
    rewrite H in Hf. cbn [fst fs trace] in Hf. apply Hf.
    + exact (Hrem _ _ _ E Hrem0).
    + rewrite kept_exit_error.
      destruct (Hreg _ _ _ E) as [[H1 H2] | H2]; [left | right]; auto.
  - intros H.
    pose proof (finish_cleans h c1 st1 s0 Hs0) as Hf.
    rewrite H in Hf. cbn [fst] in Hf. apply Hf.
    + exact (Hrem _ _ _ E Hrem0).
    + destruct (Hreg _ _ _ E) as [[H1 H2] | H2]; [left | right]; auto.
Qed.

(** In both copies: a run that starts without a session directory and ends
    before the event loop takes over, whatever the reason (help, a refused
    option, a dry run, an unsupported platform, any error thrown on the way),
    leaves no session directory behind: either none was created yet, or the
    ['exit'] listener removes what [main] created. *)
Theorem no_session_left_behind :
  (forall (h : Host) (argv : list string) (s0 : SessFs.t) (st : state) (c : Z),
     SessFs.session s0 = None ->
     run (Claudebox.main h argv) (mkState s0 []) = (st, Exited c) ->
     SessFs.session (fs st) = None)
  /\ (forall (h : Host) (argv : list string) (s0 : SessFs.t) (st : state)
             (c : Z),
        SessFs.session s0 = None ->
        run (Part001.main h argv) (mkState s0 []) = (st, Exited c) ->
        SessFs.session (fs st) = None).
Proof.
  split; intros h argv s0 st c Hs0 H.
  - exact (run_leaves_nothing h _ s0 st c Hs0 (claudebox_main_registers h argv)
             (claudebox_main_keeps_removable h argv) H).
  - exact (run_leaves_nothing h _ s0 st c Hs0 (part001_main_registers h argv)
             (part001_main_keeps_removable h argv) H).
Qed.

(** The run on an unsupported platform: the session directory was created,
    and is gone when the process has exited. *)
Lemma no_session_left_behind_witness :
  exists st,
    run (Claudebox.main Example.freebsd Example.real_run_argv) Example.fresh
    = (st, Exited 1)
    /\ In (EvRm (claudeHome_of Example.freebsd)) (trace st)
    /\ SessFs.session (fs st) = None.
Proof.
  destruct (run (Claudebox.main Example.freebsd Example.real_run_argv)
              Example.fresh) as [st status] eqn:E.
  assert (Hs : status = Exited 1)
    by (vm_compute in E; now injection E as _ <-).
  subst status. exists st. split; [reflexivity|]. split.
  - vm_compute in E. injection E as <-. cbn [trace]. vm_compute. tauto.
  - exact (proj1 no_session_left_behind Example.freebsd Example.real_run_argv
             (SessFs.mk true None) st 1%Z eq_refl E).
Defined.

(* --------------------------------------------------------------------- *)
(** ** One child, and what ends the wait for it *)

Section Launches.
Variable h : Host.

Lemma launches_ext (m m' : M unit) :
  (forall st, m st = m' st) -> launches h m' -> launches h m.
Proof. intros E H st st' Hm. rewrite E in Hm. exact (H _ _ Hm). Qed.

Lemma launches_after_with {A : Type} (Q : A -> Prop) (codes : Z -> Prop)
  (m : M A) (k : A -> M unit) :
  returns Q m -> respects is_spawn codes m ->
  (forall a, Q a -> launches h (k a)) ->
  launches h (bind m k).
Proof.
  intros HQ Hm Hk st st'. unfold bind.
  destruct (m st) as [st1 [a|e|c]] eqn:E; try discriminate.
  intros H. destruct (Hm _ _ _ E) as [Hkept _].
  destruct (Hk a (HQ _ _ _ E) _ _ H) as (r & script & H1 & H2 & H3).
  exists r, script. rewrite <- Hkept. now repeat split.
Qed.

Lemma launches_after {A : Type} (codes : Z -> Prop) (m : M A)
  (k : A -> M unit) :
  respects is_spawn codes m -> (forall a, launches h (k a)) ->
  launches h (bind m k).
Proof.
  intros Hm Hk. apply (launches_after_with (fun _ => True) codes);
    [now intros st st' a _ | assumption | auto].
Qed.

Lemma launches_never (m : M unit) :
  returns (fun _ => False) m -> launches h m.
Proof. intros H st st' E. destruct (H _ _ _ E). Qed.

(** The child that [spawn] starts from the result of [wrap]. *)
Lemma spawn_child_launches (r : WrapResult) (script : string) (st st' : state) :
  (process_platform h = "linux" /\ cmd r = "bwrap"
   /\ bwrap_command (args r) = strs ["bash"; "-c"; script])
  \/ (process_platform h = "darwin" /\ cmd r = "/usr/bin/sandbox-exec"
      /\ exists pre, args r = (pre ++ strs ["--"; "bash"; "-c"; script])%list) ->
  (spawn_child h r ;;; process_on "close" HExitChildCode) st = (st', Val tt) ->
  exists r0 script0,
    kept is_spawn (trace st')
    = (kept is_spawn (trace st) ++ [EvSpawn (cmd r0) (args r0) (env r0)])%list
    /\ spawn_sync h (cmd r0) (args r0) (env r0) = None
    /\ ((process_platform h = "linux" /\ cmd r0 = "bwrap"
         /\ bwrap_command (args r0) = strs ["bash"; "-c"; script0])
        \/ (process_platform h = "darwin"
            /\ cmd r0 = "/usr/bin/sandbox-exec"
            /\ exists pre,
                 args r0 = (pre ++ strs ["--"; "bash"; "-c"; script0])%list)).
Proof.
  intros Hr. unfold spawn_child, process_on, bind, check, emit, throw, ret.
  destruct (spawn_sync h (cmd r) (args r) (env r)) eqn:Es; [discriminate|].
  intros [= <-]. exists r, script. split; [|now split].
  unfold kept. cbn [trace]. rewrite !filter_app. cbn [filter is_spawn].
  now rewrite List.app_nil_r.
Qed.

Lemma seatbelt_wrap_shape (repoRoot script : string) (r : WrapResult) :
  Seatbelt.wrap h repoRoot script = Ok r ->
  cmd r = "/usr/bin/sandbox-exec"
  /\ exists pre, args r = (pre ++ strs ["--"; "bash"; "-c"; script])%list.
Proof.
  unfold Seatbelt.wrap. intros H.
  destruct (getenv h "CLAUDEBOX_SEATBELT_PROFILE") as [profile|]; [|discriminate].
  destruct (String.eqb profile "" || negb (pathExists h profile)); [discriminate|].
  destruct (fs_readFileSync h profile); [|discriminate].
  destruct (fs_realpathSync h repoRoot); [|discriminate].
  destruct (fs_realpathSync h (getTmpDir h)); [|discriminate].
  destruct (fs_realpathSync h "/tmp"); [|discriminate].
  injection H as <-. split; [reflexivity|]. cbn [args]. eauto.
Qed.

Lemma part001_wrap_cmd (config : Part001.SandboxConfig) (script : string)
  (r : WrapResult) :
  Part001.BubblewrapSandbox_wrap h config script = Ok r -> cmd r = "bwrap".
Proof.
  unfold Part001.BubblewrapSandbox_wrap. intros H.
  repeat match type of H with
  | match ?x with Ok _ => _ | Err _ => _ end = _ =>
      destruct x; [|discriminate]
  end.
  cbv beta iota zeta in H.
  repeat match type of H with
  | match ?x with Ok _ => _ | Err _ => _ end = _ =>
      destruct x; [|discriminate]
  end.
  now injection H as <-.
Qed.

Lemma claudebox_wrap_result_cmd (config : Claudebox.SandboxConfig)
  (script : string) (a : list (option string)) (r : WrapResult) :
  Claudebox.wrap_result h config script a = Ok r -> cmd r = "bwrap".
Proof.
  unfold Claudebox.wrap_result. intros H.
  destruct (path_join [getenv h "HOME"; Some ".claude"]); [|discriminate].
  destruct (path_join [getenv h "HOME"; Some ".claude.json"]); [|discriminate].
  cbv beta iota zeta in H.
  apply (f_equal (fun x => match x with Ok w => cmd w | Err _ => "" end)) in H.
  cbv beta iota delta [cmd] in H. now symmetry.
Qed.

Lemma claudebox_spawn_launches (sandbox : Claudebox.Sandbox) (script : string) :
  match sandbox with
  | Claudebox.BubblewrapSandbox _ => process_platform h = "linux"
  | Claudebox.SeatbeltSandbox _ => process_platform h = "darwin"
  end ->
  launches h (Claudebox.spawn h sandbox script ;;;
              process_on "close" HExitChildCode).
Proof.
  intros HQ st st' H.
  assert (E : (Claudebox.spawn h sandbox script ;;;
               process_on "close" HExitChildCode) st
              = bind (Claudebox.wrap h sandbox script)
                  (fun r => spawn_child h r ;;; process_on "close" HExitChildCode)
                  st)
    by apply bind_assoc.
  rewrite E in H. unfold bind at 1 in H.
  destruct (Claudebox.wrap h sandbox script st) as [st1 [r|e|c]] eqn:Ew;
    try discriminate.
  destruct (claudebox_wrap_quiet is_spawn any_code h sandbox script _ _ _ Ew)
    as [Hkept _].
  rewrite <- Hkept. apply (spawn_child_launches r script st1 st'); [|exact H].
  destruct sandbox as [config | config]; cbn [Claudebox.wrap] in Ew.
  - left. split; [exact HQ|].
    unfold Claudebox.BubblewrapSandbox_wrap, bind in Ew.
    destruct (Claudebox.sanitize_ssh_config h config st) as [st2 o] eqn:Es.
    apply sanitize_ssh_config_args in Es as (a & -> & _ & Hshape).
    unfold lift in Ew.
    destruct (Claudebox.wrap_result h config script a) as [r'|] eqn:Er;
      [|discriminate].
    injection Ew as <- <-. split.
    + exact (claudebox_wrap_result_cmd _ _ _ _ Er).
    + destruct (claudebox_wrap_result_binds h config script a r')
        as (home & _ & _ & Hc); [|assumption|exact Hc].
      destruct Hshape as [-> | (real & ->)]; [now left | right; eauto].
  - right. split; [exact HQ|]. unfold lift in Ew.
    destruct (Seatbelt.wrap h (Claudebox.repoRoot config) script) as [r'|] eqn:Er;
      [|discriminate].
    injection Ew as <- <-. exact (seatbelt_wrap_shape _ _ _ Er).
Qed.

Lemma part001_spawn_launches (sandbox : Part001.Sandbox) (script : string) :
  match sandbox with
  | Part001.BubblewrapSandbox _ => process_platform h = "linux"
  | Part001.SeatbeltSandbox _ => process_platform h = "darwin"
  end ->
  launches h (Part001.spawn h sandbox script ;;;
              process_on "close" HExitChildCode).
Proof.
  intros HQ st st' H.
  assert (E : (Part001.spawn h sandbox script ;;;
               process_on "close" HExitChildCode) st
              = bind (Part001.wrap h sandbox script)
                  (fun r => spawn_child h r ;;; process_on "close" HExitChildCode)
                  st)
    by apply bind_assoc.
  rewrite E in H. unfold bind at 1 in H.
  destruct (Part001.wrap h sandbox script st) as [st1 [r|e|c]] eqn:Ew;
    try discriminate.
  assert (Hst : st1 = st).
  { destruct sandbox; cbn [Part001.wrap] in Ew; unfold lift, ret, throw in Ew;
      match type of Ew with
      | (match ?x with _ => _ end) _ = _ => destruct x
      end; now injection Ew as ->. }
  subst st1. apply (spawn_child_launches r script st st'); [|exact H].
  destruct sandbox as [config | config]; cbn [Part001.wrap] in Ew; unfold lift in Ew.
  - left. split; [exact HQ|].
    destruct (Part001.BubblewrapSandbox_wrap h config script) as [r'|] eqn:Er;
      [|discriminate].
    injection Ew as <-. split.
    + exact (part001_wrap_cmd _ _ _ Er).
    + now destruct (part001_wrap_binds h config script r' Er) as (home & _ & _ & Hc).
  - right. split; [exact HQ|].
    destruct (Seatbelt.wrap h (Part001.repoRoot config) script) as [r'|] eqn:Er;
      [|discriminate].
    injection Ew as <-. exact (seatbelt_wrap_shape _ _ _ Er).
Qed.

Lemma claudebox_create_platform (config : Claudebox.SandboxConfig)
  (handler : error -> M Claudebox.Sandbox) :
  (forall e, returns (fun _ => False) (handler e)) ->
  returns
    (fun sandbox =>
       match sandbox with
       | Claudebox.BubblewrapSandbox _ => process_platform h = "linux"
       | Claudebox.SeatbeltSandbox _ => process_platform h = "darwin"
       end)
    (try_catch (Claudebox.Sandbox_create h config) handler).
Proof.
  intros Hh st st' sandbox. unfold try_catch, Claudebox.Sandbox_create.
  destruct (String.eqb_spec (process_platform h) "linux") as [E1|].
  - unfold ret. now intros [= <- <-].
  - destruct (String.eqb_spec (process_platform h) "darwin") as [E2|].
    + unfold ret. now intros [= <- <-].
    + unfold throw. intros H. destruct (Hh _ _ _ _ H).
Qed.

Lemma part001_create_platform (config : Part001.SandboxConfig)
  (handler : error -> M Part001.Sandbox) :
  (forall e, returns (fun _ => False) (handler e)) ->
  returns
    (fun sandbox =>
       match sandbox with
       | Part001.BubblewrapSandbox _ => process_platform h = "linux"
       | Part001.SeatbeltSandbox _ => process_platform h = "darwin"
       end)
    (try_catch (Part001.Sandbox_create h config) handler).
Proof.
  intros Hh st st' sandbox. unfold try_catch, Part001.Sandbox_create.
  destruct (String.eqb_spec (process_platform h) "linux") as [E1|].
  - unfold ret. now intros [= <- <-].
  - destruct (String.eqb_spec (process_platform h) "darwin") as [E2|].
    + unfold ret. now intros [= <- <-].
    + unfold throw. intros H. destruct (Hh _ _ _ _ H).
Qed.

End Launches.

Lemma claudebox_main_setup_platform (h : Host) (argv : list string) :
  returns
    (fun s =>
       match Claudebox.session_sandbox s with
       | Claudebox.BubblewrapSandbox _ => process_platform h = "linux"
       | Claudebox.SeatbeltSandbox _ => process_platform h = "darwin"
       end)
    (Claudebox.main_setup h argv).
Proof.
  unfold Claudebox.main_setup.
  repeat first
    [ match goal with
      | |- returns _ (bind (try_catch (Claudebox.Sandbox_create _ _) _) _) =>
          eapply returns_bind_with;
          [ apply claudebox_create_platform; intros e; unfold console_error;
            returns_tac
          | intros sandbox HQ; cbv zeta; apply returns_ret; exact HQ ]
      end
    | apply returns_bind; intros ?
    | progress cbv zeta ].
Qed.

Lemma claudebox_main_launches (h : Host) (argv : list string) :
  launches h (Claudebox.main h argv).
Proof.
  unfold Claudebox.main.
  eapply launches_after_with.
  - apply claudebox_main_setup_platform.
  - apply claudebox_main_setup_no_spawn.
  - intros s HQ. unfold Claudebox.main_launch.
    destruct (Claudebox.dryRun_option (Claudebox.session_options s)).
    + apply launches_never. returns_tac.
    + now apply claudebox_spawn_launches.
Qed.

Lemma part001_main_launches (h : Host) (argv : list string) :
  launches h (Part001.main h argv).
Proof.
  unfold Part001.main, realpath, console_log, process_on.
  repeat first
    [ match goal with
      | |- launches _ (bind (try_catch (Part001.Sandbox_create _ _) _) _) =>
          eapply (launches_after_with _ _ zero_or_one);
          [ apply part001_create_platform; intros e; unfold console_error;
            returns_tac
          | solve [quiet_spawn]
          | intros sandbox HQ ]
      | |- launches _ (bind (Part001.spawn _ _ _) _) =>
          now apply part001_spawn_launches
      end
    | eapply (launches_after _ zero_or_one); [solve [quiet_spawn] | intros ?]
    | progress cbv zeta ].
Qed.

(* --------------------------------------------------------------------- *)
(** ** The commands of a run *)

Lemma claudebox_parse_loop_no_exec (h : Host) (args : list string) :
  forall o, respects is_exec any_code (Claudebox.parse_loop h args o).
Proof.
  induction args as [|arg rest IH]; intros o; cbn [Claudebox.parse_loop].
  - apply respects_ret.
  - unfold Claudebox.showHelp, console_error, console_log.
    repeat first [apply IH | respects_step].
Qed.

Lemma part001_parse_loop_no_exec (h : Host) (args : list string) :
  forall o, respects is_exec any_code (Part001.parse_loop h args o).
Proof.
  induction args as [|arg rest IH]; intros o; cbn [Part001.parse_loop].
  - apply respects_ret.
  - unfold Part001.showHelp, console_error, console_log.
    repeat first [apply IH | respects_step].
Qed.

(** Steps that execute nothing. *)
Ltac no_exec :=
  unfold Claudebox.parseArgs, Claudebox.loadConfig, Part001.parseArgs,
    Part001.loadConfig, loadConfig, Claudebox.stage_ssh,
    Claudebox.copy_into_session, Claudebox.Sandbox_create,
    Part001.Sandbox_create, Claudebox.spawn, Part001.spawn,
    Claudebox.wrap, Part001.wrap,
    Claudebox.BubblewrapSandbox_wrap, Claudebox.sanitize_ssh_config,
    spawn_child, Part001.stage_ide_token,
    realpath, console_log, console_error, process_on;
  repeat first
    [ apply claudebox_parse_loop_no_exec
    | apply part001_parse_loop_no_exec
    | respects_step ].

Lemma adds_lift_ok {A B : Type} (keep : event -> bool) (n : list event)
  (a : A) (k : A -> M B) :
  adds keep n (k a) -> adds keep n (bind (lift (Ok a)) k).
Proof. intros H st st' b E. exact (H st st' b E). Qed.

Lemma getRepoRoot_adds_exec (h : Host) (projectDir : string) :
  adds is_exec [EvExec "git rev-parse --show-toplevel 2>/dev/null"]
    (getRepoRoot h projectDir).
Proof.
  unfold getRepoRoot.
  eapply adds_eq.
  - eapply adds_bind; [apply adds_emit; reflexivity | intros _].
    apply adds_nothing with (codes := any_code). no_exec.
  - reflexivity.
Qed.

Lemma initialize_adds_exec (h : Host) (claudeJson : string) :
  adds is_exec
    (if pathExists h claudeJson then [] else [EvExec "claude --help"])
    (if negb (pathExists h claudeJson) then
       console_log "Initializing Claude configuration..." ;;;
       emit (EvExec "claude --help")
     else ret tt).
Proof.
  destruct (pathExists h claudeJson); cbn [negb].
  - apply adds_nothing with (codes := any_code). apply respects_ret.
  - eapply adds_eq.
    + eapply adds_bind; [|intros _; apply adds_emit; reflexivity].
      apply adds_nothing with (codes := any_code). no_exec.
    + reflexivity.
Qed.

(** A chain of steps of [main], given where [~/.claude.json] is. *)
Ltac exec_chain Hcj :=
  repeat first
    [ match goal with
      | |- adds _ _ (bind (lift (path_join [_; Some ".claude.json"])) _) =>
          rewrite Hcj; apply adds_lift_ok
      end
    | eapply adds_bind;
      [ first [ apply getRepoRoot_adds_exec
              | apply initialize_adds_exec
              | apply adds_nothing with (codes := any_code); solve [no_exec] ]
      | intros ? ]
    | progress cbv zeta
    | apply adds_nothing with (codes := any_code); solve [no_exec] ].

Lemma claudebox_main_commands (h : Host) (argv : list string)
  (claudeJson : string) :
  path_join [getenv h "HOME"; Some ".claude.json"] = Ok claudeJson ->
  adds is_exec (setup_commands h claudeJson) (Claudebox.main h argv).
Proof.
  intros Hcj. unfold Claudebox.main, Claudebox.main_setup.
  eapply adds_eq.
  - eapply adds_bind; [exec_chain Hcj | intros s].
    unfold Claudebox.main_launch.
    destruct (Claudebox.dryRun_option (Claudebox.session_options s)).
    + apply (adds_never is_exec []). returns_tac.
    + apply adds_nothing with (codes := any_code). no_exec.
  - unfold setup_commands. cbn [app]. now rewrite !List.app_nil_r.
Qed.

Lemma part001_main_commands (h : Host) (argv : list string)
  (claudeJson : string) :
  path_join [getenv h "HOME"; Some ".claude.json"] = Ok claudeJson ->
  adds is_exec (setup_commands h claudeJson) (Part001.main h argv).
Proof.
  intros Hcj. unfold Part001.main.
  eapply adds_eq.
  - exec_chain Hcj.
  - unfold setup_commands. cbn [app]. now rewrite !List.app_nil_r.
Qed.

Lemma returns_lift_err {A B : Type} (P : B -> Prop) (e : error)
  (k : A -> M B) :
  returns P (bind (lift (Err e)) k).
Proof. intros st st' b E. discriminate E. Qed.

(** A run that gets past the setup has found where [~/.claude.json] is. *)
Ltac needs_home Herr :=
  repeat first
    [ match goal with
      | |- returns _ (bind (lift (path_join [_; Some ".claude.json"])) _) =>
          rewrite Herr; apply returns_lift_err
      end
    | apply returns_bind; intros ?
    | progress cbv zeta ].

Lemma claudebox_main_needs_home (h : Host) (argv : list string) (e : error) :
  path_join [getenv h "HOME"; Some ".claude.json"] = Err e ->
  returns (fun _ => False) (Claudebox.main h argv).
Proof.
  intros Herr. unfold Claudebox.main.
  apply (returns_bind_with _ (fun _ => False)); [|intros s []].
  unfold Claudebox.main_setup. needs_home Herr.
Qed.

Lemma part001_main_needs_home (h : Host) (argv : list string) (e : error) :
  path_join [getenv h "HOME"; Some ".claude.json"] = Err e ->
  returns (fun _ => False) (Part001.main h argv).
Proof. intros Herr. unfold Part001.main. needs_home Herr. Qed.

(** In both copies: a run that reaches the event loop has called [spawn]
    exactly once, and [spawn] accepted the command: [bwrap] on Linux, with
    [bash -c script] as the command it runs, and [sandbox-exec] on macOS,
    with [-- bash -c script] as its last arguments.  Besides this child,
    the commands the run has executed, through [execSync], are
    [git rev-parse] and, when [~/.claude.json] did not exist, [claude --help],
    in this order and outside the sandbox. *)
Theorem exactly_one_child :
  (forall (h : Host) (argv : list string) (s0 : SessFs.t) (st : state),
     run (Claudebox.main h argv) (mkState s0 []) = (st, Waiting) ->
     (exists r script,
        kept is_spawn (trace st) = [EvSpawn (cmd r) (args r) (env r)]
        /\ spawn_sync h (cmd r) (args r) (env r) = None
        /\ ((process_platform h = "linux" /\ cmd r = "bwrap"
             /\ bwrap_command (args r) = strs ["bash"; "-c"; script])
            \/ (process_platform h = "darwin"
                /\ cmd r = "/usr/bin/sandbox-exec"
                /\ exists pre,
                     args r = (pre ++ strs ["--"; "bash"; "-c"; script])%list)))
     /\ exists claudeJson,
          path_join [getenv h "HOME"; Some ".claude.json"] = Ok claudeJson
          /\ kept is_exec (trace st) = setup_commands h claudeJson)
  /\ (forall (h : Host) (argv : list string) (s0 : SessFs.t) (st : state),
        run (Part001.main h argv) (mkState s0 []) = (st, Waiting) ->
        (exists r script,
           kept is_spawn (trace st) = [EvSpawn (cmd r) (args r) (env r)]
           /\ spawn_sync h (cmd r) (args r) (env r) = None
           /\ ((process_platform h = "linux" /\ cmd r = "bwrap"
                /\ bwrap_command (args r) = strs ["bash"; "-c"; script])
               \/ (process_platform h = "darwin"
                   /\ cmd r = "/usr/bin/sandbox-exec"
                   /\ exists pre,
                        args r = (pre ++ strs ["--"; "bash"; "-c"; script])%list)))
        /\ exists claudeJson,
             path_join [getenv h "HOME"; Some ".claude.json"] = Ok claudeJson
             /\ kept is_exec (trace st) = setup_commands h claudeJson).
Proof.
  split; intros h argv s0 st H; unfold run in H.
  - destruct (Claudebox.main h argv (mkState s0 [])) as [st1 [[]|e|c]] eqn:E;
      try discriminate.
    injection H as <-. split.
    + exact (claudebox_main_launches h argv _ _ E).
    + destruct (path_join [getenv h "HOME"; Some ".claude.json"])
        as [claudeJson|e] eqn:Ej.
      * exists claudeJson. split; [reflexivity|].
        exact (claudebox_main_commands h argv claudeJson Ej _ _ _ E).
      * destruct (claudebox_main_needs_home h argv e Ej _ _ _ E).
  - destruct (Part001.main h argv (mkState s0 [])) as [st1 [[]|e|c]] eqn:E;
      try discriminate.
    injection H as <-. split.
    + exact (part001_main_launches h argv _ _ E).
    + destruct (path_join [getenv h "HOME"; Some ".claude.json"])
        as [claudeJson|e] eqn:Ej.
      * exists claudeJson. split; [reflexivity|].
        exact (part001_main_commands h argv claudeJson Ej _ _ _ E).
      * destruct (part001_main_needs_home h argv e Ej _ _ _ E).
Qed.

(** A plain run on the macOS example host, where [~/.claude.json] does not
    exist yet. *)
Lemma exactly_one_child_witness :
  exists st r,
    run (Part001.main Example.darwin Example.real_run_argv) Example.fresh
    = (st, Waiting)
    /\ kept is_spawn (trace st) = [EvSpawn (cmd r) (args r) (env r)]
    /\ cmd r = "/usr/bin/sandbox-exec"
    /\ kept is_exec (trace st)
       = [EvExec "git rev-parse --show-toplevel 2>/dev/null";
          EvExec "claude --help"].
Proof.
  destruct (run (Part001.main Example.darwin Example.real_run_argv)
              Example.fresh) as [st status] eqn:E.
  assert (Hs : status = Waiting)
    by (vm_compute in E; now injection E as _ <-).
  subst status.
  destruct (proj2 exactly_one_child Example.darwin Example.real_run_argv
              (SessFs.mk true None) st E)
    as ((r & script & Hk & _ & [(Hp & _) | (_ & Hc & _)])
        & claudeJson & Hj & He);
    [discriminate|].
  exists st, r. repeat split; try assumption.
  rewrite He. vm_compute in Hj. injection Hj as <-. reflexivity.
Defined.

(** In both copies no listener waits for the ['error'] event of the child:
    when the child cannot be started after all, the error is an uncaught
    exception, and the process exits with status 1 once the ['exit'] listener
    has run [cleanup]. *)
Theorem child_error_exits_1 :
  (forall (h : Host) (argv : list string) (fs0 : SessFs.t) (st : state),
     run (Claudebox.main h argv) (mkState fs0 []) = (st, Waiting) ->
     forall (e : error) (fs_now : SessFs.t),
       deliver (ChildError e) (mkState fs_now (trace st))
       = (mkState (fst (SessFs.rmSync fs_now))
            (trace st ++ [EvError (err_message e); EvRm (claudeHome_of h)]),
          Exited 1))
  /\ (forall (h : Host) (argv : list string) (fs0 : SessFs.t) (st : state),
        run (Part001.main h argv) (mkState fs0 []) = (st, Waiting) ->
        forall (e : error) (fs_now : SessFs.t),
          deliver (ChildError e) (mkState fs_now (trace st))
          = (mkState (fst (SessFs.rmSync fs_now))
               (trace st ++ [EvError (err_message e); EvRm (claudeHome_of h)]),
             Exited 1)).
Proof.
  assert (Hd : forall (h : Host) (st : state) (e : error),
            kept is_on (trace st)
            = (session_listeners h ++ [EvOn "close" HExitChildCode])%list ->
            deliver (ChildError e) st
            = (mkState (fst (SessFs.rmSync (fs st)))
                 (trace st ++ [EvError (err_message e); EvRm (claudeHome_of h)]),
               Exited 1)).
  { intros h st e H. unfold deliver.
    rewrite (waiting_listeners h _ _ H).
    cbn [session_listeners app listeners String.eqb Ascii.eqb Bool.eqb].
    unfold run, throw, finish. cbn [trace fs].
    rewrite listeners_app, (waiting_listeners h _ _ H).
    cbn [session_listeners app listeners String.eqb Ascii.eqb Bool.eqb
         fold_left run_handler].
    rewrite cleanup_run. cbn [fst fs trace].
    now rewrite <- List.app_assoc. }
  split; intros h argv fs0 st Hrun e fs_now; unfold run in Hrun.
  - destruct (Claudebox.main h argv (mkState fs0 [])) as [st1 [[]|e1|c]] eqn:E;
      try discriminate.
    injection Hrun as ->.
    pose proof (claudebox_main_listeners h argv _ _ _ E) as H.
    exact (Hd h (mkState fs_now (trace st)) e H).
  - destruct (Part001.main h argv (mkState fs0 [])) as [st1 [[]|e1|c]] eqn:E;
      try discriminate.
    injection Hrun as ->.
    pose proof (part001_main_listeners h argv _ _ _ E) as H.
    exact (Hd h (mkState fs_now (trace st)) e H).
Qed.

Lemma child_error_exits_1_witness :
  exists st,
    run (Claudebox.main Example.linux Example.real_run_argv) Example.fresh
    = (st, Waiting)
    /\ deliver (ChildError (mkError (Some "ENOENT") "spawn bwrap ENOENT"))
         (mkState (SessFs.mk true (Some (SessFs.Dir true []))) (trace st))
       = (mkState (SessFs.mk true None)
            (trace st ++ [EvError "spawn bwrap ENOENT";
                          EvRm (claudeHome_of Example.linux)]),
          Exited 1).
Proof.
  destruct (run (Claudebox.main Example.linux Example.real_run_argv)
              Example.fresh) as [st status] eqn:E.
  assert (Hs : status = Waiting)
    by (vm_compute in E; now injection E as _ <-).
  subst status. exists st. split; [reflexivity|].
  exact (proj1 child_error_exits_1 Example.linux Example.real_run_argv
           (SessFs.mk true None) st E
           (mkError (Some "ENOENT") "spawn bwrap ENOENT")
           (SessFs.mk true (Some (SessFs.Dir true [])))).
Defined.

(* --------------------------------------------------------------------- *)
(** ** What is copied from [~/.ssh] *)

Lemma obj_set_In {V : Type} (k : string) (v : V) (o : Js.obj V)
  (k' : string) (v' : V) :
  In (k', v') (Js.obj_set k v o) -> (k' = k /\ v' = v) \/ In (k', v') o.
Proof.
  induction o as [|[k0 v0] o IH]; cbn [Js.obj_set].
  - intros [[= <- <-]|[]]. now left.
  - destruct (String.eqb_spec k0 k) as [->|Hne].
    + intros [[= <- <-]|H]; [now left | right; now right].
    + intros [H|H]; [right; now left|].
      destruct (IH H) as [H'|H']; [now left | right; now right].
Qed.

Lemma obj_get_In {V : Type} (k : string) (o : Js.obj V) (v : V) :
  Js.obj_get k o = Some v -> In (k, v) o.
Proof.
  induction o as [|[k0 v0] o IH]; cbn [Js.obj_get]; [discriminate|].
  destruct (String.eqb_spec k0 k) as [->|Hne].
  - intros [= ->]. now left.
  - intros H. right. now apply IH.
Qed.

Section Staged.
Variable h : Host.
Variable sshDir : string.

Lemma put_top_staged (exclusive : bool) (name : string) (new : SessFs.node)
  (s : SessFs.t) :
  match new with
  | SessFs.Dir _ (_ :: _) => name <> ".ssh"
  | _ => True
  end ->
  ssh_staged h sshDir s ->
  ssh_staged h sshDir (fst (SessFs.put_session exclusive [name] new s)).
Proof.
  intros Hnew H. unfold SessFs.put_session.
  destruct (SessFs.session s) as [[c|w es]|] eqn:Es; cbn [SessFs.put fst];
    try exact H.
  assert (Hset : ssh_staged h sshDir
                   (SessFs.mk (SessFs.tmp_writable s)
                      (Some (SessFs.Dir w (Js.obj_set name new es))))).
  { intros w' es' sw ssh nm n [= <- <-] Hin Hn.
    apply obj_set_In in Hin as [[E1 E2]|Hin].
    - subst new. destruct ssh; [destruct Hn|]. now destruct Hnew.
    - exact (H w es sw ssh nm n Es Hin Hn). }
  destruct (Js.obj_get name es) as [[c|cw ces]|]; destruct exclusive;
    try destruct w; cbn [fst]; first [exact H | exact Hset].
Qed.

Lemma put_ssh_staged (exclusive : bool) (name : string) (new : SessFs.node)
  (s : SessFs.t) :
  staged_ssh_entry h sshDir name new ->
  ssh_staged h sshDir s ->
  ssh_staged h sshDir (fst (SessFs.put_session exclusive [".ssh"; name] new s)).
Proof.
  intros Hnew H. unfold SessFs.put_session.
  destruct (SessFs.session s) as [[c|w es]|] eqn:Es; cbn [SessFs.put fst];
    try exact H.
  destruct (Js.obj_get ".ssh" es) as [[c|cw ces]|] eqn:Ec; cbn [SessFs.put fst];
    try exact H.
  assert (Hset : ssh_staged h sshDir
                   (SessFs.mk (SessFs.tmp_writable s)
                      (Some (SessFs.Dir w
                               (Js.obj_set ".ssh"
                                  (SessFs.Dir cw (Js.obj_set name new ces))
                                  es))))).
  { intros w' es' sw ssh nm n [= <- <-] Hin Hn.
    apply obj_set_In in Hin as [[_ E2]|Hin].
    - injection E2 as -> ->.
      apply obj_set_In in Hn as [[-> ->]|Hn]; [exact Hnew|].
      exact (H w es cw ces nm n Es (obj_get_In _ _ _ Ec) Hn).
    - exact (H w es sw ssh nm n Es Hin Hn). }
  destruct (Js.obj_get name ces) as [[c|cw' ces']|]; destruct exclusive;
    try destruct cw; cbn [fst]; first [exact H | exact Hset].
Qed.

Lemma mkdirSync_root_staged (s : SessFs.t) :
  ssh_staged h sshDir s -> ssh_staged h sshDir (fst (SessFs.mkdirSync_root s)).
Proof.
  intros H. unfold SessFs.mkdirSync_root.
  destruct (SessFs.session s) as [[c|w es]|]; cbn [fst]; try exact H.
  destruct (SessFs.tmp_writable s); cbn [fst]; [|exact H].
  intros w' es' sw ssh nm n [= <- <-] [].
Qed.

Lemma preserves_lift_bind {A B : Type} (I : SessFs.t -> Prop) (r : res A)
  (k : A -> M B) :
  (forall a, r = Ok a -> preserves I (k a)) -> preserves I (bind (lift r) k).
Proof.
  intros Hk. destruct r as [a|e].
  - intros st st' o. unfold bind, lift, ret. now apply Hk.
  - intros st st' o. unfold bind, lift, throw. now intros [= <- <-].
Qed.

Lemma copy_into_session_staged (src name : string) :
  (forall content,
     fs_readFileSync h src = Ok content ->
     staged_ssh_entry h sshDir name (SessFs.File content)) ->
  preserves (ssh_staged h sshDir)
    (Claudebox.copy_into_session h src [".ssh"; name]).
Proof.
  intros Hc. unfold Claudebox.copy_into_session.
  apply preserves_lift_bind. intros content E.
  apply preserves_on_session. intros s. apply put_ssh_staged. now apply Hc.
Qed.

Lemma claudebox_stage_ssh_staged (home : option string) :
  path_join [home; Some ".ssh"] = Ok sshDir ->
  preserves (ssh_staged h sshDir) (Claudebox.stage_ssh h home).
Proof.
  intros Hs. unfold Claudebox.stage_ssh.
  apply preserves_lift_bind. intros d E. rewrite Hs in E. injection E as <-.
  destruct (isDirectory h sshDir); [|apply preserves_ret].
  apply preserves_bind;
    [apply preserves_on_session; intros s; now apply put_top_staged | intros _].
  apply preserves_bind;
    [apply preserves_on_session; intros s; apply put_ssh_staged; now left
    | intros _].
  cbv zeta.
  apply preserves_bind; [|intros _].
  { destruct (pathExists h (Path.join [sshDir; "known_hosts"]));
      [|apply preserves_ret].
    apply copy_into_session_staged. intros content E.
    right; left. split; [reflexivity|]. now exists content. }
  apply preserves_bind; [|intros _].
  { destruct (pathExists h (Path.join [sshDir; "config"]));
      [|apply preserves_ret].
    apply preserves_lift_bind. intros content E.
    apply preserves_on_session. intros s. apply put_ssh_staged.
    right; right; left. split; [reflexivity|]. now exists content. }
  apply preserves_try_catch; [|intros e; apply preserves_ret].
  apply preserves_bind; [apply preserves_lift | intros files].
  apply preserves_for_each. intros file.
  destruct (Js.endsWith file ".pub") eqn:Ep; [|apply preserves_ret].
  apply copy_into_session_staged. intros content E.
  right; right; right. split; [exact Ep|]. now exists content.
Qed.

Lemma claudebox_main_setup_staged (argv : list string) :
  path_join [getenv h "HOME"; Some ".ssh"] = Ok sshDir ->
  preserves (ssh_staged h sshDir) (Claudebox.main_setup h argv).
Proof.
  intros Hs.
  unfold Claudebox.main_setup, Claudebox.Sandbox_create, realpath,
    console_log, console_error, process_on.
  repeat first
    [ apply claudebox_parseArgs_preserves
    | apply getRepoRoot_preserves
    | apply (claudebox_stage_ssh_staged _ Hs)
    | apply preserves_on_session; intros ?; apply mkdirSync_root_staged
    | preserves_step ].
Qed.

Lemma claudebox_spawn_staged (sandbox : Claudebox.Sandbox) (script : string) :
  preserves (ssh_staged h sshDir)
    (Claudebox.spawn h sandbox script ;;; process_on "close" HExitChildCode).
Proof.
  unfold Claudebox.spawn, Claudebox.wrap, Claudebox.BubblewrapSandbox_wrap,
    Claudebox.sanitize_ssh_config, spawn_child, process_on.
  repeat first
    [ apply preserves_on_session; intros ? ?; apply put_top_staged;
      [exact Logic.I | assumption]
    | preserves_step ].
Qed.

End Staged.

(** In [src/src/claudebox.js]: when a run that started without a session
    directory has handed over to the event loop, every entry of the [.ssh]
    directory of the sandbox home is the empty [controlmaster] directory, a
    copy of the host's [known_hosts], the host's [config] with its
    [IdentityAgent] lines rewritten, or a copy of a host file whose name
    ends in [.pub].  Nothing else of [~/.ssh] (a private key, for one) is
    copied. *)
Theorem only_public_ssh_files_staged (h : Host) (argv : list string)
  (sshDir : string) (s0 : SessFs.t) (st : state) :
  path_join [getenv h "HOME"; Some ".ssh"] = Ok sshDir ->
  SessFs.session s0 = None ->
  run (Claudebox.main h argv) (mkState s0 []) = (st, Waiting) ->
  forall w es sw ssh name n,
    SessFs.session (fs st) = Some (SessFs.Dir w es) ->
    In (".ssh", SessFs.Dir sw ssh) es ->
    In (name, n) ssh ->
    staged_ssh_entry h sshDir name n.
Proof.
  intros Hs H0 Hrun. unfold run in Hrun.
  destruct (Claudebox.main h argv (mkState s0 [])) as [st1 [[]|e|c]] eqn:E;
    try discriminate.
  injection Hrun as ->. change (ssh_staged h sshDir (fs st)).
  unfold Claudebox.main, bind in E.
  destruct (Claudebox.main_setup h argv (mkState s0 [])) as [st1 [s|e|c]] eqn:E1;
    try discriminate.
  assert (H1 : ssh_staged h sshDir (fs st1)).
  { apply (claudebox_main_setup_staged h sshDir argv Hs _ _ _ E1).
    intros w es sw ssh name n Hn. cbn [fs] in Hn. congruence. }
  unfold Claudebox.main_launch in E.
  destruct (Claudebox.dryRun_option (Claudebox.session_options s)).
  - exfalso. revert E.
    assert (Hr : returns (fun _ : unit => False)
                   (Claudebox.dryRun h (Claudebox.session_sandbox s)
                      (Claudebox.session_script s) ;;;
                    cleanup (Claudebox.session_claudeHome s) ;;;
                    process_exit 0)) by returns_tac.
    intros E. exact (Hr _ _ _ E).
  - exact (claudebox_spawn_staged h sshDir _ _ _ _ _ E H1).
Qed.

(** On a host whose [~/.ssh] holds [id_ed25519], [id_ed25519.pub] and
    [known_hosts], a run with [--allow-ssh-agent] stages [controlmaster],
    [known_hosts] and the public key. *)
Lemma only_public_ssh_files_staged_witness :
  exists st es ssh,
    run (Claudebox.main linux_with_keys
           ["node"; "claudebox"; "--allow-ssh-agent"]) Example.fresh
    = (st, Waiting)
    /\ SessFs.session (fs st) = Some (SessFs.Dir true es)
    /\ In (".ssh", SessFs.Dir true ssh) es
    /\ map fst ssh = ["controlmaster"; "known_hosts"; "id_ed25519.pub"]
    /\ staged_ssh_entry linux_with_keys "/home/u/.ssh" "id_ed25519.pub"
         (SessFs.File "<public key>").
Proof.
  destruct (run (Claudebox.main linux_with_keys
                   ["node"; "claudebox"; "--allow-ssh-agent"]) Example.fresh)
    as [st status] eqn:E.
  assert (Hs : status = Waiting
               /\ SessFs.session (fs st)
                  = Some (SessFs.Dir true
                            [(".ssh",
                              SessFs.Dir true
                                [("controlmaster", SessFs.Dir true []);
                                 ("known_hosts", SessFs.File "<known hosts>");
                                 ("id_ed25519.pub",
                                  SessFs.File "<public key>")])]))
    by (vm_compute in E; injection E as <- <-; now split).
  destruct Hs as [-> Hfs].
  eexists st, _, _. split; [reflexivity|]. split; [exact Hfs|].
  split; [now left|]. split; [reflexivity|].
  eapply (only_public_ssh_files_staged linux_with_keys
            ["node"; "claudebox"; "--allow-ssh-agent"] "/home/u/.ssh"
            (SessFs.mk true None) st eq_refl eq_refl E).
  - exact Hfs.
  - now left.
  - right; right; now left.
Defined.
